(** * AISearchViewerLite: the tabular view engine, embedded and verified

    A shallow embedding of [AISearchViewerLite.py]: the query normaliser,
    the engine registry, the search-URL builder, and the session state of
    [XlsxSearchViewer] (sheet load, filter, sort, selection helpers).

    Python [str] values are sequences of Unicode code points, so a string
    is a [list N]; the built-in string operations the program calls are
    written out below on that representation. *)

From Stdlib Require Import NArith ZArith Ascii String DecimalString DecimalNat.
From stdpp Require Import base list gmap sorting.

(** ** Python strings *)

Module Py.

Local Open Scope N_scope.

Abbreviation str := (list N).

(** An ASCII literal as a code-point sequence. *)
Definition lit (s : string) : str :=
  List.map N_of_ascii (list_ascii_of_string s).

(** [Py_UNICODE_ISSPACE]: the predicate behind [str.strip()], [str.isspace()]
    and the [\s] class of [re] on [str] patterns. *)
Definition is_space (c : N) : bool :=
  ((9 <=? c) && (c <=? 13)) || ((28 <=? c) && (c <=? 32))
  || (c =? 133) || (c =? 160) || (c =? 5760)
  || ((8192 <=? c) && (c <=? 8202))
  || (c =? 8232) || (c =? 8233) || (c =? 8239) || (c =? 8287)
  || (c =? 12288).

(** [s.lstrip()] *)
Fixpoint lstrip (s : str) : str :=
  match s with
  | [] => []
  | c :: s' => if is_space c then lstrip s' else s
  end.

(** [s.rstrip()]: a character is dropped when it is white space and nothing
    survives to its right. *)
Fixpoint rstrip (s : str) : str :=
  match s with
  | [] => []
  | c :: s' =>
      match rstrip s' with
      | [] => if is_space c then [] else [c]
      | r => c :: r
      end
  end.

(** [s.strip()] *)
Definition strip (s : str) : str := rstrip (lstrip s).

(** [s.startswith(p)] *)
Fixpoint startswith (p s : str) : bool :=
  match p, s with
  | [], _ => true
  | _ :: _, [] => false
  | a :: p', b :: s' => (a =? b) && startswith p' s'
  end.

(** [p in s] *)
Fixpoint contains (p s : str) : bool :=
  startswith p s ||
  match s with
  | [] => false
  | _ :: s' => contains p s'
  end.

(** [s.replace(old, new)] for a non-empty [old]: occurrences are taken left
    to right and do not overlap.  [skip] counts the characters of a matched
    occurrence that are still to be consumed. *)
Fixpoint replace_from (old new : str) (skip : nat) (s : str) : str :=
  match s with
  | [] => []
  | c :: s' =>
      match skip with
      | S k => replace_from old new k s'
      | O =>
          if startswith old s
          then new ++ replace_from old new (Nat.pred (length old)) s'
          else c :: replace_from old new O s'
      end
  end.

(** [s.replace(old, new)]; with an empty [old] Python puts [new] before
    every character and at the end. *)
Definition replace (old new s : str) : str :=
  match old with
  | [] => new ++ List.concat (List.map (fun c => c :: new) s)
  | _ :: _ => replace_from old new O s
  end.

(** [re.sub(r"\s+", " ", s)]: every maximal run of white space becomes one
    space.  [in_run] tells that the previous character was white space. *)
Fixpoint sub_ws (in_run : bool) (s : str) : str :=
  match s with
  | [] => []
  | c :: s' =>
      if is_space c
      then (if in_run then sub_ws true s' else 32 :: sub_ws true s')
      else c :: sub_ws false s'
  end.

(** [sep.join(parts)] *)
Fixpoint join (sep : str) (parts : list str) : str :=
  match parts with
  | [] => []
  | [p] => p
  | p :: ps => p ++ sep ++ join sep ps
  end.

(** [str(n)] for a non-negative integer: its decimal digits. *)
Definition str_of_nat (n : nat) : str :=
  lit (NilZero.string_of_uint (Nat.to_uint n)).

(** String comparison [a <= b]: lexicographic on code points. *)
Fixpoint str_leb (a b : str) : bool :=
  match a, b with
  | [], _ => true
  | _ :: _, [] => false
  | x :: a', y :: b' => (x <? y) || ((x =? y) && str_leb a' b')
  end.

(** [bytes(s, "utf-8")] with [errors="strict"]: [None] is the
    [UnicodeEncodeError] raised on a lone surrogate (and stands for values
    past U+10FFFF, which no [str] holds). *)
Definition utf8_char (c : N) : option (list N) :=
  if c <? 128 then Some [c]
  else if c <? 2048 then Some [192 + c / 64; 128 + c mod 64]
  else if c <? 65536 then
    if (55296 <=? c) && (c <=? 57343) then None
    else Some [224 + c / 4096; 128 + (c / 64) mod 64; 128 + c mod 64]
  else if c <? 1114112 then
    Some [240 + c / 262144; 128 + (c / 4096) mod 64;
          128 + (c / 64) mod 64; 128 + c mod 64]
  else None.

Fixpoint utf8_encode (s : str) : option (list N) :=
  match s with
  | [] => Some []
  | c :: s' =>
      match utf8_char c, utf8_encode s' with
      | Some bs, Some rest => Some (bs ++ rest)
      | _, _ => None
      end
  end.

(** [urllib.parse._ALWAYS_SAFE]: ASCII letters, digits and [_.-~]. *)
Definition always_safe (b : N) : bool :=
  ((65 <=? b) && (b <=? 90)) || ((97 <=? b) && (b <=? 122))
  || ((48 <=? b) && (b <=? 57))
  || (b =? 95) || (b =? 46) || (b =? 45) || (b =? 126).

(** One upper-case hexadecimal digit, as [format(b, "02X")] prints it. *)
Definition hex_digit (n : N) : N :=
  if n <? 10 then 48 + n else 55 + n.

(** The [Quoter] of [urllib.parse] with no extra safe characters. *)
Definition quote_byte (b : N) : str :=
  if always_safe b then [b] else [37; hex_digit (b / 16); hex_digit (b mod 16)].

(** [urllib.parse.quote(s, safe="")] *)
Definition quote (s : str) : option str :=
  match utf8_encode s with
  | Some bs => Some (List.concat (List.map quote_byte bs))
  | None => None
  end.

(** *** Insertion-ordered dictionaries with string keys *)

Abbreviation dict := (list (str * str)).

Definition str_eqb (a b : str) : bool := bool_decide (a = b).

(** [d.get(k)] *)
Fixpoint dict_get (k : str) (d : dict) : option str :=
  match d with
  | [] => None
  | (k', v) :: d' => if str_eqb k k' then Some v else dict_get k d'
  end.

(** [d[k] = v]: an existing key keeps its position, a new key goes last. *)
Fixpoint dict_set (k v : str) (d : dict) : dict :=
  match d with
  | [] => [(k, v)]
  | (k', v') :: d' =>
      if str_eqb k k' then (k, v) :: d' else (k', v') :: dict_set k v d'
  end.

(** *** [list.sort(key=..., reverse=...)]

    [list.sort] is a stable sort, which fixes its result for a total order
    on the keys; insertion sort computes that result.  With [reverse=True]
    CPython reverses the list, sorts it, and reverses it again, so that
    equal keys still keep their original order. *)

Section ListSort.
Context {A K : Type} (leb : K -> K -> bool) (key : A -> K).

Fixpoint insert_by (x : A) (l : list A) : list A :=
  match l with
  | [] => [x]
  | y :: l' => if leb (key x) (key y) then x :: l else y :: insert_by x l'
  end.

Fixpoint stable_sort (l : list A) : list A :=
  match l with
  | [] => []
  | x :: l' => insert_by x (stable_sort l')
  end.

Definition list_sort (reverse : bool) (l : list A) : list A :=
  if reverse then rev (stable_sort (rev l)) else stable_sort l.
End ListSort.

End Py.
Import Py.

(** The parts of the Python runtime that rest on the Unicode character
    database, taken as an interface. *)
Class Runtime := {
  (** [str.lower()] *)
  lower : str -> str;
  (** [int(s)]; [None] is [ValueError] *)
  py_int : str -> option Z;
}.

(** [openpyxl.utils.get_column_letter]: spreadsheet column names, defined
    for 1..18278 ([A] to [ZZZ]); [None] is its [ValueError]. *)
Fixpoint column_letters (fuel col_idx : nat) (letters : str) : str :=
  match fuel with
  | O => letters
  | S fuel' =>
      if Nat.eqb col_idx 0 then letters
      else
        let q := Nat.div col_idx 26 in
        let r := Nat.modulo col_idx 26 in
        if Nat.eqb r 0
        then column_letters fuel' (Nat.pred q) (N.of_nat (26 + 64) :: letters)
        else column_letters fuel' q (N.of_nat (r + 64) :: letters)
  end.

Definition get_column_letter (col_idx : nat) : option str :=
  if Nat.leb 1 col_idx && (N.of_nat col_idx <=? 18278)%N
  then Some (column_letters col_idx col_idx [])
  else None.

(** ** Utilities *)

(** [normalize_query] *)
Definition normalize_query (s : str) : str :=
  match s with
  | [] => []
  | _ =>
      let s := replace [10%N] [32%N] (replace [13%N] [32%N] s) in
      let s := replace [12288%N] [32%N] s in
      let s := sub_ws false s in
      strip s
  end.

(** [truncate] *)
Definition truncate (s : str) (n : nat) : str :=
  take n s ++ (if Nat.ltb n (length s) then [8230%N] else []).

Definition placeholder : str := lit "{query}".

Definition DEFAULT_ENGINES : dict :=
  [ (lit "Google", lit "https://www.google.com/search?q={query}");
    (lit "Bing", lit "https://www.bing.com/search?q={query}");
    (lit "DuckDuckGo", lit "https://duckduckgo.com/?q={query}");
    (lit "Perplexity", lit "https://www.perplexity.ai/search?q={query}") ].

(** A section of [search_engines.ini] as the loop of [load_engines] has
    read it: its name and the values its two [cfg.get] returned for [name]
    and [url], if the options are there.  What [cfg.read] and [cfg.get]
    raise before that is part of [load_engines_path] below. *)
Record ini_section := {
  sec_name : str;
  opt_name : option str;
  opt_url : option str;
}.

(** The body of the loop of [load_engines]. *)
Definition load_engines_step (engines : dict) (sec : ini_section) : dict :=
  let name := default (sec_name sec) (opt_name sec) in
  let url := default [] (opt_url sec) in
  if negb (contains placeholder url) then engines
  else dict_set name url engines.

(** [load_engines] once every [cfg.get] has returned: the loop and the
    fallback, on the values read.  [load_engines_path] below is the
    function with [cfg.read] and [cfg.get] in it. *)
Definition load_engines (sections : list ini_section) : dict :=
  match fold_left load_engines_step sections [] with
  | [] => DEFAULT_ENGINES
  | engines => engines
  end.

(** ** [configparser]

    [load_engines] and [_alt_engine] read their values through
    [configparser.ConfigParser], whose [get] expands [%(option)s]
    references (the default [BasicInterpolation]) and raises where a value
    cannot be expanded; [fallback] covers a missing section or option
    only. *)

(** What the configuration code can raise. *)
Inductive exn :=
  | ReadError  (** [cfg.read] on a file it cannot decode or parse *)
  | InterpolationSyntaxError
  | InterpolationMissingOptionError
  | InterpolationDepthError
  | StopIteration.

Inductive result (A : Type) :=
  | Returns (a : A)
  | Raises (e : exn).

Arguments Returns {A} a.
Arguments Raises {A} e.

#[global] Instance result_ret : MRet result := fun A a => Returns a.

#[global] Instance result_bind : MBind result := fun A B f m =>
  match m with
  | Returns a => f a
  | Raises e => Raises e
  end.

Module configparser.

(** A parser after [read]: the options of [[DEFAULT]] and the sections in
    file order, every option name already lower-cased ([optionxform]). *)
Record ConfigParser := {
  _defaults : dict;
  _sections : list (str * dict);
}.

(** [cfg.sections()] *)
Definition sections (cfg : ConfigParser) : list str := (_sections cfg).*1.

(** [self._sections[section]] *)
Fixpoint section_dict (section : str) (secs : list (str * dict)) : option dict :=
  match secs with
  | [] => None
  | (name, d) :: secs' =>
      if str_eqb section name then Some d else section_dict section secs'
  end.

(** Lookup in a [ChainMap]: the first map that has the key decides. *)
Fixpoint chain_get (k : str) (maps : list dict) : option str :=
  match maps with
  | [] => None
  | d :: maps' =>
      match dict_get k d with
      | Some v => Some v
      | None => chain_get k maps'
      end
  end.

(** [_unify_values] without [vars]: the section's options before the
    defaults; [None] is [NoSectionError]. *)
Definition _unify_values (cfg : ConfigParser) (section : str) : option (list dict) :=
  match section_dict section (_sections cfg) with
  | Some d => Some [d; _defaults cfg]
  | None =>
      if str_eqb section (lit "DEFAULT") then Some [[]; _defaults cfg] else None
  end.

(** [MAX_INTERPOLATION_DEPTH] *)
Definition MAX_INTERPOLATION_DEPTH : nat := 10.

(** Where the loop of [_interpolate_some] stands in [rest]: in plain text,
    behind a [%], inside the name of [%(name)s], or behind its [)]. *)
Inductive reading :=
  | Text
  | Percent
  | Key (k : str)
  | Close (k : str).

Section Interpolation.
Context `{R : Runtime}.

(** The [while rest] loop of [BasicInterpolation._interpolate_some], one
    character at a time, giving what it appends to [accum].  [%%] stands
    for [%]; [%(name)s] (the pattern [%\(([^)]+)\)s]) for the value of the
    option [name.lower()], expanded in turn by [nested] when it holds a
    [%]; any other [%] is a syntax error. *)
Fixpoint scan (nested : str -> result str) (map : list dict) (at_ : reading)
    (rest : str) : result str :=
  match rest with
  | [] =>
      match at_ with
      | Text => Returns []
      | _ => Raises InterpolationSyntaxError
      end
  | c :: rest' =>
      match at_ with
      | Text =>
          if (c =? 37)%N then scan nested map Percent rest'
          else out ← scan nested map Text rest'; mret (c :: out)
      | Percent =>
          if (c =? 37)%N then out ← scan nested map Text rest'; mret (37%N :: out)
          else if (c =? 40)%N then scan nested map (Key []) rest'
          else Raises InterpolationSyntaxError
      | Key k =>
          if (c =? 41)%N then
            match k with
            | [] => Raises InterpolationSyntaxError
            | _ => scan nested map (Close k) rest'
            end
          else scan nested map (Key (k ++ [c])) rest'
      | Close k =>
          if (c =? 115)%N then
            match chain_get (lower k) map with
            | None => Raises InterpolationMissingOptionError
            | Some v =>
                e ← (if contains (lit "%") v then nested v else Returns v);
                out ← scan nested map Text rest';
                mret (e ++ out)
            end
          else Raises InterpolationSyntaxError
      end
  end.

(** [_interpolate_some], with the levels still allowed in place of
    [depth]: level 0 is [depth > MAX_INTERPOLATION_DEPTH]. *)
Fixpoint _interpolate_some (levels : nat) (map : list dict) (rest : str)
    : result str :=
  match levels with
  | O => Raises InterpolationDepthError
  | S levels' => scan (_interpolate_some levels' map) map Text rest
  end.

(** [BasicInterpolation.before_get] *)
Definition before_get (value : str) (defaults : list dict) : result str :=
  _interpolate_some MAX_INTERPOLATION_DEPTH defaults value.

(** [cfg.get(section, option, fallback=...)], for an option name that
    [optionxform] leaves as it is (the program passes lower-case
    literals). *)
Definition get (cfg : ConfigParser) (section opt fallback : str) : result str :=
  match _unify_values cfg section with
  | None => Returns fallback
  | Some d =>
      match chain_get opt d with
      | None => Returns fallback
      | Some value => before_get value d
      end
  end.

End Interpolation.

End configparser.

Import configparser.

Section Config.
Context `{R : Runtime}.

(** The body of the loop of [load_engines], with its two [cfg.get]. *)
Definition load_engines_iter (cfg : ConfigParser) (engines : dict) (sec : str)
    : result dict :=
  name ← get cfg sec (lit "name") sec;
  url ← get cfg sec (lit "url") [];
  if negb (contains placeholder url) then mret engines
  else mret (dict_set name url engines).

(** The [for sec in cfg.sections()] loop: an exception ends it. *)
Fixpoint load_engines_loop (cfg : ConfigParser) (secs : list str) (engines : dict)
    : result dict :=
  match secs with
  | [] => Returns engines
  | sec :: secs' =>
      engines' ← load_engines_iter cfg engines sec;
      load_engines_loop cfg secs' engines'
  end.

(** [load_engines(path)] in full.  [file] is what [cfg.read(path)] leaves
    in the fresh parser (nothing at all when the file is missing), or the
    exception it raises. *)
Definition load_engines_path (file : result ConfigParser) : result dict :=
  cfg ← file;
  engines ← load_engines_loop cfg (sections cfg) [];
  match engines with
  | [] => mret DEFAULT_ENGINES
  | _ => mret engines
  end.

(** [_alt_engine] in full, on [self.cfg] and [self.engines]. *)
Definition _alt_engine_cfg (cfg : ConfigParser) (engines : dict) : result str :=
  alt ← get cfg (lit "general") (lit "alt_engine") (lit "Perplexity");
  match dict_get alt engines with
  | Some _ => mret alt
  | None =>
      match engines with
      | (n, _) :: _ => mret n
      | [] => Raises StopIteration
      end
  end.

End Config.


(** ** The session state of [XlsxSearchViewer] *)

Abbreviation row := (list str).

(** A worksheet as the reader hands it over: [ws.max_column] and the rows
    of [ws.iter_rows(...)], each cell already through [safe_str]. *)
Record worksheet := {
  max_column : option nat;
  cell_rows : list row;
}.

Abbreviation workbook := (list (str * worksheet)).

(** [wb[name]]; [None] is [KeyError]. *)
Fixpoint sheet_by_name (name : str) (book : workbook) : option worksheet :=
  match book with
  | [] => None
  | (n, ws) :: book' => if str_eqb name n then Some ws else sheet_by_name name book'
  end.

Record State := {
  engines : dict;
  engine_var : str;
  cfg_alt_engine : option str;
  wb : option workbook;
  sheet_var : str;
  headers : list str;
  rows_all : list row;
  rows_view : list row;
  filter_var : str;
  _rc_col_index : option Z;
  _sort_state : gmap nat bool;
  (** the items of the [Treeview] in display order, and the selected one *)
  tree_items : list row;
  tree_selection : option nat;
}.

(** [_render_table]: the items are deleted, which empties the selection,
    and [rows_view] is inserted again. *)
Definition render_table (st : State) : State :=
  {| engines := engines st; engine_var := engine_var st;
     cfg_alt_engine := cfg_alt_engine st;
     wb := wb st; sheet_var := sheet_var st;
     headers := headers st; rows_all := rows_all st;
     rows_view := rows_view st; filter_var := filter_var st;
     _rc_col_index := _rc_col_index st; _sort_state := _sort_state st;
     tree_items := rows_view st; tree_selection := None |}.

(** *** Sheet load *)

(** [col_empty] of [load_sheet] *)
Fixpoint col_empty (values : list row) (ci : nat) : bool :=
  match values with
  | [] => true
  | r :: values' =>
      match r !! ci with
      | Some (_ :: _) => false
      | _ => col_empty values' ci
      end
  end.

(** The [while] loop of [load_sheet], started at [last_col]. *)
Fixpoint trim_last_col (values : list row) (last_col : nat) : nat :=
  match last_col with
  | O => O
  | S k => if col_empty values k then trim_last_col values k else last_col
  end.

(** [[get_column_letter(i) for i in range(1, last_col + 1)]] *)
Fixpoint column_labels (cols : list nat) : option (list str) :=
  match cols with
  | [] => Some []
  | i :: cols' =>
      match get_column_letter i, column_labels cols' with
      | Some l, Some ls => Some (l :: ls)
      | _, _ => None
      end
  end.

(** [[[str(i)] + r for i, r in enumerate(values, start=i)]] *)
Fixpoint number_rows (i : nat) (values : list row) : list row :=
  match values with
  | [] => []
  | r :: values' => (str_of_nat i :: r) :: number_rows (S i) values'
  end.

(** [load_sheet].  [None] is an exception ([KeyError] from the workbook,
    [ValueError] from the column labels); both are raised before any
    attribute is assigned, so the session is then unchanged. *)
Definition load_sheet (st : State) : option State :=
  match wb st with
  | None => Some st
  | Some book =>
      match sheet_by_name (sheet_var st) book with
      | None => None
      | Some ws =>
          let max_col := default 0 (max_column ws) in
          let values := cell_rows ws in
          let last_col := trim_last_col values max_col in
          let values := List.map (take last_col) values in
          match column_labels (seq 1 last_col) with
          | None => None
          | Some col_letters =>
              let rows := number_rows 1 values in
              Some (render_table
                {| engines := engines st; engine_var := engine_var st;
                   cfg_alt_engine := cfg_alt_engine st;
                   wb := wb st; sheet_var := sheet_var st;
                   headers := lit "#" :: col_letters;
                   rows_all := rows; rows_view := rows;
                   filter_var := [];
                   _rc_col_index := _rc_col_index st;
                   _sort_state := ∅;
                   tree_items := tree_items st;
                   tree_selection := tree_selection st |})
          end
      end
  end.

(** *** Sort *)

Section WithRuntime.
Context {R : Runtime}.

(** [key_func] of [sort_by_column] for column 0 *)
Definition key_int (r : row) : Z :=
  match r with
  | c0 :: _ => default 0%Z (py_int c0)
  | [] => 0%Z
  end.

(** [key_func] of [sort_by_column] for the other columns *)
Definition key_str (col_index : nat) (r : row) : str :=
  match r !! col_index with
  | Some c => lower c
  | None => []
  end.

(** [self.rows_view.sort(key=key_func, reverse=not asc)] *)
Definition sort_rows (col_index : nat) (asc : bool) (rows : list row) : list row :=
  match col_index with
  | O => list_sort Z.leb key_int (negb asc) rows
  | S _ => list_sort str_leb (key_str col_index) (negb asc) rows
  end.

(** [sort_by_column] *)
Definition sort_by_column (col_index : nat) (st : State) : State :=
  match rows_view st with
  | [] => st
  | _ :: _ =>
      let asc := default true (_sort_state st !! col_index) in
      render_table
        {| engines := engines st; engine_var := engine_var st;
           cfg_alt_engine := cfg_alt_engine st;
           wb := wb st; sheet_var := sheet_var st;
           headers := headers st; rows_all := rows_all st;
           rows_view := sort_rows col_index asc (rows_view st);
           filter_var := filter_var st;
           _rc_col_index := _rc_col_index st;
           _sort_state := <[col_index := negb asc]> (_sort_state st);
           tree_items := tree_items st;
           tree_selection := tree_selection st |}
  end.

(** *** Filter *)

(** The test of the comprehension in [apply_filter]. *)
Definition row_matches (q : str) (r : row) : bool :=
  contains q (lower (join [9%N] r)).

(** [apply_filter] *)
Definition apply_filter (st : State) : State :=
  let q := lower (strip (filter_var st)) in
  render_table
    {| engines := engines st; engine_var := engine_var st;
       cfg_alt_engine := cfg_alt_engine st;
       wb := wb st; sheet_var := sheet_var st;
       headers := headers st; rows_all := rows_all st;
       rows_view :=
         match q with
         | [] => rows_all st
         | _ :: _ => List.filter (row_matches q) (rows_all st)
         end;
       filter_var := filter_var st;
       _rc_col_index := _rc_col_index st; _sort_state := _sort_state st;
       tree_items := tree_items st; tree_selection := tree_selection st |}.

(** [self.filter_var.set(text)] *)
Definition set_filter_var (text : str) (st : State) : State :=
  {| engines := engines st; engine_var := engine_var st;
     cfg_alt_engine := cfg_alt_engine st;
     wb := wb st; sheet_var := sheet_var st;
     headers := headers st; rows_all := rows_all st;
     rows_view := rows_view st; filter_var := text;
     _rc_col_index := _rc_col_index st; _sort_state := _sort_state st;
     tree_items := tree_items st; tree_selection := tree_selection st |}.

(** [clear_filter] *)
Definition clear_filter (st : State) : State :=
  apply_filter (set_filter_var [] st).
End WithRuntime.

(** *** Selection helpers *)

(** [_get_selected_values]: the values of the selected item, or [[]].  The
    values are kept as the display strings that were inserted; what the
    toolkit does to them on the way back is outside the model. *)
Definition _get_selected_values (st : State) : list str :=
  match tree_selection st with
  | None => []
  | Some i => default [] (tree_items st !! i)
  end.

(** The column the cell operations read: [self._rc_col_index] when it is
    set, and 1 otherwise. *)
Definition cell_column (st : State) : Z := default 1%Z (_rc_col_index st).

(** [_get_selected_cell_text_raw] *)
Definition _get_selected_cell_text_raw (st : State) : str :=
  match _get_selected_values st with
  | [] => []
  | vals =>
      let ci := cell_column st in
      if (0 <=? ci)%Z && (ci <? Z.of_nat (length vals))%Z
      then default [] (vals !! Z.to_nat ci)
      else []
  end.

(** [_get_selected_cell_text] *)
Definition _get_selected_cell_text (st : State) : str :=
  normalize_query (_get_selected_cell_text_raw st).

(** *** Search, copy, full text, status *)

(** [_make_search_url]; [None] is the [UnicodeEncodeError] of [quote]. *)
Definition _make_search_url (st : State) (engine_name query : str) : option str :=
  let tpl :=
    default (default [] (dict_get (lit "Google") DEFAULT_ENGINES))
            (dict_get engine_name (engines st)) in
  match quote query with
  | Some enc => Some (replace placeholder enc tpl)
  | None => None
  end.

(** What a command does to the world outside the session state. *)
Inductive action :=
  | Nothing
  | ShowInfo
  | OpenBrowser (url : str)
  | SetClipboard (text : str)
  | ShowText (text : str)
  | Raise.

(** [webbrowser.open(self._make_search_url(eng, q))] *)
Definition open_search (st : State) (eng q : str) : action :=
  match _make_search_url st eng q with
  | Some url => OpenBrowser url
  | None => Raise
  end.

(** [search_with_engine] *)
Definition search_with_engine (st : State) (engine_name : str) : action :=
  match _get_selected_cell_text st with
  | [] => ShowInfo
  | q => open_search st engine_name q
  end.

(** [search_default_engine] *)
Definition search_default_engine (st : State) : action :=
  match _get_selected_cell_text st with
  | [] => Nothing
  | q => open_search st (engine_var st) q
  end.

(** [_alt_engine] on the value its [cfg.get] returned; [None] is
    [StopIteration] on an empty registry.  [_alt_engine_cfg] above is the
    function with the [cfg.get] in it. *)
Definition _alt_engine (st : State) : option str :=
  let alt := default (lit "Perplexity") (cfg_alt_engine st) in
  match dict_get alt (engines st) with
  | Some _ => Some alt
  | None => match engines st with (n, _) :: _ => Some n | [] => None end
  end.

(** [search_alt_engine] *)
Definition search_alt_engine (st : State) : action :=
  match _get_selected_cell_text st with
  | [] => Nothing
  | q => match _alt_engine st with
         | Some eng => open_search st eng q
         | None => Raise
         end
  end.

(** [copy_cell_text] *)
Definition copy_cell_text (st : State) : action :=
  match _get_selected_cell_text_raw st with
  | [] => Nothing
  | text => SetClipboard text
  end.

(** [copy_search_url] *)
Definition copy_search_url (st : State) : action :=
  match _get_selected_cell_text st with
  | [] => Nothing
  | text => match _make_search_url st (engine_var st) text with
            | Some url => SetClipboard url
            | None => Raise
            end
  end.

(** [show_full_text] *)
Definition show_full_text (st : State) : action :=
  match _get_selected_cell_text_raw st with
  | [] => Nothing
  | raw => ShowText raw
  end.

(** The fields [update_status] formats into [cell_info]. *)
Record cell_info := {
  info_row_no : str;
  info_col_name : str;
  info_chars : nat;
  info_preview : str;
}.

(** The selected-cell part of [update_status]; [None] is the empty
    [cell_info] written when nothing is selected. *)
Definition status_cell_info (st : State) : option cell_info :=
  match _get_selected_values st with
  | [] => None
  | (v0 :: _) as vals =>
      let ci := cell_column st in
      let col_name :=
        if (0 <=? ci)%Z && (ci <? Z.of_nat (length (headers st)))%Z
        then default [] (headers st !! Z.to_nat ci)
        else lit "?" in
      let q := _get_selected_cell_text st in
      Some {| info_row_no := v0; info_col_name := col_name;
              info_chars := length q; info_preview := truncate q 80 |}
  end.

(** *** Events *)

Section Events.
Context {R : Runtime}.

(** [self.tree.selection_set(i)] with the column reference [rc]. *)
Definition select_item (i : nat) (rc : option Z) (st : State) : State :=
  {| engines := engines st; engine_var := engine_var st;
     cfg_alt_engine := cfg_alt_engine st;
     wb := wb st; sheet_var := sheet_var st;
     headers := headers st; rows_all := rows_all st;
     rows_view := rows_view st; filter_var := filter_var st;
     _rc_col_index := rc; _sort_state := _sort_state st;
     tree_items := tree_items st; tree_selection := Some i |}.

(** [on_right_click]: [row_id] is the item under the pointer, if any, and
    [col_id] the column identifier ([#n]) the toolkit reports. *)
Definition on_right_click (row_id : option nat) (col_id : str) (st : State) : State :=
  match row_id, col_id with
  | None, _ => st
  | _, [] => st
  | Some i, _ :: digits =>
      let rc := match py_int digits with
                | Some n => (n - 1)%Z
                | None => 1%Z
                end in
      select_item i (Some rc) st
  end.

(** [self.sheet_var.set(name)], with the workbook [book] when given. *)
Definition set_sheet (book : option workbook) (name : str) (st : State) : State :=
  {| engines := engines st; engine_var := engine_var st;
     cfg_alt_engine := cfg_alt_engine st;
     wb := match book with Some b => Some b | None => wb st end;
     sheet_var := name;
     headers := headers st; rows_all := rows_all st;
     rows_view := rows_view st; filter_var := filter_var st;
     _rc_col_index := _rc_col_index st; _sort_state := _sort_state st;
     tree_items := tree_items st; tree_selection := tree_selection st |}.

(** The engine box was set to [name]; [on_engine_changed] saves it. *)
Definition set_engine_var (name : str) (st : State) : State :=
  {| engines := engines st; engine_var := name;
     cfg_alt_engine := cfg_alt_engine st;
     wb := wb st; sheet_var := sheet_var st;
     headers := headers st; rows_all := rows_all st;
     rows_view := rows_view st; filter_var := filter_var st;
     _rc_col_index := _rc_col_index st; _sort_state := _sort_state st;
     tree_items := tree_items st; tree_selection := tree_selection st |}.

(** What the toolkit delivers to the viewer. *)
Inductive event :=
  | OpenFile (book : workbook)
  | SheetSelected (name : str)
  | FilterKeyRelease (text : str)
  | ClearButton
  | HeadingClick (col_index : nat)
  | TreeSelect (i : nat)
  | RightClick (row_id : option nat) (col_id : str)
  | EngineSelected (name : str).

(** The handler bound to each event.  A handler that raises leaves the
    session as it was when the exception left it. *)
Definition handle (st : State) (e : event) : State :=
  match e with
  | OpenFile book =>
      let name := match book with (n, _) :: _ => n | [] => [] end in
      let st' := set_sheet (Some book) name st in
      default st' (load_sheet st')
  | SheetSelected name =>
      let st' := set_sheet None name st in
      default st' (load_sheet st')
  | FilterKeyRelease text => apply_filter (set_filter_var text st)
  | ClearButton => clear_filter st
  | HeadingClick c => sort_by_column c st
  | TreeSelect i =>
      if Nat.ltb i (length (tree_items st))
      then select_item i (_rc_col_index st) st
      else st
  | RightClick row_id col_id =>
      match row_id with
      | Some i =>
          if Nat.ltb i (length (tree_items st))
          then on_right_click row_id col_id st
          else st
      | None => st
      end
  | EngineSelected name => set_engine_var name st
  end.

(** [XlsxSearchViewer.__init__] on the two configuration files. *)
Definition init (sections : list ini_section)
    (default_engine alt_engine : option str) : State :=
  let engines := load_engines sections in
  let wanted := default (lit "Google") default_engine in
  {| engines := engines;
     engine_var :=
       match dict_get wanted engines with
       | Some _ => wanted
       | None => match engines with (n, _) :: _ => n | [] => [] end
       end;
     cfg_alt_engine := alt_engine;
     wb := None; sheet_var := [];
     headers := []; rows_all := []; rows_view := [];
     filter_var := [];
     _rc_col_index := None; _sort_state := ∅;
     tree_items := []; tree_selection := None |}.

(** The sessions the viewer can be in. *)
Inductive reachable : State -> Prop :=
  | reachable_init sections de ae : reachable (init sections de ae)
  | reachable_step st e : reachable st -> reachable (handle st e).

(** The session after a sequence of events. *)
Definition run (st : State) (es : list event) : State :=
  fold_left handle es st.
End Events.

(** A runtime for ASCII text: [lower] maps [A]..[Z] to [a]..[z], and
    [int] reads unsigned decimal digits. *)
Definition ascii_lower_char (c : N) : N :=
  if ((65 <=? c) && (c <=? 90))%N then (c + 32)%N else c.

Fixpoint ascii_digits (acc : Z) (s : str) : option Z :=
  match s with
  | [] => Some acc
  | c :: s' =>
      if ((48 <=? c) && (c <=? 57))%N
      then ascii_digits (10 * acc + Z.of_N (c - 48))%Z s'
      else None
  end.

Definition ascii_runtime : Runtime :=
  {| lower := List.map ascii_lower_char;
     py_int := fun s => match s with [] => None | _ => ascii_digits 0 s end |}.

(** *** Column widths *)

(** The clamp at the end of [autosize_columns]: column 0 is held between 60
    and 80, any other column between 60 and [max_width]. *)
Definition clamp_width (i : nat) (max_width w : Z) : Z :=
  match i with
  | O => Z.min (Z.max w 60) 80
  | S _ => Z.min (Z.max w 60) max_width
  end.

(** The inner loop of [autosize_columns] over the cells of one row, from
    column [i] on; [None] is the [IndexError] of [widths[i]] on a row with
    more cells than there are headers. *)
Fixpoint widen_row (measure : str -> Z) (padding : Z) (i : nat) (row : list str)
    (widths : list Z) : option (list Z) :=
  match row with
  | [] => Some widths
  | val :: row' =>
      match widths !! i with
      | None => None
      | Some old =>
          let w := (measure val + padding)%Z in
          widen_row measure padding (S i) row'
            (if (old <? w)%Z then <[i := w]> widths else widths)
      end
  end.

(** The outer loop of [autosize_columns]. *)
Fixpoint widen_rows (measure : str -> Z) (padding : Z) (rows : list row)
    (widths : list Z) : option (list Z) :=
  match rows with
  | [] => Some widths
  | r :: rows' =>
      match widen_row measure padding O r widths with
      | None => None
      | Some widths' => widen_rows measure padding rows' widths'
      end
  end.

(** [autosize_columns], with [font.measure] as [measure]: the widths given
    to the columns, in order (none when there are no headers). *)
Definition autosize_columns (measure : str -> Z) (sample_rows : nat)
    (padding max_width : Z) (st : State) : option (list Z) :=
  match headers st with
  | [] => Some []
  | _ :: _ =>
      let widths := List.map (fun h => (measure h + padding)%Z) (headers st) in
      match widen_rows measure padding (take sample_rows (rows_view st)) widths with
      | None => None
      | Some widths' => Some (imap (fun i w => clamp_width i max_width w) widths')
      end
  end.

(** *** Cell highlight *)

(** What a call does to the highlight window. *)
Inductive overlay :=
  | Untouched
  | Hidden
  | Shown (width height x y : Z).

(** [draw_cell_highlight].  [enabled] says that the highlight window
    exists; [bbox item column] is [self.tree.bbox] for the item and the
    column [#column], [None] when the cell is not on screen; [rootx] and
    [rooty] are the screen position of the grid. *)
Definition draw_cell_highlight (enabled : bool)
    (bbox : nat -> Z -> option (Z * Z * Z * Z)) (rootx rooty : Z)
    (st : State) : overlay :=
  if negb enabled then Untouched
  else
    match tree_selection st, _rc_col_index st with
    | Some item, Some rc =>
        match bbox item (rc + 1)%Z with
        | None => Hidden
        | Some (x, y, w, h) =>
            let pad := 0%Z in
            Shown (Z.max 1 (w + pad)) (Z.max 1 (h + pad)) (rootx + x) (rooty + y)
        end
    | _, _ => Hidden
    end.

(** ** Predicates used in the statements *)

(** White space is laid out tidily after [prev_space] when every white
    character is an ordinary space standing alone. *)
Fixpoint tidy (prev_space : bool) (s : str) : bool :=
  match s with
  | [] => true
  | c :: s' =>
      if is_space c then (c =? 32)%N && negb prev_space && tidy true s'
      else tidy false s'
  end.

(** A section is valid when its [url] holds the placeholder. *)
Definition has_placeholder (sec : ini_section) : bool :=
  contains placeholder (default [] (opt_url sec)).

(** A registry entry is usable when its template holds the placeholder. *)
Definition entry_ok (e : str * str) : Prop := contains placeholder e.2 = true.

(** A code point that UTF-8 can encode: a Unicode scalar value. *)
Definition is_scalar (c : N) : bool :=
  ((c <? 55296) || ((57343 <? c) && (c <? 1114112)))%N.

(** The value of a hexadecimal digit. *)
Definition hex_value (c : N) : N :=
  (if c <? 58 then c - 48 else c - 55)%N.

(** Percent-decoding, the inverse [quote] is meant to have: [%XY] stands
    for the byte [XY], any other character for itself. *)
Fixpoint unquote_bytes (s : str) : list N :=
  match s with
  | [] => []
  | c :: s' =>
      if (c =? 37)%N then
        match s' with
        | h :: l :: rest => (16 * hex_value h + hex_value l)%N :: unquote_bytes rest
        | _ => c :: unquote_bytes s'
        end
      else c :: unquote_bytes s'
  end.

(** The template [_make_search_url] picks for an engine name. *)
Definition template_for (st : State) (engine_name : str) : str :=
  match dict_get engine_name (engines st) with
  | Some tpl => tpl
  | None => lit "https://www.google.com/search?q={query}"
  end.

(** The characters [quote] can produce: the always-safe ones and [%]. *)
Definition url_char (c : N) : Prop := always_safe c = true \/ c = 37%N.

(** What [load_sheet] needs in order to go through: an open workbook that
    holds the chosen sheet, and a column count openpyxl can label. *)
Definition can_load (st : State) (ws : worksheet) : Prop :=
  (exists book, wb st = Some book /\ sheet_by_name (sheet_var st) book = Some ws)
  /\ (N.of_nat (default 0%nat (max_column ws)) <= 18278)%N.

(** The number of columns [load_sheet] keeps. *)
Definition kept_columns (ws : worksheet) : nat :=
  trim_last_col (cell_rows ws) (default 0 (max_column ws)).


(** ** A small workbook and session used as concrete inputs *)

(** Five columns, of which [D] and [E] are blank and [C] is not. *)
Definition demo_sheet : worksheet :=
  {| max_column := Some 5;
     cell_rows :=
       [ [lit "apple"; lit "red"; []; []; []];
         [lit "Banana"; lit "b"; lit "ripe"; []; []];
         [lit "cherry"; []; []; []; []] ] |}.

Definition demo_book : workbook := [(lit "Sheet1", demo_sheet)].

(** The session before any file is opened, with the built-in engines. *)
Definition demo_start : State := init [] None None.

(** The file was opened and column [C] of the first row right-clicked. *)
Definition demo_session : State :=
  run (R := ascii_runtime) demo_start
    [OpenFile demo_book; RightClick (Some 0) (lit "#3")].

(** The same sheet is chosen again in the sheet box. *)
Definition demo_reloaded : State :=
  handle (R := ascii_runtime) demo_session (SheetSelected (lit "Sheet1")).

(** [r[0]], the row-number cell of a row. *)
Definition row_number (r : row) : str := default [] (r !! 0).

(** Every row carries its 1-based position as its row number. *)
Definition numbered (rows : list row) : Prop :=
  forall i r, rows !! i = Some r -> r !! 0 = Some (str_of_nat (S i)).

(** What every handler keeps true of the two row lists. *)
Definition rows_inv (st : State) : Prop :=
  numbered (rows_all st) /\ rows_view st ⊆+ rows_all st.

(** [p] occurs in [s]. *)
Definition occurs_in (p s : str) : Prop := exists pre post, s = pre ++ p ++ post.

Definition is_ascii_digit (c : N) : bool := ((48 <=? c) && (c <=? 57))%N.

(** Two facts about [str.lower()] the filter relies on: only the empty
    string lowers to the empty string, and leading ASCII digits are left
    as they are, whatever follows them. *)
Definition lower_keeps_empty `{R : Runtime} : Prop :=
  forall s, lower s = [] <-> s = [].

Definition lower_keeps_digits `{R : Runtime} : Prop :=
  forall d s, Forall (fun c => is_ascii_digit c = true) d ->
              lower (d ++ s) = d ++ lower s.

(** The demo session filtered by ["2"], which no data cell holds. *)
Definition demo_filtered : State :=
  handle (R := ascii_runtime) demo_session (FilterKeyRelease (lit " 2 ")).

(** The demo session filtered by ["A"] and sorted on column [A] twice. *)
Definition demo_view : State :=
  run (R := ascii_runtime) demo_session
    [FilterKeyRelease (lit "A"); HeadingClick 1; HeadingClick 1].

(** The elements of [l] whose key is [k], in their order in [l]. *)
Definition with_key {A K : Type} `{EqDecision K} (key : A -> K) (k : K)
    (l : list A) : list A :=
  List.filter (fun x => bool_decide (key x = k)) l.

(** [a] stands somewhere before [b] in [l]. *)
Definition before {A : Type} (l : list A) (a b : A) : Prop := sublist [a; b] l.

(** The key [sort_by_column] compares rows by: an integer for column 0, a
    string for any other column. *)
Inductive sort_key_t :=
  | IntKey (z : Z)
  | StrKey (s : str).

Global Instance sort_key_eq_dec : EqDecision sort_key_t.
Proof. solve_decision. Defined.

Definition sort_key `{R : Runtime} (col_index : nat) (r : row) : sort_key_t :=
  match col_index with
  | O => IntKey (key_int r)
  | S _ => StrKey (key_str col_index r)
  end.

(** The order of the keys; one sort never compares an integer with a
    string. *)
Definition key_leb (a b : sort_key_t) : bool :=
  match a, b with
  | IntKey x, IntKey y => (x <=? y)%Z
  | StrKey x, StrKey y => str_leb x y
  | IntKey _, StrKey _ => true
  | StrKey _, IntKey _ => false
  end.

(** [a] sorts no later than [b]. *)
Definition key_le {A K : Type} (leb : K -> K -> bool) (key : A -> K) (a b : A) : Prop :=
  leb (key a) (key b) = true.

(** The file was opened and the second row selected with a left click; no
    right click has happened. *)
Definition demo_selected : State :=
  run (R := ascii_runtime) demo_start [OpenFile demo_book; TreeSelect 1].

(** [f] holds of every number below [k]. *)
Definition all_below (k : nat) (f : N -> bool) : bool :=
  forallb f (List.map N.of_nat (seq 0 k)).

(** The characters of [s] that are not white space, in order. *)
Definition non_space (s : str) : str :=
  List.filter (fun c => negb (is_space c)) s.

(** The name and the template [load_engines] reads from a section. *)
Definition section_name (sec : ini_section) : str :=
  default (sec_name sec) (opt_name sec).

Definition section_url (sec : ini_section) : str :=
  default [] (opt_url sec).

Definition section_entry (sec : ini_section) : str * str :=
  (section_name sec, section_url sec).

(** The template of the last valid section named [n], if there is one. *)
Fixpoint last_valid_url (n : str) (sections : list ini_section) : option str :=
  match sections with
  | [] => None
  | sec :: rest =>
      match last_valid_url n rest with
      | Some u => Some u
      | None =>
          if has_placeholder sec && str_eqb n (section_name sec)
          then Some (section_url sec)
          else None
      end
  end.

(** What holds of the registry of every session. *)
Definition engines_inv (st : State) : Prop :=
  engines st <> [] /\ Forall entry_ok (engines st).

(** The sections [ensure_default_files] writes for the built-in engines. *)
Definition default_sections : list ini_section :=
  [ {| sec_name := lit "google"; opt_name := Some (lit "Google");
       opt_url := Some (lit "https://www.google.com/search?q={query}") |};
    {| sec_name := lit "bing"; opt_name := Some (lit "Bing");
       opt_url := Some (lit "https://www.bing.com/search?q={query}") |};
    {| sec_name := lit "duckduckgo"; opt_name := Some (lit "DuckDuckGo");
       opt_url := Some (lit "https://duckduckgo.com/?q={query}") |};
    {| sec_name := lit "perplexity"; opt_name := Some (lit "Perplexity");
       opt_url := Some (lit "https://www.perplexity.ai/search?q={query}") |} ].

(** The grid shows the view, and the selected item, if any, is one of its
    items. *)
Definition grid_inv (st : State) : Prop :=
  tree_items st = rows_view st
  /\ forall i, tree_selection st = Some i -> i < length (tree_items st).

(** Nothing is done by any of the commands that work on the selected
    cell. *)
Definition commands_idle (st : State) : Prop :=
  _get_selected_cell_text_raw st = []
  /\ copy_cell_text st = Nothing
  /\ show_full_text st = Nothing
  /\ copy_search_url st = Nothing
  /\ search_default_engine st = Nothing
  /\ search_alt_engine st = Nothing
  /\ (forall name, search_with_engine st name = ShowInfo)
  /\ status_cell_info st = None.

(** The second row of the demo sheet is selected, then a filter is typed. *)
Definition demo_selected_then_filtered : State :=
  handle (R := ascii_runtime) demo_selected (FilterKeyRelease (lit "an")).

(** A sheet whose only cell holds two spaces, opened and its row
    selected. *)
Definition blank_cell_session : State :=
  run (R := ascii_runtime) demo_start
    [ OpenFile [(lit "Sheet1",
                 {| max_column := Some 1; cell_rows := [[lit "  "]] |})];
      TreeSelect 0 ].

(** [int] reads back the row numbers of the session. *)
Definition reads_row_numbers `{R : Runtime} (st : State) : Prop :=
  forall n, n <= length (rows_all st) -> py_int (str_of_nat n) = Some (Z.of_nat n).

(** The demo session after a click on [A], a second click on [A], and then
    a click on [#]. *)
Definition demo_sorted_back : State :=
  run (R := ascii_runtime) demo_session
    [HeadingClick 1; HeadingClick 1; HeadingClick 0].

(** Every row has its row-number cell and no more cells than there are
    headers. *)
Definition shape_inv (st : State) : Prop :=
  Forall (fun r : row => 1 <= length r <= length (headers st)) (rows_all st).

(** The demo sheet with its rows in another order. *)
Definition demo_sheet_shuffled : worksheet :=
  {| max_column := Some 5;
     cell_rows :=
       [ [lit "cherry"; []; []; []; []];
         [lit "apple"; lit "red"; []; []; []];
         [lit "Banana"; lit "b"; lit "ripe"; []; []] ] |}.

(** The demo sheet with a row of no cells in front. *)
Definition demo_sheet_padded : worksheet :=
  {| max_column := Some 5; cell_rows := [] :: cell_rows demo_sheet |}.

(** The highlight window is not on screen after the call. *)
Definition overlay_off (o : overlay) : Prop :=
  match o with
  | Shown _ _ _ _ => False
  | _ => True
  end.

(** A text width for concrete inputs: seven pixels a character. *)
Definition demo_measure (s : str) : Z := (7 * Z.of_nat (length s))%Z.

(** The grid reports the same box for every cell. *)
Definition demo_bbox (item : nat) (column : Z) : option (Z * Z * Z * Z) :=
  Some (10, 20, 0, 18)%Z.

(** [ws] has the length of [widths] and is nowhere below it. *)
Definition widened (widths ws : list Z) : Prop :=
  length ws = length widths
  /\ forall j w0, widths !! j = Some w0 -> exists w, ws !! j = Some w /\ (w0 <= w)%Z.



(** ** Configuration files *)

(** What [cfg.get] finds under an option before any expansion, if
    anything. *)
Definition raw_option (cfg : ConfigParser) (section opt : str) : option str :=
  match _unify_values cfg section with
  | Some d => chain_get opt d
  | None => None
  end.

(** A section with its [name] and [url] as the file has them. *)
Definition raw_section (cfg : ConfigParser) (sec : str) : ini_section :=
  {| sec_name := sec;
     opt_name := raw_option cfg sec (lit "name");
     opt_url := raw_option cfg sec (lit "url") |}.

(** A value, if there is one, without any [%]. *)
Definition percent_free (v : option str) : Prop :=
  forall s, v = Some s -> 37%N ∉ s.

Definition plain_section (sec : ini_section) : Prop :=
  percent_free (opt_name sec) /\ percent_free (opt_url sec).

Section Reading.
Context `{R : Runtime}.

(** [cfg.get(section, option, fallback=None)]: the expanded value, if the
    option is there. *)
Definition get_option (cfg : ConfigParser) (section opt : str)
    : result (option str) :=
  match _unify_values cfg section with
  | None => Returns None
  | Some d =>
      match chain_get opt d with
      | None => Returns None
      | Some value => v ← before_get value d; mret (Some v)
      end
  end.

(** The two values the loop of [load_engines] reads from a section. *)
Definition read_section (cfg : ConfigParser) (sec : str) : result ini_section :=
  name ← get_option cfg sec (lit "name");
  url ← get_option cfg sec (lit "url");
  mret {| sec_name := sec; opt_name := name; opt_url := url |}.

(** The same for every section in turn, up to the first exception. *)
Fixpoint read_sections (cfg : ConfigParser) (secs : list str)
    : result (list ini_section) :=
  match secs with
  | [] => Returns []
  | sec :: secs' =>
      s ← read_section cfg sec;
      ss ← read_sections cfg secs';
      mret (s :: ss)
  end.

End Reading.

(** A file with one engine whose template uses [%s] for the query. *)
Definition percent_s_file : ConfigParser :=
  {| _defaults := [];
     _sections :=
       [ (lit "mysite",
          [ (lit "name", lit "MySite");
            (lit "url", lit "https://example.com/search?q=%s") ]) ] |}.

(** The same file with the [%s] left out. *)
Definition no_placeholder_file : ConfigParser :=
  {| _defaults := [];
     _sections :=
       [ (lit "mysite",
          [ (lit "name", lit "MySite");
            (lit "url", lit "https://example.com/search?q=") ]) ] |}.

(** A valid template that carries a percent-encoded parameter. *)
Definition percent_encoded_file : ConfigParser :=
  {| _defaults := [];
     _sections :=
       [ (lit "mysite",
          [ (lit "name", lit "MySite");
            (lit "url", lit "https://example.com/?q={query}&ie=%E3%81%82") ]) ] |}.

(** A file that uses what interpolation offers: a shared [base] in
    [[DEFAULT]], an escaped [%%], and a section without placeholder. *)
Definition interpolated_file : ConfigParser :=
  {| _defaults := [(lit "base", lit "https://h")];
     _sections :=
       [ (lit "x", [(lit "url", lit "%(BASE)s/?q={query}&p=100%%")]);
         (lit "y", [(lit "name", lit "Y"); (lit "url", lit "nothing")]) ] |}.

(** The file [ensure_default_files] writes for the built-in engines. *)
Definition default_file : ConfigParser :=
  {| _defaults := [];
     _sections :=
       List.map (fun e : str * str =>
                   (lower (Runtime := ascii_runtime) e.1,
                    [(lit "name", e.1); (lit "url", e.2)]))
                DEFAULT_ENGINES |}.

(** A [config.ini] naming an alternative engine no file registers. *)
Definition unknown_alt_config : ConfigParser :=
  {| _defaults := [];
     _sections := [(lit "general", [(lit "alt_engine", lit "Nope")])] |}.

(** A [config.ini] whose alternative engine holds a bare [%]. *)
Definition percent_alt_config : ConfigParser :=
  {| _defaults := [];
     _sections := [(lit "general", [(lit "alt_engine", lit "100%")])] |}.

(** The exceptions [cfg.get] raises on a value it cannot expand. *)
Definition interpolation_error (e : exn) : Prop :=
  e = InterpolationSyntaxError
  \/ e = InterpolationMissingOptionError
  \/ e = InterpolationDepthError.

(** The [cfg.get] of [_alt_engine]. *)
Definition alt_engine_value `{R : Runtime} (cfg : ConfigParser) : result str :=
  get cfg (lit "general") (lit "alt_engine") (lit "Perplexity").

(** A session started with [Nope] configured as the alternative engine. *)
Definition unknown_alt_session : State := init [] None (Some (lit "Nope")).

(** * Properties *)

(** ** The query normaliser *)

Section Normalize.

(** Replacing a one-character string is a character-wise map. *)
Lemma replace_single (a b : N) (s : str) :
  replace [a] [b] s = List.map (fun c => if (a =? c)%N then b else c) s.
Proof.
  unfold replace. induction s as [|c s IH]; simpl; [reflexivity|].
  destruct (a =? c)%N; simpl; now rewrite IH.
Qed.


Lemma tidy_weaken (b : bool) (s : str) : tidy b s = true -> tidy false s = true.
Proof.
  destruct s as [|c s]; simpl; [easy|].
  destruct (is_space c); [|easy].
  destruct b; simpl; [|easy].
  rewrite andb_false_r. discriminate.
Qed.






Lemma lstrip_head (s : str) :
  match lstrip s with [] => True | c :: _ => is_space c = false end.
Proof.
  induction s as [|c s IH]; simpl; [exact I|].
  destruct (is_space c) eqn:Hc; [exact IH | exact Hc].
Qed.

Lemma rstrip_keeps_head (c : N) (s : str) :
  is_space c = false -> exists r, rstrip (c :: s) = c :: r.
Proof.
  intros Hc. simpl. destruct (rstrip s) as [|x r].
  - rewrite Hc. now exists [].
  - now exists (x :: r).
Qed.

Lemma lstrip_strip (s : str) : lstrip (strip s) = strip s.
Proof.
  unfold strip. pose proof (lstrip_head s) as H.
  destruct (lstrip s) as [|c t]; [reflexivity|].
  destruct (rstrip_keeps_head c t H) as [r ->]. simpl. now rewrite H.
Qed.





Lemma normalize_lstrip (s : str) : lstrip (normalize_query s) = normalize_query s.
Proof.
  destruct s as [|c s]; [reflexivity|]. unfold normalize_query. apply lstrip_strip.
Qed.


End Normalize.



(** ** The engine registry *)

Section Registry.

Lemma load_engines_step_invalid (engines : dict) (sec : ini_section) :
  has_placeholder sec = false -> load_engines_step engines sec = engines.
Proof. unfold has_placeholder, load_engines_step. now intros ->. Qed.

Lemma fold_step_filter (sections : list ini_section) (acc : dict) :
  fold_left load_engines_step sections acc
  = fold_left load_engines_step (List.filter has_placeholder sections) acc.
Proof.
  revert acc. induction sections as [|sec sections IH]; intros acc; simpl;
    [reflexivity|].
  destruct (has_placeholder sec) eqn:E; simpl.
  - apply IH.
  - rewrite load_engines_step_invalid by exact E. apply IH.
Qed.

Lemma dict_set_ok (k v : str) (d : dict) :
  contains placeholder v = true -> Forall entry_ok d -> Forall entry_ok (dict_set k v d).
Proof.
  intros Hv. induction 1 as [|[k' v'] d Hd Hrest IH]; simpl.
  - now repeat constructor.
  - destruct (str_eqb k k'); constructor; assumption.
Qed.

Lemma fold_step_ok (sections : list ini_section) (acc : dict) :
  Forall entry_ok acc -> Forall entry_ok (fold_left load_engines_step sections acc).
Proof.
  revert acc. induction sections as [|sec sections IH]; intros acc Hacc; simpl;
    [exact Hacc|].
  apply IH. unfold load_engines_step.
  destruct (contains placeholder (default [] (opt_url sec))) eqn:E; simpl;
    [now apply dict_set_ok | exact Hacc].
Qed.

Lemma default_engines_ok : Forall entry_ok DEFAULT_ENGINES.
Proof. repeat constructor. Qed.

End Registry.

(** The loop of [load_engines] on the values it has read: the registry is
    the one it would build without the sections whose [url] lacks the
    placeholder, every template in it holds the placeholder, with no valid
    section it is the four built-in engines, and it is never empty. *)
Theorem load_engines_drops_invalid :
  (forall sections,
      load_engines sections = load_engines (List.filter has_placeholder sections))
  /\ (forall sections,
      Forall entry_ok (load_engines sections))
  /\ (forall sections,
      List.filter has_placeholder sections = [] ->
      load_engines sections = DEFAULT_ENGINES)
  /\ (forall sections, load_engines sections <> [])
  /\ length DEFAULT_ENGINES = 4.
Proof.
  repeat split.
  - intros sections. unfold load_engines. now rewrite fold_step_filter.
  - intros sections. unfold load_engines.
    pose proof (fold_step_ok sections [] (Forall_nil_2 _)) as H.
    destruct (fold_left load_engines_step sections []);
      [apply default_engines_ok | exact H].
  - intros sections H. unfold load_engines. now rewrite fold_step_filter, H.
  - intros sections. unfold load_engines.
    now destruct (fold_left load_engines_step sections []).
Qed.

(** A file whose only section has a template without the placeholder. *)
Lemma load_engines_drops_invalid_witness :
  load_engines
    [ {| sec_name := lit "broken"; opt_name := Some (lit "Broken");
         opt_url := Some (lit "https://example.com/search?q=") |} ]
  = DEFAULT_ENGINES.
Proof.
  apply (proj1 (proj2 (proj2 load_engines_drops_invalid))). reflexivity.
Defined.

(** ** The search-URL builder *)

Section UrlBuilder.
Local Open Scope N_scope.

Lemma utf8_char_bytes (c : N) :
  is_scalar c = true ->
  exists bs, utf8_char c = Some bs /\ Forall (fun b => b < 256) bs.
Proof.
  unfold is_scalar, utf8_char. intros H.
  destruct (c <? 128) eqn:E1.
  { apply N.ltb_lt in E1. eexists; split; [reflexivity|]. repeat constructor. lia. }
  apply N.ltb_ge in E1.
  destruct (c <? 2048) eqn:E2.
  { apply N.ltb_lt in E2. eexists; split; [reflexivity|].
    assert (c / 64 < 32) by (apply N.Div0.div_lt_upper_bound; lia).
    assert (c mod 64 < 64) by (apply N.mod_lt; lia).
    repeat constructor; lia. }
  apply N.ltb_ge in E2.
  destruct (c <? 65536) eqn:E3.
  { apply N.ltb_lt in E3.
    destruct ((55296 <=? c) && (c <=? 57343)) eqn:E4.
    { apply andb_prop in E4 as [Ha Hb]. apply N.leb_le in Ha, Hb.
      apply orb_prop in H as [H|H].
      - apply N.ltb_lt in H. lia.
      - apply andb_prop in H as [H _]. apply N.ltb_lt in H. lia. }
    eexists; split; [reflexivity|].
    assert (c / 4096 < 16) by (apply N.Div0.div_lt_upper_bound; lia).
    assert ((c / 64) mod 64 < 64) by (apply N.mod_lt; lia).
    assert (c mod 64 < 64) by (apply N.mod_lt; lia).
    repeat constructor; lia. }
  apply N.ltb_ge in E3.
  assert (E5 : (c <? 1114112) = true).
  { apply orb_prop in H as [H|H].
    - apply N.ltb_lt in H. lia.
    - now apply andb_prop in H as [_ H]. }
  rewrite E5. apply N.ltb_lt in E5.
  eexists; split; [reflexivity|].
  assert (c / 262144 < 8) by (apply N.Div0.div_lt_upper_bound; lia).
  assert ((c / 4096) mod 64 < 64) by (apply N.mod_lt; lia).
  assert ((c / 64) mod 64 < 64) by (apply N.mod_lt; lia).
  assert (c mod 64 < 64) by (apply N.mod_lt; lia).
  repeat constructor; lia.
Qed.

Lemma utf8_encode_bytes (s : str) :
  Forall (fun c => is_scalar c = true) s ->
  exists bs, utf8_encode s = Some bs /\ Forall (fun b => b < 256) bs.
Proof.
  induction 1 as [|c s Hc _ [rest [Hrest Hlt]]]; simpl.
  - exists []. split; [reflexivity | constructor].
  - destruct (utf8_char_bytes c Hc) as [bs [Hbs Hb]].
    rewrite Hbs, Hrest. exists (bs ++ rest). split; [reflexivity|].
    apply Forall_app; now split.
Qed.

Lemma all_below_spec (k : nat) (f : N -> bool) (n : N) :
  all_below k f = true -> n < N.of_nat k -> f n = true.
Proof.
  unfold all_below. intros Hall Hn.
  rewrite forallb_forall in Hall. apply Hall.
  apply in_map_iff. exists (N.to_nat n). split; [apply N2Nat.id|].
  apply in_seq. lia.
Qed.

Lemma hex_digit_safe (n : N) : n < 16 -> always_safe (hex_digit n) = true.
Proof. now apply (all_below_spec 16 (fun m => always_safe (hex_digit m))). Qed.

Lemma hex_value_digit (n : N) : n < 16 -> hex_value (hex_digit n) = n.
Proof.
  intros H. apply N.eqb_eq.
  now apply (all_below_spec 16 (fun m => hex_value (hex_digit m) =? m)).
Qed.

Lemma always_safe_not_percent (b : N) : always_safe b = true -> (b =? 37) = false.
Proof.
  intros H. destruct (b =? 37) eqn:E; [|reflexivity].
  apply N.eqb_eq in E. subst b. discriminate.
Qed.

Lemma quote_byte_chars (b : N) : b < 256 -> Forall url_char (quote_byte b).
Proof.
  intros Hb. unfold quote_byte. destruct (always_safe b) eqn:E.
  - constructor; [now left | constructor].
  - assert (b / 16 < 16) by (apply N.Div0.div_lt_upper_bound; lia).
    assert (b mod 16 < 16) by (apply N.mod_lt; lia).
    constructor; [now right|].
    constructor; [left; now apply hex_digit_safe|].
    constructor; [left; now apply hex_digit_safe | constructor].
Qed.

Lemma quote_bytes_chars (bs : list N) :
  Forall (fun b => b < 256) bs -> Forall url_char (List.concat (List.map quote_byte bs)).
Proof.
  induction 1 as [|b bs Hb _ IH]; simpl; [constructor|].
  apply Forall_app. split; [now apply quote_byte_chars | exact IH].
Qed.

Lemma unquote_quote_bytes (bs : list N) :
  Forall (fun b => b < 256) bs ->
  unquote_bytes (List.concat (List.map quote_byte bs)) = bs.
Proof.
  induction 1 as [|b bs Hb _ IH]; simpl; [reflexivity|].
  unfold quote_byte at 1. destruct (always_safe b) eqn:E; simpl.
  - rewrite (always_safe_not_percent b E). now rewrite IH.
  - assert (b / 16 < 16) by (apply N.Div0.div_lt_upper_bound; lia).
    assert (b mod 16 < 16) by (apply N.mod_lt; lia).
    rewrite !hex_value_digit, IH by assumption.
    f_equal. symmetry. apply N.div_mod. lia.
Qed.

Lemma startswith_placeholder_other (c : N) (s : str) :
  c <> 123 -> startswith placeholder (c :: s) = false.
Proof.
  intros Hc. change placeholder with [123; 113; 117; 101; 114; 121; 125].
  cbn [startswith]. destruct (123 =? c) eqn:E; [|reflexivity].
  apply N.eqb_eq in E. congruence.
Qed.

Lemma replace_from_plain (new pre s : str) :
  Forall (fun c => c <> 123) pre ->
  replace_from placeholder new O (pre ++ s) = pre ++ replace_from placeholder new O s.
Proof.
  induction 1 as [|c pre Hc _ IH]; [reflexivity|].
  change ((c :: pre) ++ s) with (c :: (pre ++ s)).
  cbn [replace_from]. rewrite (startswith_placeholder_other c _ Hc).
  now rewrite IH.
Qed.

Lemma replace_from_at_placeholder (new s : str) :
  replace_from placeholder new O (placeholder ++ s)
  = new ++ replace_from placeholder new O s.
Proof.
  change placeholder with [123; 113; 117; 101; 114; 121; 125]. reflexivity.
Qed.

(** A template with one placeholder and no other brace gets the
    replacement exactly there. *)
Lemma replace_placeholder (new pre post : str) :
  Forall (fun c => c <> 123) pre -> Forall (fun c => c <> 123) post ->
  replace placeholder new (pre ++ placeholder ++ post) = pre ++ new ++ post.
Proof.
  intros Hpre Hpost.
  change (replace placeholder new (pre ++ placeholder ++ post))
    with (replace_from placeholder new O (pre ++ placeholder ++ post)).
  rewrite (replace_from_plain _ _ _ Hpre), replace_from_at_placeholder.
  rewrite <- (app_nil_r post) at 1.
  now rewrite (replace_from_plain _ _ _ Hpost), app_nil_r.
Qed.

Lemma quote_ok (query : str) :
  Forall (fun c => is_scalar c = true) query ->
  exists bs enc,
    utf8_encode query = Some bs /\ quote query = Some enc
    /\ Forall url_char enc /\ unquote_bytes enc = bs.
Proof.
  intros H. destruct (utf8_encode_bytes query H) as [bs [Hbs Hlt]].
  exists bs, (List.concat (List.map quote_byte bs)). unfold quote. rewrite Hbs.
  repeat split; [now apply quote_bytes_chars | now apply unquote_quote_bytes].
Qed.

End UrlBuilder.

(** C7. For every session (hence every registry), engine name and query
    of Unicode scalar values, [_make_search_url] returns the template of
    the named engine, or the Google template when the name is not in the
    registry, with the placeholder replaced by the percent-encoding of the
    query's UTF-8 bytes: the encoding holds only letters, digits, [_.-~] and
    [%] (so every reserved character, [/] [?] [&] [=] [+] and the space
    included, is encoded) and decodes back to those bytes.  With the Google
    template, ["hello world"] yields
    [https://www.google.com/search?q=hello%20world]. *)
Theorem make_search_url_percent_encodes :
  (forall (st : State) (engine_name query : str),
      Forall (fun c => is_scalar c = true) query ->
      exists bs enc,
        utf8_encode query = Some bs /\ quote query = Some enc
        /\ Forall url_char enc /\ unquote_bytes enc = bs
        /\ _make_search_url st engine_name query
           = Some (replace placeholder enc (template_for st engine_name))
        /\ (dict_get engine_name (engines st) = None ->
            _make_search_url st engine_name query
            = Some (lit "https://www.google.com/search?q=" ++ enc))
        /\ (forall pre post,
              template_for st engine_name = pre ++ placeholder ++ post ->
              Forall (fun c => c <> 123%N) pre -> Forall (fun c => c <> 123%N) post ->
              _make_search_url st engine_name query = Some (pre ++ enc ++ post)))
  /\ (forall st : State,
      dict_get (lit "Google") (engines st)
      = Some (lit "https://www.google.com/search?q={query}") ->
      _make_search_url st (lit "Google") (lit "hello world")
      = Some (lit "https://www.google.com/search?q=hello%20world")).
Proof.
  split.
  - intros st engine_name query Hq.
    destruct (quote_ok query Hq) as [bs [enc [Hbs [Henc [Hchars Hdec]]]]].
    exists bs, enc.
    assert (Hurl : _make_search_url st engine_name query
                   = Some (replace placeholder enc (template_for st engine_name))).
    { unfold _make_search_url, template_for. rewrite Henc.
      now destruct (dict_get engine_name (engines st)). }
    repeat split; try assumption.
    + intros Hnone. rewrite Hurl. unfold template_for. rewrite Hnone.
      f_equal.
      change (lit "https://www.google.com/search?q={query}")
        with (lit "https://www.google.com/search?q=" ++ placeholder ++ []).
      rewrite <- (app_nil_r enc) at 2.
      apply (replace_placeholder enc (lit "https://www.google.com/search?q=") []).
      * vm_compute.
        repeat (apply List.Forall_cons; [discriminate|]). apply List.Forall_nil.
      * constructor.
    + intros pre post Htpl Hpre Hpost. rewrite Hurl, Htpl.
      f_equal. now apply replace_placeholder.
  - intros st Hg. unfold _make_search_url. now rewrite Hg.
Qed.

(** The built-in registry, the engine [Bing] and a query with reserved
    characters. *)
Lemma make_search_url_percent_encodes_witness :
  Forall (fun c => is_scalar c = true) (lit "a/b c?")
  /\ _make_search_url (init [] None None) (lit "Bing") (lit "a/b c?")
     = Some (lit "https://www.bing.com/search?q=a%2Fb%20c%3F")
  /\ _make_search_url (init [] None None) (lit "Google") (lit "hello world")
     = Some (lit "https://www.google.com/search?q=hello%20world").
Proof.
  assert (Hq : Forall (fun c => is_scalar c = true) (lit "a/b c?"))
    by (repeat constructor).
  split; [exact Hq|]. split.
  - destruct (proj1 make_search_url_percent_encodes
                (init [] None None) (lit "Bing") (lit "a/b c?") Hq)
      as [bs [enc [_ [Henc [_ [_ [Hurl _]]]]]]].
    rewrite Hurl. vm_compute in Henc. injection Henc as <-. reflexivity.
  - apply (proj2 make_search_url_percent_encodes). reflexivity.
Defined.

(** ** Sheet load *)

Section Load.

Lemma col_empty_spec (values : list row) (ci : nat) :
  col_empty values ci = true <->
  Forall (fun r : row => r !! ci = None \/ r !! ci = Some []) values.
Proof.
  induction values as [|r values IH]; simpl.
  - split; [constructor | reflexivity].
  - destruct (r !! ci) as [[|c cell]|] eqn:E.
    + rewrite IH. split; [intros H; constructor; auto | now inversion 1].
    + split; [discriminate|]. inversion 1 as [|? ? [Hr|Hr] _]; congruence.
    + rewrite IH. split; [intros H; constructor; auto | now inversion 1].
Qed.

Lemma trim_last_col_le (values : list row) (n : nat) :
  trim_last_col values n <= n.
Proof.
  induction n as [|n IH]; simpl; [lia|].
  destruct (col_empty values n); lia.
Qed.



Lemma column_labels_some (cols : list nat) :
  Forall (fun i => 1 <= i /\ (N.of_nat i <= 18278)%N) cols ->
  exists labels, column_labels cols = Some labels /\ length labels = length cols.
Proof.
  induction 1 as [|i cols [H1 H2] _ [labels [Hl Hlen]]]; simpl.
  - now exists [].
  - unfold get_column_letter.
    apply Nat.leb_le in H1. apply N.leb_le in H2. rewrite H1, H2. simpl.
    rewrite Hl. eexists. split; [reflexivity|]. simpl. now rewrite Hlen.
Qed.

Lemma column_labels_upto (k : nat) :
  (N.of_nat k <= 18278)%N ->
  exists labels, column_labels (seq 1 k) = Some labels /\ length labels = k.
Proof.
  intros Hk.
  destruct (column_labels_some (seq 1 k)) as [labels [Hl Hlen]].
  - apply Forall_forall. intros i Hi. apply elem_of_seq in Hi. lia.
  - exists labels. now rewrite length_seq in Hlen.
Qed.

Lemma load_sheet_loaded (st : State) (ws : worksheet) :
  can_load st ws ->
  exists labels st',
    column_labels (seq 1 (kept_columns ws)) = Some labels
    /\ length labels = kept_columns ws
    /\ load_sheet st = Some st'
    /\ headers st' = lit "#" :: labels
    /\ rows_all st' = number_rows 1 (List.map (take (kept_columns ws)) (cell_rows ws))
    /\ rows_view st' = rows_all st'
    /\ filter_var st' = []
    /\ _sort_state st' = ∅
    /\ tree_selection st' = None
    /\ tree_items st' = rows_all st'
    /\ _rc_col_index st' = _rc_col_index st
    /\ engines st' = engines st.
Proof.
  intros [[book [Hwb Hws]] Hmax].
  destruct (column_labels_upto (kept_columns ws)) as [labels [Hl Hlen]].
  { pose proof (trim_last_col_le (cell_rows ws) (default 0 (max_column ws))).
    unfold kept_columns. lia. }
  exists labels. eexists. split; [exact Hl|]. split; [exact Hlen|].
  unfold load_sheet. rewrite Hwb, Hws. fold (kept_columns ws). rewrite Hl.
  split; [reflexivity|]. simpl. repeat split; reflexivity.
Qed.

End Load.


Lemma demo_can_load : can_load (set_sheet (Some demo_book) (lit "Sheet1") demo_start) demo_sheet.
Proof.
  split; [exists demo_book; split; reflexivity | vm_compute; discriminate].
Qed.



(** C4, as the code has it.  A sheet load that goes through makes
    [rows_view] equal to [rows_all], empties the sort state and the filter
    text, and empties the row selection (the items are rebuilt, so no
    values are selected); the column reference [_rc_col_index] is not
    touched and keeps the value it had before the load. *)
Theorem load_sheet_resets_view (st : State) (ws : worksheet) :
  can_load st ws ->
  exists st',
    load_sheet st = Some st'
    /\ rows_view st' = rows_all st'
    /\ _sort_state st' = ∅
    /\ filter_var st' = []
    /\ tree_selection st' = None
    /\ _get_selected_values st' = []
    /\ _rc_col_index st' = _rc_col_index st.
Proof.
  intros Hcan.
  destruct (load_sheet_loaded st ws Hcan)
    as (labels & st' & _ & _ & Hload & _ & _ & Hview & Hf & Hs & Hsel & _ & Hrc & _).
  exists st'. repeat (split; [assumption|]). split; [|exact Hrc].
  unfold _get_selected_values. now rewrite Hsel.
Qed.

Lemma load_sheet_resets_view_witness :
  can_load (set_sheet (Some demo_book) (lit "Sheet1") demo_start) demo_sheet
  /\ exists st',
      load_sheet (set_sheet (Some demo_book) (lit "Sheet1") demo_start) = Some st'
      /\ rows_view st' = rows_all st' /\ _sort_state st' = ∅
      /\ _rc_col_index st' = None.
Proof.
  split; [exact demo_can_load|].
  destruct (load_sheet_resets_view _ _ demo_can_load)
    as (st' & Hload & Hview & Hs & _ & _ & _ & Hrc).
  exists st'. repeat (split; [assumption|]). rewrite Hrc. reflexivity.
Defined.

(** The column reference set by a right click on column [C] is still there
    after the sheet is loaded again, and the next row selected is read in
    that column, not in column 1. *)
Lemma load_sheet_keeps_column_reference :
  _rc_col_index demo_session = Some 2%Z
  /\ load_sheet (set_sheet None (lit "Sheet1") demo_session) = Some demo_reloaded
  /\ rows_view demo_reloaded = rows_all demo_reloaded
  /\ _rc_col_index demo_reloaded = Some 2%Z
  /\ _get_selected_cell_text_raw
       (handle (R := ascii_runtime) demo_reloaded (TreeSelect 1))
     = lit "b".
Proof. repeat split; vm_compute; reflexivity. Qed.

(** ** Python built-ins *)

Section Builtins.

Lemma lit_inj (a b : string) : lit a = lit b -> a = b.
Proof.
  unfold lit. intros H.
  rewrite <- (string_of_list_ascii_of_string a), <- (string_of_list_ascii_of_string b).
  f_equal. revert H. generalize (list_ascii_of_string a) (list_ascii_of_string b).
  induction l as [|x l IH]; intros [|y l']; simpl; try discriminate; [reflexivity|].
  intros H. injection H as Hxy Hl. f_equal; [|now apply IH].
  rewrite <- (ascii_N_embedding x), <- (ascii_N_embedding y). now rewrite Hxy.
Qed.

Lemma to_uint_not_nil (n : nat) : Nat.to_uint n <> Decimal.Nil.
Proof.
  intros H. pose proof (DecimalNat.Unsigned.to_of (Nat.to_uint n)) as E.
  rewrite DecimalNat.Unsigned.of_to in E. rewrite H in E at 2.
  rewrite H in E. discriminate.
Qed.

Lemma str_of_nat_inj (n m : nat) : str_of_nat n = str_of_nat m -> n = m.
Proof.
  unfold str_of_nat. intros H. apply lit_inj in H.
  assert (E : Some (Nat.to_uint n) = Some (Nat.to_uint m)).
  { rewrite <- (NilZero.usu _ (to_uint_not_nil n)), <- (NilZero.usu _ (to_uint_not_nil m)).
    now rewrite H. }
  injection E as E.
  rewrite <- (DecimalNat.Unsigned.of_to n), <- (DecimalNat.Unsigned.of_to m).
  now rewrite E.
Qed.

Lemma filter_sublist {A} (f : A -> bool) (l : list A) : sublist (List.filter f l) l.
Proof.
  induction l as [|x l IH]; simpl; [constructor|].
  destruct (f x); now constructor.
Qed.

Lemma filter_rev {A} (f : A -> bool) (l : list A) :
  List.filter f (rev l) = rev (List.filter f l).
Proof.
  induction l as [|x l IH]; simpl; [reflexivity|].
  rewrite List.filter_app, IH. simpl. destruct (f x); simpl;
    [reflexivity | apply app_nil_r].
Qed.

Lemma submseteq_NoDup {A} (l k : list A) : l ⊆+ k -> NoDup k -> NoDup l.
Proof.
  intros Hs Hk. apply submseteq_Permutation in Hs as [k' Hk'].
  rewrite Hk' in Hk. now apply NoDup_app in Hk as [Hl _].
Qed.

End Builtins.

(** ** Sorting *)

Section SortFacts.
Context {A K : Type} (leb : K -> K -> bool) (key : A -> K).

Lemma insert_by_perm (x : A) (l : list A) : insert_by leb key x l ≡ₚ x :: l.
Proof.
  induction l as [|y l IH]; simpl; [reflexivity|].
  destruct (leb (key x) (key y)); [reflexivity|].
  rewrite IH. apply Permutation_swap.
Qed.

Lemma stable_sort_perm (l : list A) : stable_sort leb key l ≡ₚ l.
Proof.
  induction l as [|x l IH]; simpl; [reflexivity|].
  now rewrite insert_by_perm, IH.
Qed.

Lemma list_sort_perm (reverse : bool) (l : list A) :
  list_sort leb key reverse l ≡ₚ l.
Proof.
  unfold list_sort. destruct reverse; [|apply stable_sort_perm].
  rewrite <- Permutation_rev, stable_sort_perm. symmetry. apply Permutation_rev.
Qed.

End SortFacts.

(** ** Row identity *)

Section RowIdentity.
Context {R : Runtime}.

Lemma number_rows_lookup (values : list row) (i j : nat) (r : row) :
  number_rows i values !! j = Some r -> r !! 0 = Some (str_of_nat (i + j)).
Proof.
  revert i j. induction values as [|v values IH]; intros i j; simpl; [easy|].
  destruct j as [|j]; simpl.
  - intros [= <-]. simpl. now rewrite Nat.add_0_r.
  - intros H. apply IH in H. now rewrite Nat.add_succ_r.
Qed.

Lemma number_rows_numbered (values : list row) : numbered (number_rows 1 values).
Proof. intros i r H. now apply number_rows_lookup in H. Qed.

Lemma numbered_NoDup (rows : list row) :
  numbered rows -> NoDup (row_number <$> rows).
Proof.
  intros Hn. apply NoDup_alt. intros i j x Hi Hj.
  apply list_lookup_fmap_Some in Hi as (ri & -> & Hi).
  apply list_lookup_fmap_Some in Hj as (rj & Hx & Hj).
  unfold row_number in Hx.
  rewrite (Hn _ _ Hi), (Hn _ _ Hj) in Hx. simpl in Hx.
  apply str_of_nat_inj in Hx. lia.
Qed.

Lemma load_sheet_inv (st st' : State) :
  rows_inv st -> load_sheet st = Some st' -> rows_inv st'.
Proof.
  intros Hinv. unfold load_sheet.
  destruct (wb st) as [book|]; [|now intros [= <-]].
  destruct (sheet_by_name (sheet_var st) book) as [ws|]; [|discriminate].
  destruct (column_labels _) as [labels|]; [|discriminate].
  intros [= <-]. split; simpl; [apply number_rows_numbered | reflexivity].
Qed.

Lemma set_sheet_inv (book : option workbook) (name : str) (st : State) :
  rows_inv st -> rows_inv (set_sheet book name st).
Proof. intros H. exact H. Qed.

Lemma apply_filter_inv (text : str) (st : State) :
  rows_inv st -> rows_inv (apply_filter (set_filter_var text st)).
Proof.
  intros [Hn _]. split; simpl; [exact Hn|].
  destruct (lower (strip text)); [reflexivity|].
  apply sublist_submseteq, filter_sublist.
Qed.

Lemma sort_rows_perm (c : nat) (asc : bool) (rows : list row) :
  sort_rows c asc rows ≡ₚ rows.
Proof. destruct c; apply list_sort_perm. Qed.

Lemma sort_by_column_inv (c : nat) (st : State) :
  rows_inv st -> rows_inv (sort_by_column c st).
Proof.
  intros [Hn Hv]. unfold sort_by_column.
  destruct (rows_view st) as [|r rows] eqn:E; [now split; [|rewrite E]|].
  split; simpl; [exact Hn|]. now rewrite sort_rows_perm.
Qed.

Lemma handle_inv (st : State) (e : event) : rows_inv st -> rows_inv (handle st e).
Proof.
  intros Hinv. destruct e as [book|name|text| |c|i|row_id col_id|name]; simpl.
  - destruct (load_sheet _) as [st'|] eqn:E; simpl;
      [eapply load_sheet_inv; [|exact E] |]; now apply set_sheet_inv.
  - destruct (load_sheet _) as [st'|] eqn:E; simpl;
      [eapply load_sheet_inv; [|exact E] |]; now apply set_sheet_inv.
  - now apply apply_filter_inv.
  - now apply (apply_filter_inv []).
  - now apply sort_by_column_inv.
  - now destruct (Nat.ltb _ _).
  - destruct row_id as [i|]; [|exact Hinv].
    destruct (Nat.ltb _ _); [|exact Hinv].
    unfold on_right_click. now destruct col_id.
  - exact Hinv.
Qed.

Lemma reachable_inv (st : State) : reachable st -> rows_inv st.
Proof.
  induction 1 as [sections de ae | st e _ IH].
  - split; simpl; [intros i r H; now rewrite lookup_nil in H | reflexivity].
  - now apply handle_inv.
Qed.

End RowIdentity.

(** C1. In every session the viewer can reach, each row of [rows_all]
    carries its own 1-based position as row number, the row numbers of
    [rows_all] are pairwise different, and [rows_view] is a permutation of
    a sublist of [rows_all]: each row shown is a row of [rows_all], with the
    row number of its position there, and no row number is shown twice. *)
Theorem row_numbers_preserved `{R : Runtime} (st : State) :
  reachable st ->
  (forall i r, rows_all st !! i = Some r -> r !! 0 = Some (str_of_nat (S i)))
  /\ NoDup (row_number <$> rows_all st)
  /\ rows_view st ⊆+ rows_all st
  /\ (forall r, r ∈ rows_view st ->
        exists i, rows_all st !! i = Some r /\ row_number r = str_of_nat (S i))
  /\ NoDup (row_number <$> rows_view st).
Proof.
  intros Hreach. destruct (reachable_inv st Hreach) as [Hn Hv].
  pose proof (numbered_NoDup _ Hn) as Hnd.
  split; [exact Hn|]. split; [exact Hnd|]. split; [exact Hv|]. split.
  - intros r Hr. apply (elem_of_submseteq _ _ _ Hr) in Hv.
    apply list_elem_of_lookup in Hv as [i Hi]. exists i. split; [exact Hi|].
    unfold row_number. now rewrite (Hn _ _ Hi).
  - eapply submseteq_NoDup; [|exact Hnd]. now apply fmap_submseteq.
Qed.

Lemma run_reachable `{R : Runtime} (st : State) (es : list event) :
  reachable st -> reachable (run st es).
Proof.
  revert st. induction es as [|e es IH]; intros st H; simpl; [exact H|].
  apply IH. now constructor.
Qed.

Lemma demo_session_reachable : reachable (R := ascii_runtime) demo_session.
Proof. apply run_reachable. constructor. Qed.

Lemma row_numbers_preserved_witness :
  reachable (R := ascii_runtime) demo_view
  /\ rows_view demo_view ⊆+ rows_all demo_view
  /\ NoDup (row_number <$> rows_view demo_view)
  /\ row_number <$> rows_view demo_view = [lit "2"; lit "1"].
Proof.
  assert (H : reachable (R := ascii_runtime) demo_view)
    by (apply run_reachable, demo_session_reachable).
  split; [exact H|].
  destruct (row_numbers_preserved (R := ascii_runtime) demo_view H)
    as (_ & _ & Hv & _ & Hnd).
  split; [exact Hv|]. split; [exact Hnd|]. reflexivity.
Defined.

(** ** Filter *)

Section Filter.
Context {R : Runtime}.

Lemma startswith_spec (p s : str) :
  startswith p s = true <-> exists post, s = p ++ post.
Proof.
  revert s. induction p as [|a p IH]; intros s; simpl.
  - split; [intros _; now exists s | reflexivity].
  - destruct s as [|b s].
    + split; [discriminate | intros [post [=]]].
    + rewrite andb_true_iff, N.eqb_eq, IH. split.
      * intros [-> [post ->]]. now exists post.
      * intros [post [= -> ->]]. split; [reflexivity | now exists post].
Qed.

Lemma contains_spec (p s : str) : contains p s = true <-> occurs_in p s.
Proof.
  unfold occurs_in. induction s as [|c s IH]; simpl.
  - rewrite orb_false_r, startswith_spec. split.
    + intros [post H]. now exists [], post.
    + intros [pre [post H]]. destruct pre; simpl in H.
      * now exists post.
      * discriminate.
  - rewrite orb_true_iff, startswith_spec, IH. split.
    + intros [[post H]|[pre [post H]]].
      * now exists [], post.
      * exists (c :: pre), post. simpl. now rewrite H.
    + intros [[|c' pre] [post H]]; simpl in H.
      * left. now exists post.
      * right. injection H as -> ->. now exists pre, post.
Qed.

Lemma elem_of_filter_bool {A} (f : A -> bool) (l : list A) (x : A) :
  x ∈ List.filter f l <-> x ∈ l /\ f x = true.
Proof. rewrite !list_elem_of_In. apply List.filter_In. Qed.

Lemma apply_filter_blank (st : State) (text : str) :
  lower_keeps_empty -> strip text = [] ->
  rows_view (apply_filter (set_filter_var text st)) = rows_all st.
Proof.
  intros Hl Hs. simpl. rewrite Hs. now rewrite (proj2 (Hl []) eq_refl).
Qed.

Lemma apply_filter_query (st : State) (text : str) :
  lower_keeps_empty -> strip text <> [] ->
  rows_view (apply_filter (set_filter_var text st))
  = List.filter (row_matches (lower (strip text))) (rows_all st).
Proof.
  intros Hl Hs. simpl. destruct (lower (strip text)) eqn:E; [|reflexivity].
  apply (proj1 (Hl _)) in E. exfalso. apply Hs. exact E.
Qed.

End Filter.

(** C2. Filtering leaves [rows_all] alone and makes [rows_view] a sublist
    of it (so the rows kept come in the order of [rows_all]).  With a text
    that is empty after trimming [rows_view] equals [rows_all]; otherwise a
    row is in [rows_view] exactly when it is in [rows_all] and the
    lower-cased trimmed text occurs in the lower-cased tab-joined row. *)
Theorem apply_filter_keeps_matching_rows `{R : Runtime} (st : State) (text : str) :
  lower_keeps_empty ->
  rows_all (apply_filter (set_filter_var text st)) = rows_all st
  /\ sublist (rows_view (apply_filter (set_filter_var text st))) (rows_all st)
  /\ (strip text = [] ->
      rows_view (apply_filter (set_filter_var text st)) = rows_all st)
  /\ (strip text <> [] ->
      rows_view (apply_filter (set_filter_var text st))
      = List.filter (fun r => contains (lower (strip text)) (lower (join [9%N] r)))
          (rows_all st)
      /\ forall r,
          r ∈ rows_view (apply_filter (set_filter_var text st)) <->
          r ∈ rows_all st
          /\ occurs_in (lower (strip text)) (lower (join [9%N] r))).
Proof.
  intros Hl. split; [reflexivity|]. split.
  { simpl. destruct (lower (strip text)); [reflexivity | apply filter_sublist]. }
  split; [now apply apply_filter_blank|].
  intros Hs. rewrite (apply_filter_query st text Hl Hs).
  split; [reflexivity|]. intros r.
  rewrite elem_of_filter_bool. unfold row_matches. now rewrite contains_spec.
Qed.

Lemma ascii_lower_keeps_empty : lower_keeps_empty (R := ascii_runtime).
Proof.
  intros s. simpl. split; [|now intros ->].
  now destruct s.
Qed.

Lemma ascii_lower_keeps_digits : lower_keeps_digits (R := ascii_runtime).
Proof.
  intros d s Hd. simpl. rewrite List.map_app. f_equal.
  induction Hd as [|c d Hc _ IH]; simpl; [reflexivity|]. rewrite IH. f_equal.
  unfold is_ascii_digit in Hc. unfold ascii_lower_char.
  apply andb_prop in Hc as [_ Hc]. apply N.leb_le in Hc.
  destruct (65 <=? c)%N eqn:E; [|reflexivity].
  apply N.leb_le in E. lia.
Qed.

(** The demo session filtered by [" AN "] and by a blank text. *)
Lemma apply_filter_keeps_matching_rows_witness :
  lower_keeps_empty (R := ascii_runtime)
  /\ rows_view (apply_filter (R := ascii_runtime) (set_filter_var (lit " AN ") demo_session))
     = [[lit "2"; lit "Banana"; lit "b"; lit "ripe"]]
  /\ rows_view (apply_filter (R := ascii_runtime) (set_filter_var (lit "  ") demo_session))
     = rows_all demo_session.
Proof.
  split; [exact ascii_lower_keeps_empty|].
  destruct (apply_filter_keeps_matching_rows (R := ascii_runtime)
              demo_session (lit " AN ") ascii_lower_keeps_empty)
    as (_ & _ & _ & Hq).
  destruct (apply_filter_keeps_matching_rows (R := ascii_runtime)
              demo_session (lit "  ") ascii_lower_keeps_empty)
    as (_ & _ & Hb & _).
  split.
  - destruct Hq as [-> _]; [discriminate | reflexivity].
  - apply Hb. reflexivity.
Defined.

(** ** Matching on the row number *)

Section RowNumberMatch.
Context {R : Runtime}.

Lemma uint_digits (d : Decimal.uint) :
  Forall (fun c => is_ascii_digit c = true) (lit (NilEmpty.string_of_uint d)).
Proof. induction d; simpl; constructor; (reflexivity || assumption). Qed.

Lemma str_of_nat_digits (n : nat) :
  Forall (fun c => is_ascii_digit c = true) (str_of_nat n).
Proof.
  unfold str_of_nat, NilZero.string_of_uint.
  destruct (Nat.to_uint n) eqn:E; try (rewrite <- E; apply uint_digits).
  repeat constructor.
Qed.

Lemma join_cons (sep p : str) (ps : list str) :
  exists rest, join sep (p :: ps) = p ++ rest.
Proof.
  destruct ps as [|p' ps]; simpl.
  - exists []. now rewrite app_nil_r.
  - eexists. reflexivity.
Qed.

Lemma lower_digits_id (d : str) :
  lower_keeps_empty -> lower_keeps_digits ->
  Forall (fun c => is_ascii_digit c = true) d -> lower d = d.
Proof.
  intros He Hd Hdig. rewrite <- (app_nil_r d) at 1.
  rewrite (Hd d [] Hdig), (proj2 (He []) eq_refl). apply app_nil_r.
Qed.

Lemma row_matches_number (q n : str) (cells : list str) :
  lower_keeps_empty -> lower_keeps_digits ->
  Forall (fun c => is_ascii_digit c = true) n -> occurs_in q n ->
  row_matches (lower q) (n :: cells) = true.
Proof.
  intros He Hd Hn [pre [post Hq]]. unfold row_matches. apply contains_spec.
  destruct (join_cons [9%N] n cells) as [rest ->].
  rewrite (Hd n rest Hn).
  assert (Hdq : Forall (fun c => is_ascii_digit c = true) q).
  { rewrite Hq in Hn. apply Forall_app in Hn as [_ Hn].
    now apply Forall_app in Hn as [Hn _]. }
  rewrite (lower_digits_id q He Hd Hdq).
  exists pre, (post ++ lower rest). rewrite Hq at 1.
  now rewrite <- !app_assoc.
Qed.

End RowNumberMatch.

(** C9. In every reachable session and for every filter text that is not
    blank, a row whose row number holds the trimmed text is kept by the
    filter, whatever its other cells hold: the tab-joined row starts with
    the row-number cell. *)
Theorem filter_matches_row_number `{R : Runtime}
    (st : State) (text : str) (i : nat) (r : row) :
  lower_keeps_empty -> lower_keeps_digits ->
  reachable st ->
  rows_all st !! i = Some r ->
  strip text <> [] ->
  occurs_in (strip text) (str_of_nat (S i)) ->
  row_number r = str_of_nat (S i)
  /\ r ∈ rows_view (apply_filter (set_filter_var text st)).
Proof.
  intros He Hd Hreach Hi Hs Hocc.
  destruct (reachable_inv st Hreach) as [Hn _].
  pose proof (Hn _ _ Hi) as H0.
  destruct r as [|n cells]; [discriminate|]. simpl in H0. injection H0 as ->.
  split; [reflexivity|].
  rewrite (apply_filter_query st text He Hs). apply elem_of_filter_bool.
  split; [eapply list_elem_of_lookup_2; exact Hi|].
  apply row_matches_number; auto using str_of_nat_digits.
Qed.

(** The demo sheet holds no [2] in any data cell; filtering by [" 2 "]
    keeps row 2 and nothing else. *)
Lemma filter_matches_row_number_witness :
  lower_keeps_empty (R := ascii_runtime) /\ lower_keeps_digits (R := ascii_runtime)
  /\ reachable (R := ascii_runtime) demo_session
  /\ rows_all demo_session !! 1 = Some [lit "2"; lit "Banana"; lit "b"; lit "ripe"]
  /\ strip (lit " 2 ") <> []
  /\ occurs_in (strip (lit " 2 ")) (str_of_nat 2)
  /\ [lit "2"; lit "Banana"; lit "b"; lit "ripe"] ∈ rows_view demo_filtered
  /\ rows_view demo_filtered = [[lit "2"; lit "Banana"; lit "b"; lit "ripe"]].
Proof.
  assert (Hocc : occurs_in (strip (lit " 2 ")) (str_of_nat 2)) by (now exists [], []).
  assert (Hs : strip (lit " 2 ") <> []) by discriminate.
  repeat (split; [first [ exact ascii_lower_keeps_empty
                        | exact ascii_lower_keeps_digits
                        | exact demo_session_reachable
                        | exact Hs | exact Hocc | reflexivity ]|]).
  split; [|reflexivity].
  apply (filter_matches_row_number (R := ascii_runtime) demo_session (lit " 2 ") 1
           [lit "2"; lit "Banana"; lit "b"; lit "ripe"]
           ascii_lower_keeps_empty ascii_lower_keeps_digits
           demo_session_reachable eq_refl Hs Hocc).
Defined.

(** ** Stable sorting *)

Section StableSort.
Context {A K : Type} `{EqDecision K} (leb : K -> K -> bool) (key : A -> K).
Hypothesis leb_total : forall a b, leb a b = true \/ leb b a = true.
Hypothesis leb_trans : forall a b c, leb a b = true -> leb b c = true -> leb a c = true.
Hypothesis leb_antisym : forall a b, leb a b = true -> leb b a = true -> a = b.

Lemma leb_refl (k : K) : leb k k = true.
Proof. now destruct (leb_total k k). Qed.

Lemma insert_by_with_key (k : K) (x : A) (l : list A) :
  with_key key k (insert_by leb key x l) = with_key key k (x :: l).
Proof.
  unfold with_key. induction l as [|y l IH]; simpl; [reflexivity|].
  destruct (leb (key x) (key y)) eqn:E; simpl; [reflexivity|].
  rewrite IH. simpl.
  destruct (bool_decide (key x = k)) eqn:Ex, (bool_decide (key y = k)) eqn:Ey;
    try reflexivity.
  apply bool_decide_eq_true in Ex, Ey. rewrite Ex, Ey, leb_refl in E. discriminate.
Qed.

Lemma stable_sort_with_key (k : K) (l : list A) :
  with_key key k (stable_sort leb key l) = with_key key k l.
Proof.
  induction l as [|x l IH]; simpl; [reflexivity|].
  rewrite insert_by_with_key. unfold with_key in *. simpl. now rewrite IH.
Qed.

(** [list.sort] is stable in both directions. *)
Lemma list_sort_with_key (k : K) (reverse : bool) (l : list A) :
  with_key key k (list_sort leb key reverse l) = with_key key k l.
Proof.
  unfold list_sort. destruct reverse; [|apply stable_sort_with_key].
  unfold with_key. rewrite filter_rev.
  fold (with_key key k (stable_sort leb key (rev l))).
  rewrite stable_sort_with_key. unfold with_key.
  now rewrite filter_rev, rev_involutive.
Qed.

Lemma insert_by_sorted (x : A) (l : list A) :
  StronglySorted (key_le leb key) l -> StronglySorted (key_le leb key) (insert_by leb key x l).
Proof.
  induction 1 as [|y l Hl IH Hy]; simpl; [repeat constructor|].
  destruct (leb (key x) (key y)) eqn:E.
  - constructor; [now constructor|].
    constructor; [exact E|].
    eapply Forall_impl; [exact Hy|]. intros z Hz. exact (leb_trans _ _ _ E Hz).
  - constructor; [exact IH|].
    rewrite insert_by_perm. constructor; [|exact Hy].
    unfold key_le. destruct (leb_total (key x) (key y)); congruence.
Qed.

Lemma stable_sort_sorted (l : list A) : StronglySorted (key_le leb key) (stable_sort leb key l).
Proof.
  induction l as [|x l IH]; simpl; [constructor | now apply insert_by_sorted].
Qed.

Lemma sorted_rev (Rel : relation A) (l : list A) :
  StronglySorted Rel l -> StronglySorted (flip Rel) (rev l).
Proof.
  induction 1 as [|x l Hl IH Hx]; simpl; [constructor|].
  apply StronglySorted_app_2; [|exact IH|repeat constructor].
  intros z x' Hz Hx'. apply list_elem_of_singleton in Hx' as ->.
  rewrite Forall_forall in Hx. apply Hx.
  apply list_elem_of_In, in_rev, list_elem_of_In in Hz. exact Hz.
Qed.

Lemma list_sort_ascending (l : list A) :
  StronglySorted (key_le leb key) (list_sort leb key false l).
Proof. apply stable_sort_sorted. Qed.

Lemma list_sort_descending (l : list A) :
  StronglySorted (flip (key_le leb key)) (list_sort leb key true l).
Proof. apply sorted_rev, stable_sort_sorted. Qed.

(** *** Pairs of elements *)

Lemma sorted_sublist (Rel : relation A) (l1 l2 : list A) :
  sublist l1 l2 -> StronglySorted Rel l2 -> StronglySorted Rel l1.
Proof.
  induction 1 as [|x l1 l2 Hs IH|x l1 l2 Hs IH]; intros Hl2.
  - constructor.
  - apply StronglySorted_cons in Hl2 as [Hx Hl2].
    constructor; [now apply IH|].
    rewrite Forall_forall in *. intros z Hz. apply Hx.
    eapply elem_of_sublist; eassumption.
  - apply StronglySorted_cons in Hl2 as [_ Hl2]. now apply IH.
Qed.

Lemma sorted_before (Rel : relation A) (l : list A) (a b : A) :
  StronglySorted Rel l -> before l a b -> Rel a b.
Proof.
  intros Hl Hab. apply (sorted_sublist Rel _ _ Hab) in Hl.
  apply StronglySorted_cons in Hl as [Hl _]. now inversion Hl.
Qed.

Lemma singleton_sublist (l : list A) (a : A) : a ∈ l -> sublist [a] l.
Proof.
  induction 1 as [a l|a y l _ IH].
  - apply sublist_skip, sublist_nil_l.
  - now apply sublist_cons.
Qed.

Lemma before_or (l : list A) (a b : A) :
  a ∈ l -> b ∈ l -> a <> b -> before l a b \/ before l b a.
Proof.
  unfold before. induction l as [|x l IH]; intros Ha Hb Hne.
  - now apply not_elem_of_nil in Ha.
  - apply elem_of_cons in Ha as [->|Ha], Hb as [->|Hb].
    + congruence.
    + left. apply sublist_skip. now apply singleton_sublist.
    + right. apply sublist_skip. now apply singleton_sublist.
    + destruct (IH Ha Hb Hne); [left | right]; now apply sublist_cons.
Qed.

Lemma filter_sublist_mono (f : A -> bool) (l1 l2 : list A) :
  sublist l1 l2 -> sublist (List.filter f l1) (List.filter f l2).
Proof.
  induction 1 as [|x l1 l2 Hs IH|x l1 l2 Hs IH]; simpl.
  - constructor.
  - destruct (f x); [now apply sublist_skip | exact IH].
  - destruct (f x); [now apply sublist_cons | exact IH].
Qed.

(** Two lists with the same elements of one key hold them in the same
    order. *)
Lemma before_same_key (l l' : list A) (a b : A) :
  (forall k, with_key key k l' = with_key key k l) ->
  before l a b -> key a = key b -> before l' a b.
Proof.
  unfold before. intros Hk Hab Hkey.
  apply (filter_sublist_mono (fun x => bool_decide (key x = key a))) in Hab.
  simpl in Hab. rewrite <- Hkey in Hab.
  rewrite bool_decide_eq_true_2 in Hab by reflexivity.
  fold (with_key key (key a) l) in Hab. rewrite <- Hk in Hab.
  etransitivity; [exact Hab | apply filter_sublist].
Qed.

(** In a descending rearrangement of an ascending list, two elements
    with different keys swap places. *)
Lemma before_reversed (l l' : list A) (a b : A) :
  StronglySorted (key_le leb key) l -> StronglySorted (flip (key_le leb key)) l' -> l' ≡ₚ l ->
  before l a b -> key a <> key b -> before l' b a.
Proof.
  intros Hl Hl' Hp Hab Hne.
  pose proof (sorted_before _ _ _ _ Hl Hab) as Hle.
  assert (Ha : a ∈ l') by (rewrite Hp; eapply elem_of_sublist; [|exact Hab]; set_solver).
  assert (Hb : b ∈ l') by (rewrite Hp; eapply elem_of_sublist; [|exact Hab]; set_solver).
  destruct (before_or l' b a Hb Ha) as [H'|H']; [congruence | exact H' |].
  apply (sorted_before _ _ _ _ Hl') in H'. unfold flip, key_le in *.
  destruct Hne. now apply leb_antisym.
Qed.

(** Without ties the descending pass is the reversal of the ascending
    one. *)
Lemma list_sort_reverses (l : list A) :
  NoDup (key <$> l) ->
  list_sort leb key true (list_sort leb key false l)
  = rev (list_sort leb key false l).
Proof.
  intros Hnd. unfold list_sort. f_equal.
  set (a := stable_sort leb key l).
  apply (StronglySorted_unique_strong (key_le leb key)).
  - intros x y Hx Hy Hxy Hyx.
    assert (Hk : key x = key y) by now apply leb_antisym.
    assert (Hpx : x ∈ l).
    { rewrite stable_sort_perm, <- Permutation_rev in Hx.
      unfold a in Hx. now rewrite stable_sort_perm in Hx. }
    assert (Hpy : y ∈ l) by (unfold a in Hy; now rewrite stable_sort_perm in Hy).
    apply list_elem_of_lookup in Hpx as [i Hi], Hpy as [j Hj].
    assert (i = j).
    { eapply (NoDup_lookup _ _ _ (key x) Hnd);
        rewrite list_lookup_fmap; [rewrite Hi | rewrite Hj, Hk]; reflexivity. }
    subst j. congruence.
  - apply stable_sort_sorted.
  - apply stable_sort_sorted.
  - now rewrite stable_sort_perm, <- Permutation_rev.
Qed.

End StableSort.

(** ** The order of the sort keys *)

Section KeyOrder.

Lemma str_leb_total (a b : str) : str_leb a b = true \/ str_leb b a = true.
Proof.
  revert b. induction a as [|x a IH]; intros [|y b]; simpl; auto.
  destruct (N.compare_spec x y) as [->|Hlt|Hgt].
  - rewrite N.ltb_irrefl, N.eqb_refl. simpl. apply IH.
  - left. apply N.ltb_lt in Hlt. now rewrite Hlt.
  - right. apply N.ltb_lt in Hgt. now rewrite Hgt.
Qed.

Lemma str_leb_cons (x y : N) (a b : str) :
  str_leb (x :: a) (y :: b) = true <-> (x < y)%N \/ (x = y /\ str_leb a b = true).
Proof.
  simpl. rewrite orb_true_iff, andb_true_iff, N.ltb_lt, N.eqb_eq. tauto.
Qed.

Lemma str_leb_trans (a b c : str) :
  str_leb a b = true -> str_leb b c = true -> str_leb a c = true.
Proof.
  revert b c. induction a as [|x a IH]; intros [|y b] [|z c]; try easy.
  rewrite !str_leb_cons. intros [H1|[-> H1]] [H2|[-> H2]].
  - left. lia.
  - now left.
  - now left.
  - right. split; [reflexivity | eauto].
Qed.

Lemma str_leb_antisym (a b : str) :
  str_leb a b = true -> str_leb b a = true -> a = b.
Proof.
  revert b. induction a as [|x a IH]; intros [|y b]; try easy.
  rewrite !str_leb_cons. intros [H1|[-> H1]] [H2|[H2 H3]]; try lia.
  f_equal. now apply IH.
Qed.

Lemma key_leb_total (a b : sort_key_t) : key_leb a b = true \/ key_leb b a = true.
Proof.
  destruct a as [x|x], b as [y|y]; simpl; auto using str_leb_total.
  destruct (Z.leb_spec x y); [now left | right]. apply Z.leb_le. lia.
Qed.

Lemma key_leb_trans (a b c : sort_key_t) :
  key_leb a b = true -> key_leb b c = true -> key_leb a c = true.
Proof.
  destruct a as [x|x], b as [y|y], c as [z|z]; simpl; try easy.
  - rewrite !Z.leb_le. lia.
  - apply str_leb_trans.
Qed.

Lemma key_leb_antisym (a b : sort_key_t) :
  key_leb a b = true -> key_leb b a = true -> a = b.
Proof.
  destruct a as [x|x], b as [y|y]; simpl; try easy.
  - rewrite !Z.leb_le. intros. f_equal. lia.
  - intros H1 H2. f_equal. now apply str_leb_antisym.
Qed.

(** Sorting looks at the keys only through their comparisons. *)
Lemma list_sort_ext {A K K' : Type} (leb : K -> K -> bool) (leb' : K' -> K' -> bool)
    (key : A -> K) (key' : A -> K') (reverse : bool) (l : list A) :
  (forall x y, leb (key x) (key y) = leb' (key' x) (key' y)) ->
  list_sort leb key reverse l = list_sort leb' key' reverse l.
Proof.
  intros Hext.
  assert (Hins : forall x l, insert_by leb key x l = insert_by leb' key' x l).
  { intros x l0. induction l0 as [|y l0 IH]; simpl; [reflexivity|].
    now rewrite Hext, IH. }
  assert (Hsort : forall l, stable_sort leb key l = stable_sort leb' key' l).
  { intros l0. induction l0 as [|x l0 IH]; simpl; [reflexivity|].
    now rewrite IH, Hins. }
  unfold list_sort. destruct reverse; now rewrite Hsort.
Qed.

Lemma sort_rows_by_sort_key `{R : Runtime} (c : nat) (asc : bool) (rows : list row) :
  sort_rows c asc rows = list_sort key_leb (sort_key c) (negb asc) rows.
Proof. destruct c; now apply list_sort_ext. Qed.

End KeyOrder.

(** ** Sorting the view *)

Section SortView.
Context {R : Runtime}.

Lemma sort_by_column_view (c : nat) (st : State) :
  rows_view (sort_by_column c st)
  = sort_rows c (default true (_sort_state st !! c)) (rows_view st).
Proof.
  unfold sort_by_column. destruct (rows_view st) as [|r rows] eqn:E; [|reflexivity].
  rewrite E. destruct c; unfold sort_rows, list_sort; now destruct (negb _).
Qed.

Lemma sort_by_column_twice (c : nat) (st : State) :
  default true (_sort_state st !! c) = true ->
  rows_view (sort_by_column c st)
  = list_sort key_leb (sort_key c) false (rows_view st)
  /\ rows_view (sort_by_column c (sort_by_column c st))
     = list_sort key_leb (sort_key c) true
         (list_sort key_leb (sort_key c) false (rows_view st)).
Proof.
  intros Hasc.
  assert (H1 : rows_view (sort_by_column c st)
               = list_sort key_leb (sort_key c) false (rows_view st)).
  { now rewrite sort_by_column_view, Hasc, sort_rows_by_sort_key. }
  split; [exact H1|].
  rewrite sort_by_column_view, sort_rows_by_sort_key, H1.
  unfold sort_by_column. destruct (rows_view st) as [|r rows] eqn:E;
    [now rewrite Hasc|].
  simpl. now rewrite lookup_insert_eq, Hasc.
Qed.

End SortView.

(** C3. [sort_by_column] is stable: the rows of any one key come out in
    the order they went in, so of two rows with equal keys the one that
    stood before the other still does.  When the next direction of a
    column is ascending, two clicks on it sort ascending and then
    descending; the second view is a permutation of the first, in
    descending order of the keys, in which two rows with different keys
    have swapped places and two rows with equal keys have not; when no two
    rows share a key it is the reversal of the first. *)
Theorem sort_by_column_stable `{R : Runtime} (st : State) (c : nat) :
  (forall k,
      with_key (sort_key c) k (rows_view (sort_by_column c st))
      = with_key (sort_key c) k (rows_view st))
  /\ (forall a b,
      before (rows_view st) a b -> sort_key c a = sort_key c b ->
      before (rows_view (sort_by_column c st)) a b)
  /\ (default true (_sort_state st !! c) = true ->
      rows_view (sort_by_column c (sort_by_column c st))
        ≡ₚ rows_view (sort_by_column c st)
      /\ StronglySorted (key_le key_leb (sort_key c))
           (rows_view (sort_by_column c st))
      /\ StronglySorted (flip (key_le key_leb (sort_key c)))
           (rows_view (sort_by_column c (sort_by_column c st)))
      /\ (forall a b,
          before (rows_view (sort_by_column c st)) a b ->
          sort_key c a <> sort_key c b ->
          before (rows_view (sort_by_column c (sort_by_column c st))) b a)
      /\ (forall a b,
          before (rows_view (sort_by_column c st)) a b ->
          sort_key c a = sort_key c b ->
          before (rows_view (sort_by_column c (sort_by_column c st))) a b)
      /\ (NoDup (sort_key c <$> rows_view st) ->
          rows_view (sort_by_column c (sort_by_column c st))
          = rev (rows_view (sort_by_column c st)))).
Proof.
  assert (Hstable : forall k,
             with_key (sort_key c) k (rows_view (sort_by_column c st))
             = with_key (sort_key c) k (rows_view st)).
  { intros k. rewrite sort_by_column_view, sort_rows_by_sort_key.
    apply list_sort_with_key, key_leb_total. }
  split; [exact Hstable|]. split.
  { intros a b Hab Hk. now apply (before_same_key (sort_key c) (rows_view st)). }
  intros Hasc. destruct (sort_by_column_twice c st Hasc) as [-> ->].
  set (view := rows_view st).
  pose proof (list_sort_ascending key_leb (sort_key c) key_leb_total key_leb_trans view)
    as Hup.
  pose proof (list_sort_descending key_leb (sort_key c) key_leb_total key_leb_trans
                (list_sort key_leb (sort_key c) false view)) as Hdown.
  pose proof (list_sort_perm key_leb (sort_key c) true
                (list_sort key_leb (sort_key c) false view)) as Hperm.
  repeat (split; [assumption|]). split; [|split].
  - intros a b.
    now apply (before_reversed key_leb (sort_key c)
                 key_leb_total key_leb_trans key_leb_antisym).
  - intros a b. apply before_same_key. intros k.
    apply list_sort_with_key, key_leb_total.
  - intros Hnd.
    now apply (list_sort_reverses key_leb (sort_key c)
                 key_leb_total key_leb_trans key_leb_antisym).
Qed.

Lemma sort_by_column_stable_witness :
  default true (_sort_state demo_session !! 1) = true
  /\ before (rows_view demo_session)
       [lit "1"; lit "apple"; lit "red"; []] [lit "2"; lit "Banana"; lit "b"; lit "ripe"]
  /\ before
       (rows_view (sort_by_column (R := ascii_runtime) 1
                     (sort_by_column (R := ascii_runtime) 1 demo_session)))
       [lit "2"; lit "Banana"; lit "b"; lit "ripe"] [lit "1"; lit "apple"; lit "red"; []]
  /\ rows_view (sort_by_column (R := ascii_runtime) 1
                  (sort_by_column (R := ascii_runtime) 1 demo_session))
     = rev (rows_view (sort_by_column (R := ascii_runtime) 1 demo_session)).
Proof.
  assert (Hasc : default true (_sort_state demo_session !! 1) = true) by reflexivity.
  assert (Hab : before (rows_view demo_session)
                  [lit "1"; lit "apple"; lit "red"; []]
                  [lit "2"; lit "Banana"; lit "b"; lit "ripe"]).
  { vm_compute. apply sublist_skip, sublist_skip, sublist_nil_l. }
  split; [exact Hasc|]. split; [exact Hab|].
  destruct (sort_by_column_stable (R := ascii_runtime) demo_session 1)
    as (_ & _ & Htoggle).
  destruct (Htoggle Hasc) as (_ & _ & _ & Hswap & _ & Hrev).
  split.
  - apply Hswap; [|intros H; vm_compute in H; discriminate].
    vm_compute. apply sublist_skip, sublist_skip, sublist_nil_l.
  - apply Hrev. vm_compute.
    repeat (apply NoDup_cons_2; [rewrite ?elem_of_cons, elem_of_nil; intuition discriminate|]).
    apply NoDup_nil_2.
Defined.

(** ** The default column *)

Lemma raw_text_lookup (st : State) :
  (0 <= cell_column st)%Z ->
  _get_selected_cell_text_raw st
  = default [] (_get_selected_values st !! Z.to_nat (cell_column st)).
Proof.
  intros Hci. unfold _get_selected_cell_text_raw.
  destruct (_get_selected_values st) as [|v vals] eqn:E; [reflexivity|].
  rewrite (proj2 (Z.leb_le _ _) Hci). cbn [andb].
  destruct (cell_column st <? _)%Z eqn:El; [reflexivity|].
  apply Z.ltb_ge in El. rewrite lookup_ge_None_2; [reflexivity | lia].
Qed.



(** ** More on the utilities *)

Section NormalizeMore.

Lemma non_space_map_subst (a : N) (s : str) :
  is_space a = true ->
  non_space (List.map (fun c => if (a =? c)%N then 32%N else c) s) = non_space s.
Proof.
  intros Ha. unfold non_space. induction s as [|c s IH]; simpl; [reflexivity|].
  rewrite IH. destruct (a =? c)%N eqn:E; [|reflexivity].
  apply N.eqb_eq in E. subst c. rewrite Ha. reflexivity.
Qed.

Lemma non_space_sub_ws (b : bool) (s : str) : non_space (sub_ws b s) = non_space s.
Proof.
  unfold non_space. revert b. induction s as [|c s IH]; intros b; simpl; [reflexivity|].
  destruct (is_space c) eqn:Hc; simpl.
  - destruct b; simpl; apply IH.
  - rewrite Hc. simpl. now rewrite IH.
Qed.

Lemma non_space_lstrip (s : str) : non_space (lstrip s) = non_space s.
Proof.
  unfold non_space. induction s as [|c s IH]; simpl; [reflexivity|].
  destruct (is_space c) eqn:Hc; simpl; [exact IH | now rewrite Hc].
Qed.

Lemma non_space_rstrip (s : str) : non_space (rstrip s) = non_space s.
Proof.
  unfold non_space. induction s as [|c s IH]; simpl; [reflexivity|].
  destruct (rstrip s) as [|x r] eqn:Hr.
  - rewrite <- IH. destruct (is_space c) eqn:Hc; simpl; [reflexivity | now rewrite Hc].
  - rewrite <- IH. reflexivity.
Qed.

Lemma sub_ws_length (b : bool) (s : str) : length (sub_ws b s) <= length s.
Proof.
  revert b. induction s as [|c s IH]; intros b; simpl; [lia|].
  destruct (is_space c); [destruct b|]; simpl;
    [pose proof (IH true) | pose proof (IH true) | pose proof (IH false)]; lia.
Qed.

Lemma lstrip_length (s : str) : length (lstrip s) <= length s.
Proof.
  induction s as [|c s IH]; simpl; [lia|]. destruct (is_space c); simpl; lia.
Qed.

Lemma rstrip_length (s : str) : length (rstrip s) <= length s.
Proof.
  induction s as [|c s IH]; simpl; [lia|].
  destruct (rstrip s) as [|x r]; [destruct (is_space c)|]; simpl in *; lia.
Qed.

Lemma normalize_non_space (s : str) : non_space (normalize_query s) = non_space s.
Proof.
  destruct s as [|c s]; [reflexivity|]. unfold normalize_query, strip.
  rewrite non_space_rstrip, non_space_lstrip, non_space_sub_ws, !replace_single.
  now rewrite !non_space_map_subst.
Qed.

End NormalizeMore.

(** X1. [normalize_query] only touches white space: the characters of its
    result that are not white space are those of its argument, in the same
    order; the result is empty exactly when the argument holds nothing but
    white space; and the result is never longer than the argument. *)
Theorem normalize_query_touches_only_space (s : str) :
  non_space (normalize_query s) = non_space s
  /\ (normalize_query s = [] <-> Forall (fun c => is_space c = true) s)
  /\ length (normalize_query s) <= length s.
Proof.
  split; [apply normalize_non_space|]. split.
  - split.
    + intros H. pose proof (normalize_non_space s) as E. rewrite H in E.
      unfold non_space in E. symmetry in E.
      induction s as [|c s IH]; [constructor|]. simpl in E.
      destruct (is_space c) eqn:Hc; simpl in E; [|discriminate].
      constructor; [exact Hc|]. apply IH; [|exact E].
      assert (Hs : non_space (normalize_query s) = []).
      { rewrite normalize_non_space. exact E. }
      pose proof (normalize_lstrip s) as Hl. pose proof (lstrip_head (normalize_query s)) as Hh.
      rewrite Hl in Hh. destruct (normalize_query s) as [|x r]; [reflexivity|].
      unfold non_space in Hs. simpl in Hs. rewrite Hh in Hs. discriminate.
    + intros Hall.
      assert (E : non_space (normalize_query s) = []).
      { rewrite normalize_non_space. unfold non_space.
        induction Hall as [|c s Hc _ IH]; simpl; [reflexivity|]. now rewrite Hc. }
      pose proof (normalize_lstrip s) as Hl. pose proof (lstrip_head (normalize_query s)) as Hh.
      rewrite Hl in Hh. destruct (normalize_query s) as [|x r]; [reflexivity|].
      unfold non_space in E. simpl in E. rewrite Hh in E. discriminate.
  - destruct s as [|c s]; [reflexivity|]. unfold normalize_query, strip.
    rewrite !replace_single.
    etransitivity; [apply rstrip_length|].
    etransitivity; [apply lstrip_length|].
    etransitivity; [apply sub_ws_length|].
    now rewrite !length_map.
Qed.

(** X2. [truncate] returns at most [n] characters and the ellipsis, and
    always starts with the first [n] characters of [s]: a string of at most
    [n] characters comes back unchanged, a longer one is cut to exactly
    [n] characters followed by the ellipsis. *)
Theorem truncate_fits (s : str) (n : nat) :
  length (truncate s n) <= S n
  /\ take n (truncate s n) = take n s
  /\ (length s <= n -> truncate s n = s)
  /\ (n < length s -> truncate s n = take n s ++ [8230%N]
                      /\ length (truncate s n) = S n).
Proof.
  unfold truncate. destruct (Nat.ltb n (length s)) eqn:E.
  - apply Nat.ltb_lt in E.
    assert (Hlen : length (take n s) = n) by (rewrite length_take; lia).
    split; [|split; [|split]].
    + rewrite length_app, Hlen. simpl. lia.
    + rewrite take_app_le by lia. rewrite take_take. f_equal. lia.
    + intros; exfalso; lia.
    + intros _. split; [reflexivity|]. rewrite length_app, Hlen. simpl. lia.
  - apply Nat.ltb_ge in E. rewrite app_nil_r. split; [|split; [|split]].
    + rewrite length_take. lia.
    + rewrite take_take. f_equal. lia.
    + intros _. now apply take_ge.
    + intros; exfalso; lia.
Qed.

Lemma truncate_fits_witness :
  2 < length (lit "apple")
  /\ truncate (lit "apple") 2 = lit "ap" ++ [8230%N]
  /\ length (truncate (lit "apple") 2) = 3.
Proof.
  assert (H : 2 < length (lit "apple")) by (vm_compute; lia).
  split; [exact H|]. exact (proj2 (proj2 (proj2 (truncate_fits (lit "apple") 2))) H).
Defined.

(** ** More on the engine registry *)

Section RegistryMore.

Lemma str_eqb_eq (a b : str) : str_eqb a b = true <-> a = b.
Proof. unfold str_eqb. apply bool_decide_eq_true. Qed.

Lemma str_eqb_refl (a : str) : str_eqb a a = true.
Proof. now apply str_eqb_eq. Qed.

Lemma str_eqb_neq (a b : str) : a <> b -> str_eqb a b = false.
Proof. intros H. unfold str_eqb. now apply bool_decide_eq_false. Qed.

Lemma dict_get_set (k k' v : str) (d : dict) :
  dict_get k' (dict_set k v d) = if str_eqb k' k then Some v else dict_get k' d.
Proof.
  induction d as [|[k0 v0] d IH]; simpl; [reflexivity|].
  destruct (str_eqb k k0) eqn:E; simpl.
  - apply str_eqb_eq in E. subst k0. now destruct (str_eqb k' k).
  - rewrite IH. destruct (str_eqb k' k0) eqn:E'; [|reflexivity].
    apply str_eqb_eq in E'. subst k0.
    destruct (str_eqb k' k) eqn:E''; [|reflexivity].
    apply str_eqb_eq in E''. subst k'. now rewrite str_eqb_refl in E.
Qed.

Lemma dict_set_keys (k v : str) (d : dict) (x : str) :
  x ∈ (dict_set k v d).*1 <-> x = k \/ x ∈ d.*1.
Proof.
  induction d as [|[k0 v0] d IH]; simpl.
  - rewrite list_elem_of_singleton, elem_of_nil. tauto.
  - destruct (str_eqb k k0) eqn:E; simpl.
    + apply str_eqb_eq in E. subst k0. rewrite !elem_of_cons. tauto.
    + rewrite !elem_of_cons, IH. tauto.
Qed.

Lemma dict_set_NoDup (k v : str) (d : dict) :
  NoDup d.*1 -> NoDup (dict_set k v d).*1.
Proof.
  induction d as [|[k0 v0] d IH]; simpl; intros Hd.
  - apply NoDup_singleton.
  - apply NoDup_cons in Hd as [Hk0 Hd].
    destruct (str_eqb k k0) eqn:E; simpl.
    + apply str_eqb_eq in E. subst k0. now apply NoDup_cons.
    + apply NoDup_cons. split; [|now apply IH].
      rewrite dict_set_keys. intros [->|H]; [|contradiction].
      now rewrite str_eqb_refl in E.
Qed.

Lemma dict_set_fresh (k v : str) (d : dict) :
  k ∉ d.*1 -> dict_set k v d = d ++ [(k, v)].
Proof.
  induction d as [|[k0 v0] d IH]; simpl; intros Hk; [reflexivity|].
  rewrite not_elem_of_cons in Hk. destruct Hk as [Hne Hk].
  rewrite (str_eqb_neq _ _ Hne). now rewrite IH.
Qed.

Lemma load_engines_step_valid (engines : dict) (sec : ini_section) :
  has_placeholder sec = true ->
  load_engines_step engines sec
  = dict_set (section_name sec) (section_url sec) engines.
Proof. unfold has_placeholder, load_engines_step. now intros ->. Qed.

Lemma fold_step_NoDup (sections : list ini_section) (acc : dict) :
  NoDup acc.*1 -> NoDup (fold_left load_engines_step sections acc).*1.
Proof.
  revert acc. induction sections as [|sec sections IH]; intros acc Hacc; simpl;
    [exact Hacc|].
  apply IH. destruct (has_placeholder sec) eqn:E.
  - rewrite load_engines_step_valid by exact E. now apply dict_set_NoDup.
  - now rewrite load_engines_step_invalid.
Qed.

Lemma fold_step_get (n : str) (sections : list ini_section) (acc : dict) :
  dict_get n (fold_left load_engines_step sections acc)
  = match last_valid_url n sections with
    | Some u => Some u
    | None => dict_get n acc
    end.
Proof.
  revert acc. induction sections as [|sec sections IH]; intros acc; simpl;
    [reflexivity|].
  rewrite IH. destruct (last_valid_url n sections); [reflexivity|].
  destruct (has_placeholder sec) eqn:E; simpl.
  - rewrite load_engines_step_valid by exact E. rewrite dict_get_set.
    now destruct (str_eqb n (section_name sec)).
  - now rewrite load_engines_step_invalid.
Qed.

Lemma dict_set_not_nil (k v : str) (d : dict) : dict_set k v d <> [].
Proof. destruct d as [|[k0 v0] d]; simpl; [easy|]. now destruct (str_eqb k k0). Qed.

Lemma fold_step_not_nil (sections : list ini_section) (acc : dict) :
  acc <> [] -> fold_left load_engines_step sections acc <> [].
Proof.
  revert acc. induction sections as [|sec sections IH]; intros acc Hacc; simpl;
    [exact Hacc|].
  apply IH. destruct (has_placeholder sec) eqn:E.
  - rewrite load_engines_step_valid by exact E. apply dict_set_not_nil.
  - now rewrite load_engines_step_invalid.
Qed.

Lemma fold_step_some_valid (sections : list ini_section) (acc : dict) :
  List.filter has_placeholder sections <> [] ->
  fold_left load_engines_step sections acc <> [].
Proof.
  revert acc. induction sections as [|sec sections IH]; intros acc; simpl; [easy|].
  destruct (has_placeholder sec) eqn:E.
  - intros _. apply fold_step_not_nil.
    rewrite load_engines_step_valid by exact E. apply dict_set_not_nil.
  - intros H. rewrite load_engines_step_invalid by exact E. now apply IH.
Qed.

Lemma fold_step_fresh (sections : list ini_section) (acc : dict) :
  Forall (fun sec => has_placeholder sec = true) sections ->
  NoDup (acc.*1 ++ (section_name <$> sections)) ->
  fold_left load_engines_step sections acc = acc ++ (section_entry <$> sections).
Proof.
  revert acc. induction sections as [|sec sections IH]; intros acc Hv Hnd; simpl.
  - now rewrite app_nil_r.
  - apply Forall_cons in Hv as [Hsec Hv].
    rewrite load_engines_step_valid by exact Hsec.
    apply NoDup_app in Hnd as (Hacc & Hdis & Hsecs).
    apply NoDup_cons in Hsecs as [Hnew Hsecs].
    assert (Hfresh : section_name sec ∉ acc.*1).
    { intros Hin. apply (Hdis _ Hin). left. }
    rewrite (dict_set_fresh _ _ _ Hfresh), IH; [now rewrite <- app_assoc | exact Hv |].
    rewrite fmap_app. simpl. apply NoDup_app. split; [|split; [|exact Hsecs]].
    + apply NoDup_app. split; [exact Hacc|]. split; [|apply NoDup_singleton].
      intros x Hx Hx'. apply list_elem_of_singleton in Hx'. now subst x.
    + intros x Hx Hx'. apply elem_of_app in Hx as [Hx|Hx].
      * apply (Hdis _ Hx). now right.
      * apply list_elem_of_singleton in Hx. now subst x.
Qed.

End RegistryMore.

(** X3. The registry [load_engines] returns never lists a name twice, and
    when the file has a valid section, looking a name up in it gives the
    template of the last valid section of that name (a section without a
    [name] option counts under its section name), or nothing when no valid
    section has that name. *)
Theorem load_engines_last_section_wins (sections : list ini_section) :
  NoDup (load_engines sections).*1
  /\ (List.filter has_placeholder sections <> [] ->
      forall n, dict_get n (load_engines sections) = last_valid_url n sections).
Proof.
  split.
  - unfold load_engines.
    pose proof (fold_step_NoDup sections [] (NoDup_nil_2)) as H.
    destruct (fold_left load_engines_step sections []) as [|e d];
      [|exact H].
    vm_compute.
    repeat (apply NoDup_cons_2;
            [rewrite ?elem_of_cons, elem_of_nil; intuition discriminate|]).
    apply NoDup_nil_2.
  - intros Hvalid n. unfold load_engines.
    pose proof (fold_step_some_valid sections [] Hvalid) as Hne.
    pose proof (fold_step_get n sections []) as Hget.
    destruct (fold_left load_engines_step sections []) as [|e d]; [easy|].
    rewrite Hget. now destruct (last_valid_url n sections).
Qed.

(** Two sections named [Search]: the second template is the one used. *)
Lemma load_engines_last_section_wins_witness :
  List.filter has_placeholder
    [ {| sec_name := lit "a"; opt_name := Some (lit "Search");
         opt_url := Some (lit "https://one.example/?q={query}") |};
      {| sec_name := lit "b"; opt_name := Some (lit "Search");
         opt_url := Some (lit "https://two.example/?q={query}") |} ] <> []
  /\ dict_get (lit "Search")
       (load_engines
          [ {| sec_name := lit "a"; opt_name := Some (lit "Search");
               opt_url := Some (lit "https://one.example/?q={query}") |};
            {| sec_name := lit "b"; opt_name := Some (lit "Search");
               opt_url := Some (lit "https://two.example/?q={query}") |} ])
     = Some (lit "https://two.example/?q={query}").
Proof.
  assert (H : List.filter has_placeholder
    [ {| sec_name := lit "a"; opt_name := Some (lit "Search");
         opt_url := Some (lit "https://one.example/?q={query}") |};
      {| sec_name := lit "b"; opt_name := Some (lit "Search");
         opt_url := Some (lit "https://two.example/?q={query}") |} ] <> [])
    by discriminate.
  split; [exact H|].
  rewrite (proj2 (load_engines_last_section_wins _) H). reflexivity.
Defined.

(** Once read, sections that are all valid and carry pairwise different
    names give a registry that lists exactly these names and templates, in
    their order. *)
Theorem load_engines_keeps_file_order (sections : list ini_section) :
  sections <> [] ->
  Forall (fun sec => has_placeholder sec = true) sections ->
  NoDup (section_name <$> sections) ->
  load_engines sections = section_entry <$> sections.
Proof.
  intros Hne Hv Hnd. unfold load_engines.
  rewrite (fold_step_fresh sections [] Hv Hnd). simpl.
  destruct sections; [easy | reflexivity].
Qed.

(** The file written for the built-in engines is read back as them. *)
Lemma load_engines_keeps_file_order_witness :
  default_sections <> []
  /\ Forall (fun sec => has_placeholder sec = true) default_sections
  /\ NoDup (section_name <$> default_sections)
  /\ load_engines default_sections = DEFAULT_ENGINES.
Proof.
  assert (H1 : default_sections <> []) by discriminate.
  assert (H2 : Forall (fun sec => has_placeholder sec = true) default_sections)
    by (repeat constructor).
  assert (H3 : NoDup (section_name <$> default_sections)).
  { vm_compute.
    repeat (apply NoDup_cons_2;
            [rewrite ?elem_of_cons, elem_of_nil; intuition discriminate|]).
    apply NoDup_nil_2. }
  repeat (split; [assumption|]).
  rewrite (load_engines_keeps_file_order default_sections H1 H2 H3). reflexivity.
Defined.

(** ** The registry of a session *)

Section SessionRegistry.
Context {R : Runtime}.

Lemma load_engines_inv (sections : list ini_section) :
  load_engines sections <> [] /\ Forall entry_ok (load_engines sections).
Proof.
  unfold load_engines.
  pose proof (fold_step_ok sections [] (Forall_nil_2 _)) as H.
  destruct (fold_left load_engines_step sections []) as [|e d].
  - split; [discriminate | apply default_engines_ok].
  - split; [discriminate | exact H].
Qed.

Lemma load_sheet_engines (st st' : State) :
  load_sheet st = Some st' -> engines st' = engines st.
Proof.
  unfold load_sheet. destruct (wb st) as [book|]; [|now intros [= <-]].
  destruct (sheet_by_name (sheet_var st) book) as [ws|]; [|discriminate].
  destruct (column_labels _) as [labels|]; [|discriminate].
  now intros [= <-].
Qed.

Lemma handle_engines (st : State) (e : event) : engines (handle st e) = engines st.
Proof.
  destruct e as [book|name|text| |c|i|row_id col_id|name]; simpl; try reflexivity.
  - destruct (load_sheet _) as [st'|] eqn:E; simpl; [|reflexivity].
    now rewrite (load_sheet_engines _ _ E).
  - destruct (load_sheet _) as [st'|] eqn:E; simpl; [|reflexivity].
    now rewrite (load_sheet_engines _ _ E).
  - unfold sort_by_column. now destruct (rows_view st).
  - now destruct (Nat.ltb _ _).
  - destruct row_id as [i|]; [|reflexivity].
    destruct (Nat.ltb _ _); [|reflexivity].
    unfold on_right_click. now destruct col_id.
Qed.

Lemma reachable_engines (st : State) : reachable st -> engines_inv st.
Proof.
  induction 1 as [sections de ae | st e _ IH].
  - apply load_engines_inv.
  - unfold engines_inv. now rewrite handle_engines.
Qed.

Lemma dict_get_elem (k v : str) (d : dict) : dict_get k d = Some v -> (k, v) ∈ d.
Proof.
  induction d as [|[k0 v0] d IH]; simpl; [discriminate|].
  destruct (str_eqb k k0) eqn:E.
  - apply str_eqb_eq in E. subst k0. intros [= ->]. left.
  - intros H. right. now apply IH.
Qed.

Lemma dict_get_ok (k v : str) (d : dict) :
  Forall entry_ok d -> dict_get k d = Some v -> contains placeholder v = true.
Proof.
  intros Hd Hk. apply dict_get_elem in Hk.
  rewrite Forall_forall in Hd. exact (Hd _ Hk).
Qed.

Lemma dict_get_first (k v : str) (d : dict) : dict_get k ((k, v) :: d) = Some v.
Proof. simpl. now rewrite str_eqb_refl. Qed.

Lemma startswith_app (p s : str) : startswith p (p ++ s) = true.
Proof. apply startswith_spec. now exists s. Qed.

Lemma contains_app_l (p s : str) : contains p (p ++ s) = true.
Proof.
  destruct (p ++ s) as [|c r] eqn:E; simpl; rewrite <- E, startswith_app; reflexivity.
Qed.

(** Replacing a pattern that occurs leaves the replacement in the result. *)
Lemma replace_from_contains (old new s : str) :
  old <> [] -> contains old s = true ->
  contains new (replace_from old new O s) = true.
Proof.
  intros Hold. induction s as [|c s IH]; intros Hc.
  - simpl in Hc. rewrite orb_false_r in Hc. now destruct old.
  - cbn [replace_from]. destruct (startswith old (c :: s)) eqn:E.
    + apply contains_app_l.
    + simpl in Hc. simpl in E. rewrite E in Hc. simpl in Hc.
      cbn [contains]. rewrite (IH Hc). apply orb_true_r.
Qed.

Lemma template_for_ok (st : State) (engine_name : str) :
  engines_inv st -> contains placeholder (template_for st engine_name) = true.
Proof.
  intros [_ Hok]. unfold template_for.
  destruct (dict_get engine_name (engines st)) as [tpl|] eqn:E;
    [exact (dict_get_ok _ _ _ Hok E) | reflexivity].
Qed.

End SessionRegistry.

(** X5. At start-up the engine shown in the engine box is always one of the
    registry: the engine named in the configuration (or [Google] when none
    is named) if the registry has it, and the first engine of the registry
    otherwise. *)
Theorem init_default_engine_registered
    (sections : list ini_section) (default_engine alt_engine : option str) :
  is_Some (dict_get (engine_var (init sections default_engine alt_engine))
             (load_engines sections))
  /\ (is_Some (dict_get (default (lit "Google") default_engine)
                 (load_engines sections)) ->
      engine_var (init sections default_engine alt_engine)
      = default (lit "Google") default_engine)
  /\ (dict_get (default (lit "Google") default_engine) (load_engines sections) = None ->
      exists tpl rest,
        load_engines sections
        = (engine_var (init sections default_engine alt_engine), tpl) :: rest).
Proof.
  simpl. destruct (load_engines_inv sections) as [Hne _].
  destruct (dict_get (default (lit "Google") default_engine) (load_engines sections))
    as [tpl|] eqn:E.
  - split; [now rewrite E|]. split; [reflexivity | discriminate].
  - destruct (load_engines sections) as [|[n v] d] eqn:El; [easy|].
    split; [rewrite dict_get_first; eauto|].
    split; [intros [x Hx]; discriminate | intros _; now exists v, d].
Qed.

(** The configuration names an engine the file does not define. *)
Lemma init_default_engine_registered_witness :
  dict_get (default (lit "Google") (Some (lit "Yahoo"))) (load_engines []) = None
  /\ engine_var (init [] (Some (lit "Yahoo")) None) = lit "Google"
  /\ engine_var (init [] None None) = lit "Google".
Proof.
  assert (H : dict_get (default (lit "Google") (Some (lit "Yahoo"))) (load_engines [])
              = None) by reflexivity.
  split; [exact H|]. split.
  - destruct (proj2 (proj2 (init_default_engine_registered [] (Some (lit "Yahoo")) None)) H)
      as (tpl & rest & Heq).
    exact (eq_sym (f_equal (fun d : dict => match d with
                                            | (n, _) :: _ => n
                                            | [] => []
                                            end) Heq)).
  - apply (proj1 (proj2 (init_default_engine_registered [] None None))).
    vm_compute. eauto.
Defined.

(** X7. In every session the viewer can reach, for every engine name,
    registered or not, and every query [quote] can encode,
    [_make_search_url] returns a URL in which the percent-encoded query
    occurs: no template loses the query. *)
Theorem search_url_holds_query `{R : Runtime} (st : State) (engine_name query enc : str) :
  reachable st ->
  quote query = Some enc ->
  exists url,
    _make_search_url st engine_name query = Some url /\ occurs_in enc url.
Proof.
  intros Hreach Hq.
  pose proof (template_for_ok st engine_name (reachable_engines st Hreach)) as Htpl.
  exists (replace placeholder enc (template_for st engine_name)). split.
  - unfold _make_search_url, template_for. rewrite Hq.
    now destruct (dict_get engine_name (engines st)).
  - apply contains_spec.
    change (replace placeholder enc (template_for st engine_name))
      with (replace_from placeholder enc O (template_for st engine_name)).
    now apply replace_from_contains.
Qed.

Lemma search_url_holds_query_witness :
  reachable (R := ascii_runtime) demo_session
  /\ quote (lit "a b") = Some (lit "a%20b")
  /\ exists url,
      _make_search_url demo_session (lit "No such engine") (lit "a b") = Some url
      /\ occurs_in (lit "a%20b") url.
Proof.
  split; [exact demo_session_reachable|]. split; [reflexivity|].
  apply (search_url_holds_query (R := ascii_runtime) demo_session
           (lit "No such engine") (lit "a b") (lit "a%20b")
           demo_session_reachable eq_refl).
Defined.

(** ** The grid and the selection *)

Section Grid.
Context {R : Runtime}.

Lemma render_table_grid (st : State) : grid_inv (render_table st).
Proof. split; [reflexivity | discriminate]. Qed.

Lemma load_sheet_grid (st st' : State) :
  grid_inv st -> load_sheet st = Some st' -> grid_inv st'.
Proof.
  intros Hinv. unfold load_sheet.
  destruct (wb st) as [book|]; [|now intros [= <-]].
  destruct (sheet_by_name (sheet_var st) book) as [ws|]; [|discriminate].
  destruct (column_labels _) as [labels|]; [|discriminate].
  intros [= <-]. apply render_table_grid.
Qed.

Lemma handle_grid (st : State) (e : event) : grid_inv st -> grid_inv (handle st e).
Proof.
  intros Hinv. destruct e as [book|name|text| |c|i|row_id col_id|name]; simpl.
  - destruct (load_sheet _) as [st'|] eqn:E; simpl;
      [eapply load_sheet_grid; [|exact E] |]; exact Hinv.
  - destruct (load_sheet _) as [st'|] eqn:E; simpl;
      [eapply load_sheet_grid; [|exact E] |]; exact Hinv.
  - apply render_table_grid.
  - apply render_table_grid.
  - unfold sort_by_column. destruct (rows_view st); [exact Hinv|].
    apply render_table_grid.
  - destruct (Nat.ltb i (length (tree_items st))) eqn:E; [|exact Hinv].
    apply Nat.ltb_lt in E. split; [apply Hinv|]. simpl. now intros j [= <-].
  - destruct row_id as [i|]; [|exact Hinv].
    destruct (Nat.ltb i (length (tree_items st))) eqn:E; [|exact Hinv].
    apply Nat.ltb_lt in E. unfold on_right_click.
    destruct col_id; [exact Hinv|].
    split; [apply Hinv|]. simpl. now intros j [= <-].
  - exact Hinv.
Qed.

Lemma reachable_grid (st : State) : reachable st -> grid_inv st.
Proof.
  induction 1 as [sections de ae | st e _ IH].
  - split; [reflexivity | discriminate].
  - now apply handle_grid.
Qed.

Lemma no_selection_idle (st : State) : tree_selection st = None -> commands_idle st.
Proof.
  intros Hsel.
  assert (Hvals : _get_selected_values st = [])
    by (unfold _get_selected_values; now rewrite Hsel).
  assert (Hraw : _get_selected_cell_text_raw st = [])
    by (unfold _get_selected_cell_text_raw; now rewrite Hvals).
  assert (Htext : _get_selected_cell_text st = [])
    by (unfold _get_selected_cell_text; now rewrite Hraw).
  unfold commands_idle, copy_cell_text, show_full_text, copy_search_url,
    search_default_engine, search_alt_engine, search_with_engine, status_cell_info.
  rewrite Hraw, Htext, Hvals. repeat split; reflexivity.
Qed.

End Grid.

(** X8. In every session the viewer can reach, the grid shows exactly
    [rows_view], the selected item is one of its items, and the values of
    the selected item are a row of [rows_all] carrying its original
    position: the row number the status line prints is the 1-based
    position of the selected row in the sheet, whatever filter or sort is
    in force; and never more rows are shown than the sheet has. *)
Theorem grid_shows_view `{R : Runtime} (st : State) :
  reachable st ->
  tree_items st = rows_view st
  /\ length (rows_view st) <= length (rows_all st)
  /\ (forall i, tree_selection st = Some i ->
      exists r k,
        rows_view st !! i = Some r
        /\ _get_selected_values st = r
        /\ rows_all st !! k = Some r
        /\ r !! 0 = Some (str_of_nat (S k))
        /\ exists info,
            status_cell_info st = Some info
            /\ info_row_no info = str_of_nat (S k)).
Proof.
  intros Hreach.
  destruct (reachable_grid st Hreach) as [Hitems Hsel].
  destruct (reachable_inv st Hreach) as [Hnum Hview].
  split; [exact Hitems|]. split; [now apply submseteq_length|].
  intros i Hi. specialize (Hsel i Hi).
  destruct (lookup_lt_is_Some_2 _ _ Hsel) as [r Hr].
  assert (Hin : r ∈ rows_all st).
  { eapply elem_of_submseteq; [|exact Hview].
    rewrite <- Hitems. eapply list_elem_of_lookup_2. exact Hr. }
  apply list_elem_of_lookup in Hin as [k Hk].
  pose proof (Hnum _ _ Hk) as H0.
  assert (Hvals : _get_selected_values st = r)
    by (unfold _get_selected_values; now rewrite Hi, Hr).
  exists r, k. split; [now rewrite <- Hitems|].
  repeat (split; [assumption|]).
  unfold status_cell_info. rewrite Hvals.
  destruct r as [|v0 cells]; [discriminate|]. simpl in H0. injection H0 as ->.
  eexists. split; reflexivity.
Qed.

(** The demo sheet, filtered and sorted down, with its first item
    selected. *)
Lemma grid_shows_view_witness :
  reachable (R := ascii_runtime) (handle (R := ascii_runtime) demo_view (TreeSelect 0))
  /\ tree_selection (handle (R := ascii_runtime) demo_view (TreeSelect 0)) = Some 0
  /\ exists info,
      status_cell_info (handle (R := ascii_runtime) demo_view (TreeSelect 0)) = Some info
      /\ info_row_no info = lit "2".
Proof.
  assert (H : reachable (R := ascii_runtime)
                (handle (R := ascii_runtime) demo_view (TreeSelect 0))).
  { constructor. apply run_reachable, demo_session_reachable. }
  split; [exact H|]. split; [reflexivity|].
  destruct (grid_shows_view (R := ascii_runtime) _ H) as (_ & _ & Hsel).
  destruct (Hsel 0 eq_refl) as (r & k & _ & _ & _ & _ & info & Hinfo & Hno).
  exists info. split; [exact Hinfo|].
  vm_compute in Hinfo. injection Hinfo as <-. reflexivity.
Defined.

(** X9. Every redraw of the grid drops the selection: after a filter
    keystroke, the clear button, a sort of a view that is not empty, or a
    sheet load, no item is selected.  And whenever no item is selected,
    whatever the column reference, copy, full text, copy of the URL and
    the two keyboard searches do nothing, the menu search only shows its
    notice, and the status line has no cell part. *)
Theorem redraw_drops_selection `{R : Runtime} (st : State) :
  (forall text, tree_selection (handle st (FilterKeyRelease text)) = None)
  /\ tree_selection (handle st ClearButton) = None
  /\ (forall c, rows_view st <> [] -> tree_selection (handle st (HeadingClick c)) = None)
  /\ (forall st', wb st <> None -> load_sheet st = Some st' -> tree_selection st' = None)
  /\ (tree_selection st = None -> commands_idle st).
Proof.
  split; [reflexivity|]. split; [reflexivity|]. split; [|split].
  - intros c Hne. simpl. unfold sort_by_column.
    destruct (rows_view st); [easy | reflexivity].
  - intros st' Hwb. unfold load_sheet. destruct (wb st) as [book|]; [|easy].
    destruct (sheet_by_name (sheet_var st) book) as [ws|]; [|discriminate].
    destruct (column_labels _) as [labels|]; [|discriminate].
    now intros [= <-].
  - apply no_selection_idle.
Qed.

(** A row is selected, then one more character is typed into the filter:
    the row is still shown, but copying does nothing any more. *)
Lemma redraw_drops_selection_witness :
  copy_cell_text demo_selected = SetClipboard (lit "Banana")
  /\ [lit "2"; lit "Banana"; lit "b"; lit "ripe"] ∈ rows_view demo_selected_then_filtered
  /\ tree_selection demo_selected_then_filtered = None
  /\ copy_cell_text demo_selected_then_filtered = Nothing.
Proof.
  split; [reflexivity|]. split; [vm_compute; left|].
  destruct (redraw_drops_selection (R := ascii_runtime) demo_selected_then_filtered)
    as (_ & _ & _ & _ & Hidle).
  assert (Hsel : tree_selection demo_selected_then_filtered = None) by reflexivity.
  split; [exact Hsel|].
  destruct (Hidle Hsel) as (_ & Hcopy & _). exact Hcopy.
Defined.

(** ** Right click and the cell commands *)

Section CellCommands.
Context {R : Runtime}.

Lemma raw_text_negative (st : State) :
  (cell_column st < 0)%Z -> _get_selected_cell_text_raw st = [].
Proof.
  intros Hci. unfold _get_selected_cell_text_raw.
  destruct (_get_selected_values st); [reflexivity|].
  now rewrite (proj2 (Z.leb_gt _ _) Hci).
Qed.

Lemma normalize_all_space (s : str) :
  Forall (fun c => is_space c = true) s -> normalize_query s = [].
Proof.
  intros Hall.
  assert (E : non_space (normalize_query s) = []).
  { rewrite normalize_non_space. unfold non_space.
    induction Hall as [|c s Hc _ IH]; simpl; [reflexivity|]. now rewrite Hc. }
  pose proof (normalize_lstrip s) as Hl.
  pose proof (lstrip_head (normalize_query s)) as Hh.
  rewrite Hl in Hh. destruct (normalize_query s) as [|x r]; [reflexivity|].
  unfold non_space in E. simpl in E. rewrite Hh in E. discriminate.
Qed.

End CellCommands.

(** X10. A right click on an item selects it and makes the column under
    the pointer the column reference: when the toolkit reports column
    [#n], the reference becomes [n - 1] and the raw cell text is the cell
    of the item at that index, or the empty string when the item has no
    such cell or [n] is 0 (a negative reference never reads from the end
    of the row).  When the column identifier is not a number the reference
    falls back to column 1. *)
Theorem right_click_reads_clicked_cell `{R : Runtime}
    (st : State) (i : nat) (item : row) (c0 : N) (digits : str) :
  tree_items st !! i = Some item ->
  tree_selection (handle st (RightClick (Some i) (c0 :: digits))) = Some i
  /\ _get_selected_values (handle st (RightClick (Some i) (c0 :: digits))) = item
  /\ (forall n,
      py_int digits = Some n ->
      _rc_col_index (handle st (RightClick (Some i) (c0 :: digits))) = Some (n - 1)%Z
      /\ _get_selected_cell_text_raw (handle st (RightClick (Some i) (c0 :: digits)))
         = if (1 <=? n)%Z then default [] (item !! Z.to_nat (n - 1)) else [])
  /\ (py_int digits = None ->
      _rc_col_index (handle st (RightClick (Some i) (c0 :: digits))) = Some 1%Z
      /\ _get_selected_cell_text_raw (handle st (RightClick (Some i) (c0 :: digits)))
         = default [] (item !! 1)).
Proof.
  intros Hitem.
  assert (Hlt : Nat.ltb i (length (tree_items st)) = true).
  { apply Nat.ltb_lt. now apply lookup_lt_Some in Hitem. }
  simpl. rewrite Hlt.
  set (rc := match py_int digits with Some n => (n - 1)%Z | None => 1%Z end).
  set (st' := select_item i (Some rc) st).
  assert (Hvals : _get_selected_values st' = item).
  { unfold _get_selected_values. simpl. now rewrite Hitem. }
  split; [reflexivity|]. split; [exact Hvals|]. split.
  - intros n Hn. subst rc st'. rewrite Hn in *. split; [reflexivity|].
    destruct (Z.leb_spec 1 n) as [H1|H1].
    + rewrite raw_text_lookup by (unfold cell_column; simpl; lia).
      now rewrite Hvals.
    + apply raw_text_negative. unfold cell_column. simpl. lia.
  - intros Hn. subst rc st'. rewrite Hn in *. split; [reflexivity|].
    rewrite raw_text_lookup by (unfold cell_column; simpl; lia).
    now rewrite Hvals.
Qed.

(** Column [#3] of the first row of the demo sheet. *)
Lemma right_click_reads_clicked_cell_witness :
  tree_items demo_selected !! 0 = Some [lit "1"; lit "apple"; lit "red"; []]
  /\ py_int (Runtime := ascii_runtime) (lit "3") = Some 3%Z
  /\ _get_selected_cell_text_raw
       (handle (R := ascii_runtime) demo_selected (RightClick (Some 0) (lit "#3")))
     = lit "red"
  /\ _get_selected_cell_text_raw
       (handle (R := ascii_runtime) demo_selected (RightClick (Some 0) (lit "#x")))
     = lit "apple".
Proof.
  assert (Hitem : tree_items demo_selected !! 0
                  = Some [lit "1"; lit "apple"; lit "red"; []]) by reflexivity.
  split; [exact Hitem|]. split; [reflexivity|]. split.
  - destruct (right_click_reads_clicked_cell (R := ascii_runtime)
                demo_selected 0 _ 35%N (lit "3") Hitem) as (_ & _ & Hnum & _).
    destruct (Hnum 3%Z eq_refl) as [_ Hraw]. exact Hraw.
  - destruct (right_click_reads_clicked_cell (R := ascii_runtime)
                demo_selected 0 _ 35%N (lit "x") Hitem) as (_ & _ & _ & Hbad).
    destruct (Hbad eq_refl) as [_ Hraw]. exact Hraw.
Defined.

(** X11. A selected cell that holds white space only can be copied and
    shown in full, as it stands, but it cannot be searched: the keyboard
    searches and the copy of the URL do nothing and the menu search shows
    its notice. *)
Theorem blank_cell_is_copied_not_searched (st : State) :
  _get_selected_cell_text_raw st <> [] ->
  Forall (fun c => is_space c = true) (_get_selected_cell_text_raw st) ->
  copy_cell_text st = SetClipboard (_get_selected_cell_text_raw st)
  /\ show_full_text st = ShowText (_get_selected_cell_text_raw st)
  /\ search_default_engine st = Nothing
  /\ search_alt_engine st = Nothing
  /\ copy_search_url st = Nothing
  /\ (forall name, search_with_engine st name = ShowInfo).
Proof.
  intros Hne Hall.
  assert (Htext : _get_selected_cell_text st = [])
    by (unfold _get_selected_cell_text; now apply normalize_all_space).
  unfold copy_cell_text, show_full_text, search_default_engine, search_alt_engine,
    copy_search_url, search_with_engine. rewrite Htext.
  destruct (_get_selected_cell_text_raw st); [easy|]. repeat split; reflexivity.
Qed.

Lemma blank_cell_is_copied_not_searched_witness :
  _get_selected_cell_text_raw blank_cell_session <> []
  /\ Forall (fun c => is_space c = true) (_get_selected_cell_text_raw blank_cell_session)
  /\ copy_cell_text blank_cell_session = SetClipboard (lit "  ")
  /\ search_default_engine blank_cell_session = Nothing.
Proof.
  assert (H1 : _get_selected_cell_text_raw blank_cell_session <> []) by discriminate.
  assert (H2 : Forall (fun c => is_space c = true)
                 (_get_selected_cell_text_raw blank_cell_session))
    by (repeat constructor).
  split; [exact H1|]. split; [exact H2|].
  destruct (blank_cell_is_copied_not_searched blank_cell_session H1 H2)
    as (Hcopy & _ & Hsearch & _).
  split; [rewrite Hcopy; reflexivity | exact Hsearch].
Defined.

(** ** More on sorting *)

Section SortMore.
Context {A K : Type} `{EqDecision K} (leb : K -> K -> bool) (key : A -> K).
Hypothesis leb_total : forall a b, leb a b = true \/ leb b a = true.
Hypothesis leb_trans : forall a b c, leb a b = true -> leb b c = true -> leb a c = true.
Hypothesis leb_antisym : forall a b, leb a b = true -> leb b a = true -> a = b.

Lemma with_key_elem (k : K) (l : list A) (x : A) :
  x ∈ with_key key k l <-> x ∈ l /\ key x = k.
Proof.
  unfold with_key. rewrite elem_of_filter_bool, bool_decide_eq_true. tauto.
Qed.

Lemma with_key_head (x : A) (l : list A) :
  with_key key (key x) (x :: l) = x :: with_key key (key x) l.
Proof. unfold with_key. simpl. now rewrite bool_decide_eq_true_2. Qed.

(** A sorted list is fixed by its elements of each key. *)
Lemma sorted_with_key_unique (l1 l2 : list A) :
  StronglySorted (key_le leb key) l1 -> StronglySorted (key_le leb key) l2 ->
  (forall k, with_key key k l1 = with_key key k l2) -> l1 = l2.
Proof.
  intros Hl1. revert l2. induction Hl1 as [|x l1 Hl1 IH Hx]; intros l2 Hl2 Hk.
  - destruct l2 as [|y l2]; [reflexivity|].
    specialize (Hk (key y)). rewrite with_key_head in Hk. discriminate.
  - destruct Hl2 as [|y l2 Hl2 Hy].
    { specialize (Hk (key x)). rewrite with_key_head in Hk. discriminate. }
    assert (Hxy : key x = key y).
    { rewrite Forall_forall in Hx, Hy.
      assert (Hx2 : x ∈ y :: l2).
      { apply (with_key_elem (key x)). rewrite <- Hk, with_key_head. left. }
      assert (Hy1 : y ∈ x :: l1).
      { apply (with_key_elem (key y)). rewrite Hk, with_key_head. left. }
      apply elem_of_cons in Hx2 as [->|Hx2]; [reflexivity|].
      apply elem_of_cons in Hy1 as [->|Hy1]; [reflexivity|].
      apply leb_antisym; [exact (Hx _ Hy1) | exact (Hy _ Hx2)]. }
    assert (x = y).
    { pose proof (Hk (key x)) as E. rewrite with_key_head in E.
      rewrite Hxy, with_key_head in E. now injection E. }
    subst y. f_equal. apply IH; [exact Hl2|].
    intros k. specialize (Hk k). unfold with_key in *. simpl in Hk.
    destruct (bool_decide (key x = k)); [now injection Hk | exact Hk].
Qed.

(** The result of a sort depends on its argument only through the order of
    the elements of each key. *)
Lemma list_sort_determined (reverse : bool) (l l' : list A) :
  (forall k, with_key key k l' = with_key key k l) ->
  list_sort leb key reverse l' = list_sort leb key reverse l.
Proof.
  intros Hk. unfold list_sort. destruct reverse.
  - f_equal. apply sorted_with_key_unique;
      try (apply stable_sort_sorted; assumption).
    intros k. rewrite !stable_sort_with_key by assumption.
    unfold with_key in *. rewrite !filter_rev. f_equal. apply Hk.
  - apply sorted_with_key_unique; try (apply stable_sort_sorted; assumption).
    intros k. rewrite !stable_sort_with_key by assumption. apply Hk.
Qed.

(** Sorting a sorted list again, in either direction, gives what sorting
    the original list in that direction gives. *)
Lemma list_sort_absorbs (r r' : bool) (l : list A) :
  list_sort leb key r (list_sort leb key r' l) = list_sort leb key r l.
Proof.
  apply list_sort_determined. intros k. now apply list_sort_with_key.
Qed.

Lemma sorted_by_lookup (Rel : relation A) (l : list A) :
  (forall i j x y, i < j -> l !! i = Some x -> l !! j = Some y -> Rel x y) ->
  StronglySorted Rel l.
Proof.
  induction l as [|x l IH]; intros H; constructor.
  - apply IH. intros i j a b Hij Ha Hb. apply (H (S i) (S j)); [lia | exact Ha | exact Hb].
  - apply Forall_forall. intros y Hy. apply list_elem_of_lookup in Hy as [j Hj].
    apply (H 0 (S j)); [lia | reflexivity | exact Hj].
Qed.

Lemma sublist_same_length (l1 l2 : list A) :
  sublist l1 l2 -> length l2 <= length l1 -> l1 = l2.
Proof.
  induction 1 as [|x l1 l2 Hs IH|x l1 l2 Hs IH]; simpl; intros Hlen.
  - reflexivity.
  - f_equal. apply IH. lia.
  - apply sublist_length in Hs. lia.
Qed.

Lemma filter_sublist_impl (f g : A -> bool) (l : list A) :
  (forall x, f x = true -> g x = true) ->
  sublist (List.filter f l) (List.filter g l).
Proof.
  intros Hfg. induction l as [|x l IH]; simpl; [constructor|].
  destruct (f x) eqn:Ef.
  - rewrite (Hfg x Ef). now constructor.
  - destruct (g x); [now constructor | exact IH].
Qed.

End SortMore.

(** ** More on sorting and filtering the view *)

Section ViewMore.
Context {R : Runtime}.

Lemma sort_by_column_nonempty (c : nat) (st : State) :
  rows_view st <> [] ->
  sort_by_column c st
  = render_table
      {| engines := engines st; engine_var := engine_var st;
         cfg_alt_engine := cfg_alt_engine st;
         wb := wb st; sheet_var := sheet_var st;
         headers := headers st; rows_all := rows_all st;
         rows_view := sort_rows c (default true (_sort_state st !! c)) (rows_view st);
         filter_var := filter_var st;
         _rc_col_index := _rc_col_index st;
         _sort_state := <[c := negb (default true (_sort_state st !! c))]> (_sort_state st);
         tree_items := tree_items st;
         tree_selection := tree_selection st |}.
Proof. unfold sort_by_column. now destruct (rows_view st). Qed.

Lemma sort_rows_not_nil (c : nat) (asc : bool) (rows : list row) :
  rows <> [] -> sort_rows c asc rows <> [].
Proof.
  intros Hne E. pose proof (sort_rows_perm c asc rows) as Hp.
  rewrite E in Hp. apply Permutation_nil in Hp. contradiction.
Qed.

Lemma sort_rows_absorbs (c : nat) (a a' : bool) (rows : list row) :
  sort_rows c a (sort_rows c a' rows) = sort_rows c a rows.
Proof.
  rewrite !sort_rows_by_sort_key.
  apply (list_sort_absorbs key_leb (sort_key c)
           key_leb_total key_leb_trans key_leb_antisym).
Qed.

Lemma sort_by_column_frame (c : nat) (st : State) :
  rows_all (sort_by_column c st) = rows_all st
  /\ headers (sort_by_column c st) = headers st
  /\ filter_var (sort_by_column c st) = filter_var st
  /\ _rc_col_index (sort_by_column c st) = _rc_col_index st.
Proof. unfold sort_by_column. now destruct (rows_view st). Qed.

Lemma occurs_in_trans (a b c : str) : occurs_in a b -> occurs_in b c -> occurs_in a c.
Proof.
  intros (p1 & q1 & ->) (p2 & q2 & ->). exists (p2 ++ p1), (q1 ++ q2).
  now rewrite <- !app_assoc.
Qed.

Lemma Z_leb_total (a b : Z) : (a <=? b)%Z = true \/ (b <=? a)%Z = true.
Proof. rewrite !Z.leb_le. lia. Qed.

Lemma Z_leb_trans (a b c : Z) :
  (a <=? b)%Z = true -> (b <=? c)%Z = true -> (a <=? c)%Z = true.
Proof. rewrite !Z.leb_le. lia. Qed.

Lemma key_int_numbered (st : State) (k : nat) (r : row) :
  numbered (rows_all st) -> reads_row_numbers st ->
  rows_all st !! k = Some r -> key_int r = Z.of_nat (S k).
Proof.
  intros Hn Hread Hk. pose proof (Hn _ _ Hk) as H0.
  destruct r as [|n cells]; [discriminate|]. simpl in H0. injection H0 as ->.
  simpl. rewrite Hread; [reflexivity|]. apply lookup_lt_Some in Hk. lia.
Qed.

End ViewMore.

(** X12. Three clicks on a column header leave the session exactly as one
    click does, and two clicks show the rows as one click in the other
    direction would have: from the second click on, the view alternates
    between the same two orderings. *)
Theorem sort_by_column_three_clicks `{R : Runtime} (st : State) (c : nat) :
  sort_by_column c (sort_by_column c (sort_by_column c st)) = sort_by_column c st
  /\ rows_view (sort_by_column c (sort_by_column c st))
     = sort_rows c (negb (default true (_sort_state st !! c))) (rows_view st).
Proof.
  destruct (rows_view st) as [|r rows] eqn:E.
  { assert (Hst : sort_by_column c st = st)
      by (unfold sort_by_column; now rewrite E).
    rewrite !Hst, E. split; [reflexivity|].
    destruct c; unfold sort_rows, list_sort; now destruct (negb _). }
  assert (Hne : rows_view st <> []) by now rewrite E.
  set (a := default true (_sort_state st !! c)).
  pose proof (sort_by_column_nonempty c st Hne) as H1. fold a in H1.
  assert (Hv1 : rows_view (sort_by_column c st) = sort_rows c a (rows_view st))
    by now rewrite H1.
  assert (Hs1 : _sort_state (sort_by_column c st) = <[c := negb a]> (_sort_state st))
    by now rewrite H1.
  assert (Hne1 : rows_view (sort_by_column c st) <> [])
    by (rewrite Hv1; now apply sort_rows_not_nil).
  pose proof (sort_by_column_nonempty c _ Hne1) as H2.
  rewrite Hs1, lookup_insert_eq, Hv1, sort_rows_absorbs in H2. simpl in H2.
  assert (Hv2 : rows_view (sort_by_column c (sort_by_column c st))
                = sort_rows c (negb a) (rows_view st)) by now rewrite H2.
  split; [|rewrite <- E; exact Hv2].
  assert (Hne2 : rows_view (sort_by_column c (sort_by_column c st)) <> [])
    by (rewrite Hv2; now apply sort_rows_not_nil).
  rewrite (sort_by_column_nonempty c _ Hne2).
  rewrite Hv2, sort_rows_absorbs, H2. simpl.
  rewrite lookup_insert_eq. simpl.
  rewrite !insert_insert_eq, !negb_involutive.
  rewrite H1. unfold render_table. simpl. reflexivity.
Qed.

(** X13. A click on a column header changes the order of [rows_view] and
    nothing else of the rows: the view keeps its members, and [rows_all],
    the headers, the filter text and the column reference are untouched.
    It flips the remembered direction of that column and of no other
    column; on an empty view it does nothing at all, the direction
    included. *)
Theorem sort_by_column_bookkeeping `{R : Runtime} (st : State) (c : nat) :
  rows_view (sort_by_column c st) ≡ₚ rows_view st
  /\ rows_all (sort_by_column c st) = rows_all st
  /\ headers (sort_by_column c st) = headers st
  /\ filter_var (sort_by_column c st) = filter_var st
  /\ _rc_col_index (sort_by_column c st) = _rc_col_index st
  /\ (forall c', c' <> c ->
      _sort_state (sort_by_column c st) !! c' = _sort_state st !! c')
  /\ (rows_view st <> [] ->
      default true (_sort_state (sort_by_column c st) !! c)
      = negb (default true (_sort_state st !! c)))
  /\ (rows_view st = [] -> sort_by_column c st = st).
Proof.
  destruct (sort_by_column_frame c st) as (Ha & Hh & Hf & Hrc).
  split; [rewrite sort_by_column_view; apply sort_rows_perm|].
  repeat (split; [assumption|]). split; [|split].
  - intros c' Hc. unfold sort_by_column. destruct (rows_view st); [reflexivity|].
    simpl. now rewrite lookup_insert_ne.
  - intros Hne. rewrite (sort_by_column_nonempty c st Hne). simpl.
    now rewrite lookup_insert_eq.
  - intros E. unfold sort_by_column. now rewrite E.
Qed.

(** X14. When [int] reads the row numbers back and the next direction of
    column [#] is ascending, a click on [#] puts the view back into sheet
    order: the view becomes a sublist of [rows_all], and [rows_all] itself
    when no row is filtered out. *)
Theorem sort_by_row_number_restores_order `{R : Runtime} (st : State) :
  reachable st ->
  reads_row_numbers st ->
  default true (_sort_state st !! 0) = true ->
  sublist (rows_view (sort_by_column 0 st)) (rows_all st)
  /\ (length (rows_all st) <= length (rows_view st) ->
      rows_view (sort_by_column 0 st) = rows_all st).
Proof.
  intros Hreach Hread Hasc.
  destruct (reachable_inv st Hreach) as [Hn Hv].
  apply submseteq_sublist_r in Hv as (l & Hperm & Hsub).
  assert (Hall : StronglySorted (key_le Z.leb key_int) (rows_all st)).
  { apply sorted_by_lookup. intros i j x y Hij Hx Hy. unfold key_le.
    rewrite (key_int_numbered st i x Hn Hread Hx), (key_int_numbered st j y Hn Hread Hy).
    apply Z.leb_le. lia. }
  assert (Hl : StronglySorted (key_le Z.leb key_int) l)
    by (eapply sorted_sublist; eassumption).
  assert (Hview : rows_view (sort_by_column 0 st)
                  = stable_sort Z.leb key_int (rows_view st)).
  { now rewrite sort_by_column_view, Hasc. }
  assert (Heq : rows_view (sort_by_column 0 st) = l).
  { rewrite Hview. apply (StronglySorted_unique_strong (key_le Z.leb key_int)).
    - intros x y Hx Hy Hxy Hyx. unfold key_le in *.
      apply Z.leb_le in Hxy, Hyx.
      rewrite stable_sort_perm, Hperm in Hx.
      apply (elem_of_sublist _ _ _ Hx) in Hsub as Hx'.
      apply (elem_of_sublist _ _ _ Hy) in Hsub as Hy'.
      apply list_elem_of_lookup in Hx' as [i Hi], Hy' as [j Hj].
      rewrite (key_int_numbered st i x Hn Hread Hi) in Hxy, Hyx.
      rewrite (key_int_numbered st j y Hn Hread Hj) in Hxy, Hyx.
      assert (i = j) by lia. subst j. congruence.
    - apply stable_sort_sorted; [apply Z_leb_total | apply Z_leb_trans].
    - exact Hl.
    - now rewrite stable_sort_perm. }
  rewrite Heq. split; [exact Hsub|].
  intros Hlen. apply sublist_same_length; [exact Hsub|].
  apply Permutation_length in Hperm. lia.
Qed.

Lemma demo_reads_row_numbers (st : State) :
  length (rows_all st) = 3 -> reads_row_numbers (R := ascii_runtime) st.
Proof.
  intros Hlen n Hn. rewrite Hlen in Hn.
  destruct n as [|[|[|[|n]]]]; try reflexivity. lia.
Qed.

(** The demo sheet sorted on [A] twice (descending) and then on [#]. *)
Lemma sort_by_row_number_restores_order_witness :
  reachable (R := ascii_runtime)
    (run (R := ascii_runtime) demo_session [HeadingClick 1; HeadingClick 1])
  /\ rows_view (run (R := ascii_runtime) demo_session [HeadingClick 1; HeadingClick 1])
     <> rows_all demo_session
  /\ rows_view demo_sorted_back = rows_all demo_sorted_back.
Proof.
  assert (H : reachable (R := ascii_runtime)
                (run (R := ascii_runtime) demo_session [HeadingClick 1; HeadingClick 1]))
    by (apply run_reachable, demo_session_reachable).
  split; [exact H|]. split; [discriminate|].
  destruct (sort_by_row_number_restores_order (R := ascii_runtime) _ H
              (demo_reads_row_numbers
                 (run (R := ascii_runtime) demo_session [HeadingClick 1; HeadingClick 1])
                 eq_refl) eq_refl) as [_ Hall].
  apply Hall. vm_compute. lia.
Defined.

(** X15. Filtering rebuilds the view from [rows_all]: applying the filter
    a second time changes nothing, a sort done before has no effect on
    what the filter shows (the rows come back in sheet order), and the
    remembered sort directions are left as they were. *)
Theorem apply_filter_rebuilds_view `{R : Runtime} (st : State) :
  apply_filter (apply_filter st) = apply_filter st
  /\ (forall c,
      rows_view (apply_filter (sort_by_column c st)) = rows_view (apply_filter st))
  /\ sublist (rows_view (apply_filter st)) (rows_all st)
  /\ _sort_state (apply_filter st) = _sort_state st
  /\ rows_all (apply_filter st) = rows_all st
  /\ headers (apply_filter st) = headers st
  /\ _rc_col_index (apply_filter st) = _rc_col_index st.
Proof.
  split; [reflexivity|]. split; [|split; [|repeat split]].
  - intros c. destruct (sort_by_column_frame c st) as (Ha & _ & Hf & _).
    simpl. now rewrite Ha, Hf.
  - simpl. destruct (lower (strip (filter_var st))); [reflexivity | apply filter_sublist].
Qed.

(** X16. A longer query narrows the view: when the lower-cased trimmed
    text of one filter occurs in that of another, every row the second
    filter shows is shown by the first, in the same order. *)
Theorem apply_filter_narrows `{R : Runtime} (st : State) (t1 t2 : str) :
  occurs_in (lower (strip t1)) (lower (strip t2)) ->
  sublist (rows_view (apply_filter (set_filter_var t2 st)))
          (rows_view (apply_filter (set_filter_var t1 st))).
Proof.
  intros Hocc. simpl.
  destruct (lower (strip t1)) as [|a q1] eqn:E1.
  { destruct (lower (strip t2)); [reflexivity | apply filter_sublist]. }
  destruct (lower (strip t2)) as [|b q2] eqn:E2.
  { destruct Hocc as (pre & post & Heq). now destruct pre. }
  apply filter_sublist_impl. intros r. unfold row_matches.
  rewrite !contains_spec. now apply occurs_in_trans.
Qed.

Lemma apply_filter_narrows_witness :
  occurs_in (lower (Runtime := ascii_runtime) (strip (lit "AN")))
            (lower (Runtime := ascii_runtime) (strip (lit " Ban ")))
  /\ sublist
       (rows_view (apply_filter (R := ascii_runtime) (set_filter_var (lit " Ban ") demo_session)))
       (rows_view (apply_filter (R := ascii_runtime) (set_filter_var (lit "AN") demo_session))).
Proof.
  assert (H : occurs_in (lower (Runtime := ascii_runtime) (strip (lit "AN")))
                (lower (Runtime := ascii_runtime) (strip (lit " Ban "))))
    by (now exists (lit "b"), []).
  split; [exact H|].
  exact (apply_filter_narrows (R := ascii_runtime) demo_session _ _ H).
Defined.

(** ** More on the sheet load *)

Section LoadMore.
Context {R : Runtime}.

Lemma number_rows_length (i : nat) (values : list row) :
  length (number_rows i values) = length values.
Proof.
  revert i. induction values as [|r values IH]; intros i; simpl; [reflexivity|].
  now rewrite IH.
Qed.

Lemma number_rows_lookup_map (f : row -> row) (values : list row) (i j : nat) (raw : row) :
  values !! j = Some raw ->
  number_rows i (List.map f values) !! j = Some (str_of_nat (i + j) :: f raw).
Proof.
  revert i j. induction values as [|v values IH]; intros i j; simpl; [easy|].
  destruct j as [|j]; simpl.
  - intros [= ->]. now rewrite Nat.add_0_r.
  - intros H. rewrite (IH (S i) j H). now rewrite Nat.add_succ_r.
Qed.

Lemma number_rows_shape (k i : nat) (values : list row) :
  Forall (fun r : row => 1 <= length r <= S k)
    (number_rows i (List.map (take k) values)).
Proof.
  revert i. induction values as [|v values IH]; intros i; simpl; constructor.
  - simpl. rewrite length_take. lia.
  - apply IH.
Qed.

Lemma col_empty_perm (values values' : list row) (ci : nat) :
  values ≡ₚ values' -> col_empty values ci = col_empty values' ci.
Proof.
  intros Hp.
  destruct (col_empty values ci) eqn:E, (col_empty values' ci) eqn:E';
    try reflexivity.
  - apply col_empty_spec in E. rewrite Hp in E. apply col_empty_spec in E. congruence.
  - apply col_empty_spec in E'. rewrite <- Hp in E'. apply col_empty_spec in E'.
    congruence.
Qed.

Lemma trim_last_col_perm (values values' : list row) (n : nat) :
  values ≡ₚ values' -> trim_last_col values n = trim_last_col values' n.
Proof.
  intros Hp. induction n as [|n IH]; simpl; [reflexivity|].
  rewrite (col_empty_perm _ _ n Hp), IH. reflexivity.
Qed.

Lemma col_empty_blank_row (values : list row) (r : row) (ci : nat) :
  Forall (fun cell => cell = []) r ->
  col_empty (r :: values) ci = col_empty values ci.
Proof.
  intros Hr. simpl. destruct (r !! ci) as [[|c cell]|] eqn:E; try reflexivity.
  rewrite Forall_forall in Hr.
  apply list_elem_of_lookup_2 in E. now apply Hr in E.
Qed.

Lemma load_sheet_shape (st st' : State) :
  shape_inv st -> load_sheet st = Some st' -> shape_inv st'.
Proof.
  intros Hinv. unfold load_sheet.
  destruct (wb st) as [book|]; [|now intros [= <-]].
  destruct (sheet_by_name (sheet_var st) book) as [ws|]; [|discriminate].
  destruct (column_labels _) as [labels|] eqn:El; [|discriminate].
  intros [= <-]. unfold shape_inv. simpl.
  assert (Hlen : length labels
                 = trim_last_col (cell_rows ws) (default 0 (max_column ws))).
  { clear -El. revert labels El.
    generalize (trim_last_col (cell_rows ws) (default 0 (max_column ws))) as k.
    intros k. generalize 1 as start. induction k as [|k IH]; intros start labels; simpl.
    - now intros [= <-].
    - destruct (get_column_letter start); [|discriminate].
      destruct (column_labels (seq (S start) k)) as [ls|] eqn:E; [|discriminate].
      intros [= <-]. simpl. f_equal. now apply (IH (S start)). }
  rewrite Hlen. apply number_rows_shape.
Qed.

Lemma handle_shape (st : State) (e : event) : shape_inv st -> shape_inv (handle st e).
Proof.
  intros Hinv. destruct e as [book|name|text| |c|i|row_id col_id|name]; simpl;
    try exact Hinv.
  - destruct (load_sheet _) as [st'|] eqn:E; simpl;
      [eapply load_sheet_shape; [|exact E] |]; exact Hinv.
  - destruct (load_sheet _) as [st'|] eqn:E; simpl;
      [eapply load_sheet_shape; [|exact E] |]; exact Hinv.
  - unfold sort_by_column. now destruct (rows_view st).
  - now destruct (Nat.ltb _ _).
  - destruct row_id as [i|]; [|exact Hinv].
    destruct (Nat.ltb _ _); [|exact Hinv].
    unfold on_right_click. now destruct col_id.
Qed.

Lemma reachable_shape (st : State) : reachable st -> shape_inv st.
Proof.
  induction 1 as [sections de ae | st e _ IH]; [constructor | now apply handle_shape].
Qed.

End LoadMore.

(** X17. A sheet load keeps every raw row, blank ones included, at its
    place: [rows_all] has as many rows as the sheet, and row [i] is the
    number [i + 1] followed by the first cells of raw row [i], up to the
    number of kept columns, so that the cell of column [j] stays at index
    [j + 1]. *)
Theorem load_sheet_keeps_rows (st : State) (ws : worksheet) :
  can_load st ws ->
  exists st',
    load_sheet st = Some st'
    /\ length (rows_all st') = length (cell_rows ws)
    /\ length (headers st') = S (kept_columns ws)
    /\ forall i raw,
        cell_rows ws !! i = Some raw ->
        rows_all st' !! i = Some (str_of_nat (S i) :: take (kept_columns ws) raw)
        /\ forall j, j < kept_columns ws ->
             (str_of_nat (S i) :: take (kept_columns ws) raw) !! S j = raw !! j.
Proof.
  intros Hcan.
  destruct (load_sheet_loaded st ws Hcan)
    as (labels & st' & _ & Hlen & Hload & Hh & Hrows & _).
  exists st'. split; [exact Hload|]. rewrite Hrows, Hh. split; [|split].
  - now rewrite number_rows_length, length_map.
  - simpl. now rewrite Hlen.
  - intros i raw Hraw. split.
    + now rewrite (number_rows_lookup_map _ _ 1 i raw Hraw).
    + intros j Hj. simpl. now apply lookup_take_lt.
Qed.

Lemma load_sheet_keeps_rows_witness :
  can_load (set_sheet (Some demo_book) (lit "Sheet1") demo_start) demo_sheet
  /\ exists st',
      load_sheet (set_sheet (Some demo_book) (lit "Sheet1") demo_start) = Some st'
      /\ length (rows_all st') = 3
      /\ rows_all st' !! 2 = Some [lit "3"; lit "cherry"; []; []].
Proof.
  split; [exact demo_can_load|].
  destruct (load_sheet_keeps_rows _ _ demo_can_load) as (st' & Hload & Hlen & _ & Hrow).
  exists st'. split; [exact Hload|]. split; [exact Hlen|].
  destruct (Hrow 2 [lit "cherry"; []; []; []; []] eq_refl) as [Hr _]. exact Hr.
Defined.

(** X18. The number of columns a load keeps does not depend on the order of
    the rows, nor on rows that hold no text at all: two sheets with the same
    column count whose rows are a rearrangement of each other keep the same
    columns, and so does a sheet with one more blank row. *)
Theorem kept_columns_ignore_row_order (ws ws' : worksheet) :
  max_column ws = max_column ws' ->
  (cell_rows ws ≡ₚ cell_rows ws' -> kept_columns ws = kept_columns ws')
  /\ (forall r, Forall (fun cell => cell = []) r ->
      cell_rows ws' = r :: cell_rows ws -> kept_columns ws = kept_columns ws').
Proof.
  intros Hmax. unfold kept_columns. rewrite Hmax. split.
  - apply trim_last_col_perm.
  - intros r Hr ->. induction (default 0 (max_column ws')) as [|n IH];
      [reflexivity|].
    cbn [trim_last_col]. rewrite (col_empty_blank_row _ r n Hr), IH. reflexivity.
Qed.

Lemma kept_columns_ignore_row_order_witness :
  max_column demo_sheet = max_column demo_sheet_shuffled
  /\ cell_rows demo_sheet ≡ₚ cell_rows demo_sheet_shuffled
  /\ kept_columns demo_sheet_shuffled = 3
  /\ kept_columns demo_sheet_padded = 3.
Proof.
  assert (H : max_column demo_sheet = max_column demo_sheet_shuffled) by reflexivity.
  assert (Hp : cell_rows demo_sheet ≡ₚ cell_rows demo_sheet_shuffled).
  { symmetry. apply (Permutation_cons_append
                       [ [lit "apple"; lit "red"; []; []; []];
                         [lit "Banana"; lit "b"; lit "ripe"; []; []] ]). }
  split; [exact H|]. split; [exact Hp|]. split.
  - rewrite <- (proj1 (kept_columns_ignore_row_order demo_sheet demo_sheet_shuffled H) Hp).
    reflexivity.
  - rewrite <- (proj2 (kept_columns_ignore_row_order demo_sheet demo_sheet_padded eq_refl)
                  [] (Forall_nil_2 _) eq_refl).
    reflexivity.
Defined.

(** X19. Loading the sheet that is already loaded changes nothing: a
    second load right after a load that went through gives the same
    session. *)
Theorem load_sheet_twice (st st' : State) :
  wb st <> None -> load_sheet st = Some st' -> load_sheet st' = Some st'.
Proof.
  intros Hwb. unfold load_sheet at 1.
  destruct (wb st) as [book|] eqn:Ewb; [|easy].
  destruct (sheet_by_name (sheet_var st) book) as [ws|] eqn:Ews; [|discriminate].
  destruct (column_labels _) as [labels|] eqn:El; [|discriminate].
  intros [= <-]. unfold load_sheet. simpl. rewrite ?Ewb, ?Ews, ?El. reflexivity.
Qed.

Lemma load_sheet_twice_witness :
  wb (set_sheet (Some demo_book) (lit "Sheet1") demo_start) <> None
  /\ exists st',
      load_sheet (set_sheet (Some demo_book) (lit "Sheet1") demo_start) = Some st'
      /\ load_sheet st' = Some st'.
Proof.
  assert (Hwb : wb (set_sheet (Some demo_book) (lit "Sheet1") demo_start) <> None)
    by discriminate.
  split; [exact Hwb|].
  destruct (load_sheet_loaded _ _ demo_can_load) as (labels & st' & _ & _ & Hload & _).
  exists st'. split; [exact Hload|]. exact (load_sheet_twice _ _ Hwb Hload).
Defined.

(** ** Column widths *)

Section ColumnWidths.
Variable measure : str -> Z.
Variable padding : Z.

Lemma widened_refl (widths : list Z) : widened widths widths.
Proof. split; [reflexivity|]. intros j w0 H. exists w0. split; [exact H | lia]. Qed.

Lemma widened_trans (a b c : list Z) : widened a b -> widened b c -> widened a c.
Proof.
  intros [Hl1 H1] [Hl2 H2]. split; [congruence|].
  intros j w0 Hj. destruct (H1 _ _ Hj) as (w1 & Hw1 & Hle1).
  destruct (H2 _ _ Hw1) as (w2 & Hw2 & Hle2). exists w2. split; [exact Hw2 | lia].
Qed.

Lemma widened_step (widths : list Z) (i : nat) (old w : Z) :
  widths !! i = Some old ->
  widened widths (if (old <? w)%Z then <[i := w]> widths else widths)
  /\ exists w', (if (old <? w)%Z then <[i := w]> widths else widths) !! i = Some w'
                /\ (w <= w')%Z.
Proof.
  intros Hi. pose proof (lookup_lt_Some _ _ _ Hi) as Hlt.
  destruct (old <? w)%Z eqn:E.
  - apply Z.ltb_lt in E. split; [split|].
    + apply length_insert.
    + intros j w0 Hj. destruct (decide (i = j)) as [->|Hne].
      * rewrite list_lookup_insert_eq by exact Hlt. exists w. split; [reflexivity|].
        rewrite Hi in Hj. injection Hj as <-. lia.
      * rewrite list_lookup_insert_ne by exact Hne. exists w0. split; [exact Hj | lia].
    + exists w. split; [now apply list_lookup_insert_eq | lia].
  - apply Z.ltb_ge in E. split; [apply widened_refl|].
    exists old. split; [exact Hi | exact E].
Qed.

Lemma widen_row_spec (row : list str) (i : nat) (widths : list Z) :
  i + length row <= length widths ->
  exists ws,
    widen_row measure padding i row widths = Some ws
    /\ widened widths ws
    /\ forall j val, row !! j = Some val ->
         exists w, ws !! (i + j) = Some w /\ (measure val + padding <= w)%Z.
Proof.
  revert i widths. induction row as [|val row IH]; intros i widths Hlen; simpl.
  - exists widths. split; [reflexivity|]. split; [apply widened_refl | easy].
  - simpl in Hlen.
    destruct (lookup_lt_is_Some_2 widths i) as [old Hold]; [lia|].
    rewrite Hold.
    destruct (widened_step widths i old (measure val + padding) Hold)
      as [Hw (w' & Hw' & Hle)].
    set (widths' := if (old <? measure val + padding)%Z
                    then <[i := (measure val + padding)%Z]> widths else widths) in *.
    destruct (IH (S i) widths') as (ws & Hws & Hwid & Hcells).
    { destruct Hw as [-> _]. lia. }
    exists ws. split; [exact Hws|]. split; [eapply widened_trans; eassumption|].
    intros [|j] cell Hj; simpl in Hj.
    + injection Hj as <-. rewrite Nat.add_0_r.
      destruct (proj2 Hwid _ _ Hw') as (w & Hw0 & Hle'). exists w. split; [exact Hw0 | lia].
    + destruct (Hcells _ _ Hj) as (w & Hw0 & Hle').
      exists w. split; [|exact Hle']. now rewrite Nat.add_succ_r.
Qed.

Lemma widen_rows_spec (rows : list row) (widths : list Z) :
  Forall (fun r : row => length r <= length widths) rows ->
  exists ws,
    widen_rows measure padding rows widths = Some ws
    /\ widened widths ws
    /\ forall k r j val, rows !! k = Some r -> r !! j = Some val ->
         exists w, ws !! j = Some w /\ (measure val + padding <= w)%Z.
Proof.
  revert widths. induction rows as [|r rows IH]; intros widths Hall; simpl.
  - exists widths. split; [reflexivity|]. split; [apply widened_refl | easy].
  - apply Forall_cons in Hall as [Hr Hall].
    destruct (widen_row_spec r 0 widths Hr) as (w1 & Hw1 & Hwid1 & Hcells1).
    rewrite Hw1.
    destruct (IH w1) as (ws & Hws & Hwid & Hcells).
    { destruct Hwid1 as [-> _]. exact Hall. }
    exists ws. split; [exact Hws|]. split; [eapply widened_trans; eassumption|].
    intros [|k] r' j val Hk Hj; simpl in Hk.
    + injection Hk as <-. destruct (Hcells1 _ _ Hj) as (w & Hw & Hle).
      destruct (proj2 Hwid _ _ Hw) as (w' & Hw'' & Hle'). exists w'.
      split; [exact Hw'' | lia].
    + eapply Hcells; eassumption.
Qed.

Lemma clamp_width_mono (i : nat) (max_width a b : Z) :
  (a <= b)%Z -> (clamp_width i max_width a <= clamp_width i max_width b)%Z.
Proof. intros H. destruct i; simpl; lia. Qed.

End ColumnWidths.

(** X20. In every session the viewer can reach, [autosize_columns] succeeds
    (no row has more cells than there are headers) and sets one width for
    each header: between 60 and 80 for column [#], at most [max_width] and,
    when [max_width] is at least 60, at least 60 for any other column.  A
    column is never narrower than the clamped width of its header, nor
    than the clamped width of any of its cells among the first
    [sample_rows] rows of the view. *)
Theorem autosize_columns_bounds `{R : Runtime}
    (measure : str -> Z) (sample_rows : nat) (padding max_width : Z) (st : State) :
  reachable st ->
  exists ws,
    autosize_columns measure sample_rows padding max_width st = Some ws
    /\ length ws = length (headers st)
    /\ (forall w, ws !! 0 = Some w -> (60 <= w <= 80)%Z)
    /\ (forall i w, ws !! S i = Some w ->
        (w <= max_width)%Z /\ ((60 <= max_width)%Z -> (60 <= w)%Z))
    /\ (forall i h w, headers st !! i = Some h -> ws !! i = Some w ->
        (clamp_width i max_width (measure h + padding) <= w)%Z)
    /\ (forall k r j cell w,
        k < sample_rows -> rows_view st !! k = Some r -> r !! j = Some cell ->
        ws !! j = Some w ->
        (clamp_width j max_width (measure cell + padding) <= w)%Z).
Proof.
  intros Hreach. unfold autosize_columns.
  destruct (headers st) as [|h0 hs] eqn:Eh.
  { exists []. repeat split; intros; discriminate. }
  rewrite <- Eh.
  set (widths := List.map (fun h => (measure h + padding)%Z) (headers st)).
  assert (Hrows : Forall (fun r : row => length r <= length widths)
                    (take sample_rows (rows_view st))).
  { apply Forall_forall. intros r Hr. unfold widths. rewrite length_map.
    apply elem_of_take in Hr as (k & Hk & _).
    apply list_elem_of_lookup_2 in Hk.
    destruct (reachable_inv st Hreach) as [_ Hv].
    apply (elem_of_submseteq _ _ _ Hk) in Hv.
    pose proof (reachable_shape st Hreach) as Hshape.
    unfold shape_inv in Hshape. rewrite Forall_forall in Hshape.
    apply Hshape in Hv. lia. }
  destruct (widen_rows_spec measure padding _ widths Hrows)
    as (ws & Hws & [Hlen Hge] & Hcells).
  rewrite Hws. eexists. split; [reflexivity|].
  split; [rewrite length_imap, Hlen; unfold widths; now rewrite length_map|].
  split; [|split; [|split]].
  - intros w. rewrite list_lookup_imap. destruct (ws !! 0); simpl; [|discriminate].
    intros [= <-]. lia.
  - intros i w. rewrite list_lookup_imap. destruct (ws !! S i); simpl; [|discriminate].
    intros [= <-]. split; lia.
  - intros i h w Hh. rewrite list_lookup_imap.
    assert (Hw0 : widths !! i = Some (measure h + padding)%Z).
    { unfold widths. change (List.map ?f ?l) with (f <$> l).
      rewrite list_lookup_fmap, Hh. reflexivity. }
    destruct (Hge _ _ Hw0) as (w' & Hw' & Hle). rewrite Hw'. simpl.
    intros [= <-]. now apply clamp_width_mono.
  - intros k r j cell w Hk Hr Hj. rewrite list_lookup_imap.
    assert (Hr' : take sample_rows (rows_view st) !! k = Some r)
      by (rewrite lookup_take_lt by exact Hk; exact Hr).
    destruct (Hcells _ _ _ _ Hr' Hj) as (w' & Hw' & Hle). rewrite Hw'. simpl.
    intros [= <-]. now apply clamp_width_mono.
Qed.

(** The demo sheet at seven pixels a character and the padding and cap of
    the program. *)
Lemma autosize_columns_bounds_witness :
  reachable (R := ascii_runtime) demo_session
  /\ autosize_columns demo_measure 300 18 520 demo_session = Some [60; 60; 60; 60]%Z
  /\ autosize_columns demo_measure 300 58 520 demo_session = Some [65; 100; 79; 86]%Z.
Proof.
  split; [exact demo_session_reachable|].
  destruct (autosize_columns_bounds (R := ascii_runtime) demo_measure 300 18 520
              demo_session demo_session_reachable) as (ws & Hws & _).
  split; [|reflexivity].
  rewrite Hws. vm_compute in Hws. now injection Hws as <-.
Defined.

(** ** The cell highlight *)

(** X21. The highlight window is put on screen only when an item is
    selected, a column reference is set and the grid reports a box for
    that cell; it is then at least one pixel wide and high and sits at the
    position of the box on the screen.  After a filter keystroke, the clear
    button, a sort of a view that is not empty or a sheet load it is never
    on screen, and neither is it before a column reference is set. *)
Theorem highlight_needs_selection `{R : Runtime}
    (enabled : bool) (bbox : nat -> Z -> option (Z * Z * Z * Z))
    (rootx rooty : Z) (st : State) :
  (forall w h x y,
      draw_cell_highlight enabled bbox rootx rooty st = Shown w h x y ->
      (1 <= w)%Z /\ (1 <= h)%Z
      /\ exists item rc bx by_ bw bh,
          tree_selection st = Some item /\ _rc_col_index st = Some rc
          /\ bbox item (rc + 1)%Z = Some (bx, by_, bw, bh)
          /\ x = (rootx + bx)%Z /\ y = (rooty + by_)%Z
          /\ w = Z.max 1 bw /\ h = Z.max 1 bh)
  /\ (_rc_col_index st = None ->
      overlay_off (draw_cell_highlight enabled bbox rootx rooty st))
  /\ (forall text,
      overlay_off (draw_cell_highlight enabled bbox rootx rooty
                     (handle st (FilterKeyRelease text))))
  /\ overlay_off (draw_cell_highlight enabled bbox rootx rooty (handle st ClearButton))
  /\ (forall c, rows_view st <> [] ->
      overlay_off (draw_cell_highlight enabled bbox rootx rooty
                     (handle st (HeadingClick c))))
  /\ (forall st', wb st <> None -> load_sheet st = Some st' ->
      overlay_off (draw_cell_highlight enabled bbox rootx rooty st')).
Proof.
  assert (Hoff : forall s, tree_selection s = None ->
                   overlay_off (draw_cell_highlight enabled bbox rootx rooty s)).
  { intros s Hs. unfold draw_cell_highlight. rewrite Hs. now destruct enabled. }
  split; [|split; [|split; [|split; [|split]]]].
  - intros w h x y. unfold draw_cell_highlight.
    destruct enabled; simpl; [|discriminate].
    destruct (tree_selection st) as [item|]; [|discriminate].
    destruct (_rc_col_index st) as [rc|]; [|discriminate].
    destruct (bbox item (rc + 1)%Z) as [[[[bx by_] bw] bh]|] eqn:E; [|discriminate].
    intros [= <- <- <- <-]. split; [lia|]. split; [lia|].
    exists item, rc, bx, by_, bw, bh. rewrite !Z.add_0_r. now repeat split.
  - intros Hrc. unfold draw_cell_highlight. rewrite Hrc.
    destruct enabled; simpl; [|exact I]. now destruct (tree_selection st).
  - intros text. now apply Hoff.
  - now apply Hoff.
  - intros c Hne. apply Hoff. simpl. unfold sort_by_column.
    destruct (rows_view st); [easy | reflexivity].
  - intros st' Hwb Hload. apply Hoff. revert Hload. unfold load_sheet.
    destruct (wb st) as [book|]; [|easy].
    destruct (sheet_by_name (sheet_var st) book) as [ws|]; [|discriminate].
    destruct (column_labels _) as [labels|]; [|discriminate].
    now intros [= <-].
Qed.

(** After the right click of the demo session the window is shown, one
    pixel wide for a box of width 0; one filter keystroke later it is
    not. *)
Lemma highlight_needs_selection_witness :
  draw_cell_highlight true demo_bbox 100 200 demo_session = Shown 1 18 110 220
  /\ tree_selection demo_session = Some 0
  /\ overlay_off (draw_cell_highlight true demo_bbox 100 200
                    (handle (R := ascii_runtime) demo_session (FilterKeyRelease (lit "a")))).
Proof.
  assert (H : draw_cell_highlight true demo_bbox 100 200 demo_session = Shown 1 18 110 220)
    by reflexivity.
  split; [exact H|].
  destruct (highlight_needs_selection (R := ascii_runtime) true demo_bbox 100 200 demo_session)
    as (Hshown & _ & Hfilter & _).
  destruct (Hshown _ _ _ _ H) as (_ & _ & item & rc & bx & by_ & bw & bh & Hsel & _).
  split; [|apply Hfilter].
  rewrite Hsel. f_equal. vm_compute in Hsel. now injection Hsel.
Defined.

(** ** Unreserved queries *)

Section QuoteMore.
Local Open Scope N_scope.

Lemma always_safe_ascii (c : N) : always_safe c = true -> c < 128.
Proof.
  unfold always_safe. rewrite !orb_true_iff, !andb_true_iff, !N.leb_le, !N.eqb_eq. lia.
Qed.

Lemma always_safe_high (b : N) : 128 <= b -> always_safe b = false.
Proof.
  intros H. destruct (always_safe b) eqn:E; [|reflexivity].
  apply always_safe_ascii in E. lia.
Qed.

Lemma quote_byte_length (b : N) :
  length (quote_byte b) = if always_safe b then 1%nat else 3%nat.
Proof. unfold quote_byte. now destruct (always_safe b). Qed.

(** The encoding of one character: itself when it is always safe, and at
    least three characters otherwise. *)
Lemma quote_char_cases (c : N) (bs : list N) :
  utf8_char c = Some bs ->
  (always_safe c = true /\ List.concat (List.map quote_byte bs) = [c])
  \/ (always_safe c = false
      /\ (3 <= length (List.concat (List.map quote_byte bs)))%nat).
Proof.
  unfold utf8_char. destruct (c <? 128) eqn:E1.
  { intros [= <-]. simpl. rewrite app_nil_r. unfold quote_byte.
    destruct (always_safe c); [left | right]; split; simpl; try reflexivity; lia. }
  apply N.ltb_ge in E1. intros Hbs. right. split; [now apply always_safe_high|].
  assert (Hhigh : exists b rest, bs = b :: rest /\ 128 <= b).
  { destruct (c <? 2048).
    { injection Hbs as <-. eexists _, _. split; [reflexivity|].
      etransitivity; [|apply N.le_add_r]. lia. }
    destruct (c <? 65536).
    - destruct ((55296 <=? c) && (c <=? 57343)); [discriminate|].
      injection Hbs as <-. eexists _, _. split; [reflexivity|].
      etransitivity; [|apply N.le_add_r]. lia.
    - destruct (c <? 1114112); [|discriminate].
      injection Hbs as <-. eexists _, _. split; [reflexivity|].
      etransitivity; [|apply N.le_add_r]. lia. }
  destruct Hhigh as (b & rest & -> & Hb). simpl.
  rewrite length_app, quote_byte_length, (always_safe_high b Hb). lia.
Qed.

Lemma quote_cons (c : N) (s : str) (e : str) :
  quote (c :: s) = Some e ->
  exists bs e', utf8_char c = Some bs /\ quote s = Some e'
                /\ e = List.concat (List.map quote_byte bs) ++ e'.
Proof.
  unfold quote. simpl. destruct (utf8_char c) as [bs|]; [|discriminate].
  destruct (utf8_encode s) as [rest|]; [|discriminate].
  intros [= <-]. exists bs. eexists. split; [reflexivity|]. split; [reflexivity|].
  now rewrite List.map_app, List.concat_app.
Qed.

Lemma quote_length (s e : str) : quote s = Some e -> (length s <= length e)%nat.
Proof.
  revert e. induction s as [|c s IH]; intros e; [simpl; lia|].
  intros H. apply quote_cons in H as (bs & e' & Hc & Hs & ->).
  specialize (IH _ Hs). rewrite length_app. simpl.
  destruct (quote_char_cases c bs Hc) as [[_ ->]|[_ Hlen]]; simpl; lia.
Qed.

End QuoteMore.

(** X22. [quote] leaves a query as it is exactly when the query is made of
    letters, digits and [_.-~] only; any other query that can be encoded
    comes out longer than it went in. *)
Theorem quote_keeps_unreserved (query : str) :
  (quote query = Some query <-> Forall (fun c => always_safe c = true) query)
  /\ (forall enc, quote query = Some enc -> length query <= length enc)
  /\ (forall enc, quote query = Some enc -> enc <> query ->
      length query < length enc).
Proof.
  assert (Hkeep : forall q, Forall (fun c => always_safe c = true) q -> quote q = Some q).
  { intros q Hq. induction Hq as [|c q Hc _ IH]; [reflexivity|].
    unfold quote in *. simpl.
    pose proof (always_safe_ascii c Hc) as Hlt. apply N.ltb_lt in Hlt.
    unfold utf8_char. rewrite Hlt.
    destruct (utf8_encode q) as [bs|]; [|discriminate].
    injection IH as IH. simpl. unfold quote_byte at 1. rewrite Hc. simpl.
    now rewrite IH. }
  assert (Hstrict : forall q enc, quote q = Some enc ->
             (enc = q /\ Forall (fun c => always_safe c = true) q)
             \/ length q < length enc).
  { intros q. induction q as [|c q IH]; intros enc H.
    - left. unfold quote in H. simpl in H. injection H as <-. now split.
    - apply quote_cons in H as (bs & e' & Hc & Hs & ->).
      pose proof (quote_length _ _ Hs) as Hle.
      destruct (quote_char_cases c bs Hc) as [[Hsafe ->]|[_ Hlen]].
      + destruct (IH _ Hs) as [[-> Hall]|Hlt].
        * left. split; [reflexivity | now constructor].
        * right. simpl. lia.
      + right. rewrite length_app. simpl. lia. }
  split; [split|split].
  - intros H. destruct (Hstrict _ _ H) as [[_ Hall]|Hlt]; [exact Hall | lia].
  - apply Hkeep.
  - apply quote_length.
  - intros enc H Hne. destruct (Hstrict _ _ H) as [[-> _]|Hlt]; [easy | exact Hlt].
Qed.

Lemma quote_keeps_unreserved_witness :
  Forall (fun c => always_safe c = true) (lit "rocq-9.3_x~")
  /\ quote (lit "rocq-9.3_x~") = Some (lit "rocq-9.3_x~")
  /\ quote (lit "a b") = Some (lit "a%20b")
  /\ length (lit "a b") < length (lit "a%20b").
Proof.
  assert (H : Forall (fun c => always_safe c = true) (lit "rocq-9.3_x~"))
    by (repeat constructor).
  split; [exact H|].
  split; [exact (proj2 (proj1 (quote_keeps_unreserved (lit "rocq-9.3_x~"))) H)|].
  split; [reflexivity|].
  apply (proj2 (proj2 (quote_keeps_unreserved (lit "a b"))) (lit "a%20b"));
    [reflexivity | discriminate].
Defined.

(** ** Opening a file *)

(** X23. Opening a workbook shows its first sheet, whatever was shown
    before: the sheet box names it, [rows_all] holds its numbered rows and
    is the view, the filter text and the sort directions are cleared and
    nothing is selected; the column reference of the old sheet is kept. *)
Theorem open_file_shows_first_sheet `{R : Runtime}
    (st : State) (name : str) (ws : worksheet) (rest : workbook) :
  (N.of_nat (default 0%nat (max_column ws)) <= 18278)%N ->
  sheet_var (handle st (OpenFile ((name, ws) :: rest))) = name
  /\ wb (handle st (OpenFile ((name, ws) :: rest))) = Some ((name, ws) :: rest)
  /\ rows_all (handle st (OpenFile ((name, ws) :: rest)))
     = number_rows 1 (List.map (take (kept_columns ws)) (cell_rows ws))
  /\ rows_view (handle st (OpenFile ((name, ws) :: rest)))
     = rows_all (handle st (OpenFile ((name, ws) :: rest)))
  /\ filter_var (handle st (OpenFile ((name, ws) :: rest))) = []
  /\ _sort_state (handle st (OpenFile ((name, ws) :: rest))) = ∅
  /\ tree_selection (handle st (OpenFile ((name, ws) :: rest))) = None
  /\ _rc_col_index (handle st (OpenFile ((name, ws) :: rest))) = _rc_col_index st.
Proof.
  intros Hmax.
  destruct (column_labels_upto (kept_columns ws)) as [labels [Hl _]].
  { pose proof (trim_last_col_le (cell_rows ws) (default 0 (max_column ws))).
    unfold kept_columns. lia. }
  simpl. unfold load_sheet. simpl. rewrite str_eqb_refl.
  fold (kept_columns ws). rewrite Hl. simpl. repeat split; reflexivity.
Qed.

Lemma open_file_shows_first_sheet_witness :
  (N.of_nat (default 0%nat (max_column demo_sheet_shuffled)) <= 18278)%N
  /\ row_number <$> rows_all (handle (R := ascii_runtime) demo_session
                               (OpenFile [(lit "Other", demo_sheet_shuffled)]))
     = [lit "1"; lit "2"; lit "3"]
  /\ _rc_col_index (handle (R := ascii_runtime) demo_session
                      (OpenFile [(lit "Other", demo_sheet_shuffled)])) = Some 2%Z.
Proof.
  assert (H : (N.of_nat (default 0%nat (max_column demo_sheet_shuffled)) <= 18278)%N)
    by (vm_compute; discriminate).
  split; [exact H|].
  destruct (open_file_shows_first_sheet (R := ascii_runtime) demo_session
              (lit "Other") demo_sheet_shuffled [] H)
    as (_ & _ & Hrows & _ & _ & _ & _ & Hrc).
  split; [rewrite Hrows | rewrite Hrc]; reflexivity.
Defined.

(** ** Sorting a column of equal cells *)

Section EqualKeys.
Context {A K : Type} `{EqDecision K} (leb : K -> K -> bool) (key : A -> K).
Hypothesis leb_total : forall a b, leb a b = true \/ leb b a = true.

Lemma stable_sort_equal_keys (l : list A) :
  (forall x y, x ∈ l -> y ∈ l -> key x = key y) ->
  stable_sort leb key l = l.
Proof.
  induction l as [|x l IH]; intros Hk; simpl; [reflexivity|].
  rewrite IH by (intros a b Ha Hb; apply Hk; now right).
  destruct l as [|y l]; simpl; [reflexivity|].
  rewrite (Hk x y) by (rewrite !elem_of_cons; tauto).
  now rewrite (leb_refl leb leb_total).
Qed.

Lemma list_sort_equal_keys (reverse : bool) (l : list A) :
  (forall x y, x ∈ l -> y ∈ l -> key x = key y) ->
  list_sort leb key reverse l = l.
Proof.
  intros Hk. unfold list_sort. destruct reverse; [|now apply stable_sort_equal_keys].
  rewrite stable_sort_equal_keys; [apply rev_involutive|].
  intros x y Hx Hy.
  apply list_elem_of_In, in_rev, list_elem_of_In in Hx.
  apply list_elem_of_In, in_rev, list_elem_of_In in Hy. now apply Hk.
Qed.

End EqualKeys.

(** X24. A click on a column in which all rows of the view have the same
    sort key (all cells equal up to case, or the column missing from every
    row) leaves the order of the view as it is, whichever direction is
    due. *)
Theorem sort_by_column_equal_keys `{R : Runtime} (st : State) (c : nat) :
  ((forall r r', r ∈ rows_view st -> r' ∈ rows_view st -> sort_key c r = sort_key c r') ->
   rows_view (sort_by_column c st) = rows_view st)
  /\ (0 < c -> (forall r, r ∈ rows_view st -> r !! c = None) ->
      rows_view (sort_by_column c st) = rows_view st).
Proof.
  assert (Hsame : (forall r r', r ∈ rows_view st -> r' ∈ rows_view st ->
                               sort_key c r = sort_key c r') ->
                  rows_view (sort_by_column c st) = rows_view st).
  { intros Hk. rewrite sort_by_column_view, sort_rows_by_sort_key.
    apply list_sort_equal_keys; [apply key_leb_total | exact Hk]. }
  split; [exact Hsame|].
  intros Hc Hnone. apply Hsame. intros r r' Hr Hr'.
  destruct c as [|c]; [lia|]. unfold sort_key, key_str.
  now rewrite (Hnone r Hr), (Hnone r' Hr').
Qed.

(** No row of the demo sheet has a column [J]; two clicks on it change
    nothing in the view. *)
Lemma sort_by_column_equal_keys_witness :
  0 < 10
  /\ (forall r, r ∈ rows_view demo_session -> r !! 10 = None)
  /\ rows_view (sort_by_column (R := ascii_runtime) 10 demo_session)
     = rows_view demo_session.
Proof.
  assert (H : forall r, r ∈ rows_view demo_session -> r !! 10 = None).
  { intros r Hr. vm_compute in Hr.
    repeat (apply elem_of_cons in Hr as [->|Hr]; [reflexivity|]).
    now apply elem_of_nil in Hr. }
  split; [lia|]. split; [exact H|].
  apply (proj2 (sort_by_column_equal_keys (R := ascii_runtime) demo_session 10));
    [lia | exact H].
Defined.

(** ** Reading the configuration files *)

Section ConfigFacts.
Context `{R : Runtime}.

Lemma scan_plain (nested : str -> result str) (map : list dict) (s : str) :
  37%N ∉ s -> scan nested map Text s = Returns s.
Proof.
  induction s as [|c s IH]; intros Hs; [reflexivity|].
  apply not_elem_of_cons in Hs as [Hc Hs]. simpl.
  destruct (N.eqb_spec c 37) as [->|_]; [congruence|].
  now rewrite (IH Hs).
Qed.

Lemma before_get_plain (v : str) (d : list dict) :
  37%N ∉ v -> before_get v d = Returns v.
Proof. intros Hv. unfold before_get. simpl. now apply scan_plain. Qed.

Lemma get_get_option (cfg : ConfigParser) (sec opt fallback : str) :
  get cfg sec opt fallback
  = (o ← get_option cfg sec opt; mret (default fallback o)).
Proof.
  unfold get, get_option. destruct (_unify_values cfg sec) as [d|]; [|reflexivity].
  destruct (chain_get opt d) as [value|]; [|reflexivity].
  now destruct (before_get value d).
Qed.

Lemma get_option_plain (cfg : ConfigParser) (sec opt : str) :
  percent_free (raw_option cfg sec opt) ->
  get_option cfg sec opt = Returns (raw_option cfg sec opt).
Proof.
  unfold percent_free, get_option, raw_option.
  destruct (_unify_values cfg sec) as [d|]; [|reflexivity].
  destruct (chain_get opt d) as [value|]; [|reflexivity].
  intros Hv. now rewrite before_get_plain by now apply Hv.
Qed.

Lemma load_engines_iter_read (cfg : ConfigParser) (engines : dict) (sec : str) :
  load_engines_iter cfg engines sec
  = (s ← read_section cfg sec; mret (load_engines_step engines s)).
Proof.
  unfold load_engines_iter, read_section. rewrite !get_get_option.
  destruct (get_option cfg sec (lit "name")) as [name|e]; [|reflexivity].
  destruct (get_option cfg sec (lit "url")) as [url|e]; [|reflexivity].
  unfold load_engines_step. simpl.
  now destruct (contains placeholder (default [] url)).
Qed.

Lemma load_engines_loop_read (cfg : ConfigParser) (secs : list str) (acc : dict) :
  load_engines_loop cfg secs acc
  = (ss ← read_sections cfg secs; mret (fold_left load_engines_step ss acc)).
Proof.
  revert acc. induction secs as [|sec secs IH]; intros acc; [reflexivity|].
  simpl. rewrite load_engines_iter_read.
  destruct (read_section cfg sec) as [s|e]; [|reflexivity].
  simpl. rewrite IH. now destruct (read_sections cfg secs).
Qed.

Lemma load_engines_path_read (cfg : ConfigParser) :
  load_engines_path (Returns cfg)
  = (ss ← read_sections cfg (sections cfg); mret (load_engines ss)).
Proof.
  unfold load_engines_path. simpl. rewrite load_engines_loop_read.
  destruct (read_sections cfg (sections cfg)) as [ss|e]; [|reflexivity].
  simpl. unfold load_engines.
  now destruct (fold_left load_engines_step ss []).
Qed.

Lemma read_section_plain (cfg : ConfigParser) (sec : str) :
  plain_section (raw_section cfg sec) ->
  read_section cfg sec = Returns (raw_section cfg sec).
Proof.
  intros [Hn Hu]. unfold read_section.
  rewrite (get_option_plain _ _ _ Hn), (get_option_plain _ _ _ Hu). reflexivity.
Qed.

Lemma read_sections_plain (cfg : ConfigParser) (secs : list str) :
  Forall plain_section (raw_section cfg <$> secs) ->
  read_sections cfg secs = Returns (raw_section cfg <$> secs).
Proof.
  induction secs as [|sec secs IH]; intros H; [reflexivity|].
  apply Forall_cons in H as [Hs H]. simpl.
  rewrite (read_section_plain _ _ Hs). simpl. now rewrite (IH H).
Qed.

Lemma percent_free_check (v : option str) :
  match v with
  | Some s => forallb (fun c => negb (c =? 37)%N) s
  | None => true
  end = true ->
  percent_free v.
Proof.
  intros Hv s ->. rewrite forallb_forall in Hv. intros Hin.
  apply list_elem_of_In, Hv in Hin. now rewrite N.eqb_refl in Hin.
Qed.

End ConfigFacts.

(** C8: the code falls short of the claim here.  A section whose template
    uses [%s] for the query lacks the placeholder, yet it is not dropped:
    [cfg.get] raises on the bare [%] before the placeholder test is
    reached, and [load_engines] raises with it, whereas the same section
    without the [%s] is dropped silently and the defaults are returned.  A
    template that does hold the placeholder fails in the same way when it
    carries a percent-encoded parameter. *)
Theorem load_engines_raises_on_bare_percent (R : Runtime) :
  has_placeholder (raw_section percent_s_file (lit "mysite")) = false
  /\ load_engines_path (Returns percent_s_file) = Raises InterpolationSyntaxError
  /\ has_placeholder (raw_section no_placeholder_file (lit "mysite")) = false
  /\ load_engines_path (Returns no_placeholder_file) = Returns DEFAULT_ENGINES
  /\ has_placeholder (raw_section percent_encoded_file (lit "mysite")) = true
  /\ load_engines_path (Returns percent_encoded_file) = Raises InterpolationSyntaxError.
Proof. repeat split; reflexivity. Qed.

(** X25. [load_engines] returns exactly when [cfg.read] and every
    [cfg.get] of the loop go through, and raises the first exception
    otherwise.  What it returns is built from the values read: the
    sections whose [url] lacks the placeholder leave no trace, with no
    valid section the registry is [DEFAULT_ENGINES], and in any case it is
    not empty and every template in it holds the placeholder. *)
Theorem load_engines_path_returns `{R : Runtime} (cfg : ConfigParser) :
  (forall ss, read_sections cfg (sections cfg) = Returns ss ->
     load_engines_path (Returns cfg) = Returns (load_engines ss)
     /\ load_engines ss = load_engines (List.filter has_placeholder ss)
     /\ (List.filter has_placeholder ss = [] ->
         load_engines_path (Returns cfg) = Returns DEFAULT_ENGINES))
  /\ (forall e, read_sections cfg (sections cfg) = Raises e ->
      load_engines_path (Returns cfg) = Raises e)
  /\ (forall reg, load_engines_path (Returns cfg) = Returns reg ->
      reg <> [] /\ Forall entry_ok reg
      /\ exists ss, read_sections cfg (sections cfg) = Returns ss)
  /\ (forall e, load_engines_path (Raises e) = Raises e).
Proof.
  destruct load_engines_drops_invalid as (Hfilter & Hok & Hdef & Hne & _).
  rewrite load_engines_path_read. repeat split.
  - now rewrite H.
  - apply Hfilter.
  - intros Hnone. rewrite H. simpl. f_equal. now apply Hdef.
  - intros e He. now rewrite He.
  - destruct (read_sections cfg (sections cfg)); [|discriminate].
    injection H as <-. apply Hne.
  - destruct (read_sections cfg (sections cfg)); [|discriminate].
    injection H as <-. apply Hok.
  - destruct (read_sections cfg (sections cfg)) as [ss|]; [|discriminate]. eauto.
Qed.

(** A file with a shared base address, an escaped [%] and a section
    without placeholder: one engine is registered. *)
Lemma load_engines_path_returns_witness :
  load_engines_path (R := ascii_runtime) (Returns interpolated_file)
  = Returns [(lit "x", lit "https://h/?q={query}&p=100%")].
Proof.
  destruct (load_engines_path_returns (R := ascii_runtime) interpolated_file)
    as (Hret & _).
  destruct (Hret _ eq_refl) as (-> & _). reflexivity.
Defined.

(** X4. A file whose sections are all valid, hold no [%] in their names
    and templates and carry pairwise different names is read back as it
    stands: the registry lists exactly these names and templates, in the
    order of the file. *)
Theorem load_engines_reads_back_file `{R : Runtime} (cfg : ConfigParser) :
  sections cfg <> [] ->
  Forall plain_section (raw_section cfg <$> sections cfg) ->
  Forall (fun sec => has_placeholder sec = true) (raw_section cfg <$> sections cfg) ->
  NoDup (section_name <$> (raw_section cfg <$> sections cfg)) ->
  load_engines_path (Returns cfg)
  = Returns (section_entry <$> (raw_section cfg <$> sections cfg)).
Proof.
  intros Hne Hplain Hvalid Hnames.
  rewrite load_engines_path_read, (read_sections_plain _ _ Hplain). simpl.
  f_equal. apply load_engines_keeps_file_order; [|assumption..].
  now destruct (sections cfg).
Qed.

(** The file written for the built-in engines is read back as them. *)
Lemma load_engines_reads_back_file_witness :
  load_engines_path (R := ascii_runtime) (Returns default_file)
  = Returns DEFAULT_ENGINES.
Proof.
  assert (Hraw : raw_section default_file <$> sections default_file
                 = default_sections) by reflexivity.
  rewrite (load_engines_reads_back_file (R := ascii_runtime) default_file);
    rewrite ?Hraw.
  - reflexivity.
  - discriminate.
  - unfold default_sections.
    repeat (apply List.Forall_cons;
            [split; apply percent_free_check; reflexivity|]).
    apply List.Forall_nil.
  - repeat constructor.
  - vm_compute.
    repeat (apply NoDup_cons_2;
            [rewrite ?elem_of_cons, elem_of_nil; intuition discriminate|]).
    apply NoDup_nil_2.
Defined.

Section GetRaises.
Context `{R : Runtime}.

Lemma scan_raises (nested : str -> result str) (map : list dict) (rest : str) :
  (forall v e, nested v = Raises e -> interpolation_error e) ->
  forall at_ e, scan nested map at_ rest = Raises e -> interpolation_error e.
Proof.
  intros Hnested. unfold interpolation_error.
  induction rest as [|c rest IH]; intros at_ e; simpl.
  - destruct at_; intros H; inversion H; auto.
  - destruct at_ as [| |k|k].
    + destruct (c =? 37)%N; [apply IH|].
      destruct (scan nested map Text rest) eqn:E; simpl; [discriminate|].
      intros H; injection H as <-. exact (IH _ _ E).
    + destruct (c =? 37)%N.
      { destruct (scan nested map Text rest) eqn:E; simpl; [discriminate|].
        intros H; injection H as <-. exact (IH _ _ E). }
      destruct (c =? 40)%N; [apply IH|]. intros H; inversion H; auto.
    + destruct (c =? 41)%N; [|apply IH].
      destruct k; [intros H; inversion H; auto | apply IH].
    + destruct (c =? 115)%N; [|intros H; inversion H; auto].
      destruct (chain_get (lower k) map) as [v|]; [|intros H; inversion H; auto].
      destruct (contains (lit "%") v).
      * destruct (nested v) eqn:En; simpl.
        -- destruct (scan nested map Text rest) eqn:E; simpl; [discriminate|].
           intros H; injection H as <-. exact (IH _ _ E).
        -- intros H; injection H as <-. exact (Hnested _ _ En).
      * simpl. destruct (scan nested map Text rest) eqn:E; simpl; [discriminate|].
        intros H; injection H as <-. exact (IH _ _ E).
Qed.

Lemma interpolate_raises (levels : nat) (map : list dict) (rest : str) (e : exn) :
  _interpolate_some levels map rest = Raises e -> interpolation_error e.
Proof.
  revert rest e. induction levels as [|levels IH]; intros rest e; simpl.
  - intros H; injection H as <-. unfold interpolation_error. auto.
  - apply scan_raises. exact IH.
Qed.

Lemma get_raises (cfg : ConfigParser) (sec opt fallback : str) (e : exn) :
  get cfg sec opt fallback = Raises e -> interpolation_error e.
Proof.
  unfold get. destruct (_unify_values cfg sec) as [d|]; [|discriminate].
  destruct (chain_get opt d) as [value|]; [|discriminate].
  apply interpolate_raises.
Qed.

End GetRaises.

(** X6. In every session the viewer can reach the registry is not empty,
    so [_alt_engine] never runs out of engines.  When its [cfg.get]
    returns, [_alt_engine] returns a name of the registry whose template
    holds the placeholder: the value read (the configured alternative
    expanded, or [Perplexity] when none is configured) if the registry has
    that name, and the first engine of the registry otherwise.  When the
    [cfg.get] raises, which it does only with an interpolation error,
    [_alt_engine] raises the same. *)
Theorem alt_engine_registered `{R : Runtime} (st : State) (cfg : ConfigParser) :
  reachable st ->
  engines st <> []
  /\ _alt_engine_cfg cfg (engines st) <> Raises StopIteration
  /\ (forall e, alt_engine_value cfg = Raises e ->
      interpolation_error e /\ _alt_engine_cfg cfg (engines st) = Raises e)
  /\ (forall alt, alt_engine_value cfg = Returns alt ->
      exists eng tpl,
        _alt_engine_cfg cfg (engines st) = Returns eng
        /\ dict_get eng (engines st) = Some tpl
        /\ contains placeholder tpl = true
        /\ (is_Some (dict_get alt (engines st)) -> eng = alt)
        /\ (dict_get alt (engines st) = None ->
            exists rest, engines st = (eng, tpl) :: rest)
        /\ (default (lit "Perplexity") (cfg_alt_engine st) = alt ->
            _alt_engine st = Some eng)).
Proof.
  intros Hreach. destruct (reachable_engines st Hreach) as [Hne Hok].
  assert (Hret : forall alt, alt_engine_value cfg = Returns alt ->
    exists eng tpl,
      _alt_engine_cfg cfg (engines st) = Returns eng
      /\ dict_get eng (engines st) = Some tpl
      /\ contains placeholder tpl = true
      /\ (is_Some (dict_get alt (engines st)) -> eng = alt)
      /\ (dict_get alt (engines st) = None ->
          exists rest, engines st = (eng, tpl) :: rest)
      /\ (default (lit "Perplexity") (cfg_alt_engine st) = alt ->
          _alt_engine st = Some eng)).
  { intros alt Hget. unfold _alt_engine_cfg, _alt_engine.
    unfold alt_engine_value in Hget. rewrite Hget. simpl.
    destruct (dict_get alt (engines st)) as [tpl|] eqn:E.
    - exists alt, tpl. split; [reflexivity|]. split; [exact E|].
      split; [exact (dict_get_ok _ _ _ Hok E)|]. split; [reflexivity|].
      split; [discriminate|]. intros ->. now rewrite E.
    - destruct (engines st) as [|[n v] d] eqn:El; [easy|].
      exists n, v. split; [reflexivity|]. split; [apply dict_get_first|].
      split; [apply (dict_get_ok n v ((n, v) :: d) Hok), dict_get_first|].
      split; [intros [x Hx]; discriminate|].
      split; [intros _; now exists d|]. intros ->. now rewrite E. }
  assert (Hraise : forall e, alt_engine_value cfg = Raises e ->
    interpolation_error e /\ _alt_engine_cfg cfg (engines st) = Raises e).
  { intros e Hget. split; [exact (get_raises _ _ _ _ _ Hget)|].
    unfold _alt_engine_cfg. unfold alt_engine_value in Hget. now rewrite Hget. }
  split; [exact Hne|]. split; [|split; assumption].
  destruct (alt_engine_value cfg) as [alt|e] eqn:Hget.
  - destruct (Hret alt eq_refl) as (eng & tpl & -> & _). discriminate.
  - destruct (Hraise e eq_refl) as [Herr ->]. intros H; injection H as ->.
    destruct Herr as [H|[H|H]]; discriminate.
Qed.

(** With [Nope] configured and the built-in registry the alternative is
    [Google], the first engine; with [100%] configured, the exception of
    [cfg.get]. *)
Lemma alt_engine_registered_witness :
  reachable (R := ascii_runtime) unknown_alt_session
  /\ _alt_engine_cfg (R := ascii_runtime) unknown_alt_config
       (engines unknown_alt_session) = Returns (lit "Google")
  /\ _alt_engine unknown_alt_session = Some (lit "Google")
  /\ _alt_engine_cfg (R := ascii_runtime) percent_alt_config
       (engines unknown_alt_session) = Raises InterpolationSyntaxError.
Proof.
  assert (Hreach : reachable (R := ascii_runtime) unknown_alt_session)
    by apply reachable_init.
  split; [exact Hreach|].
  destruct (alt_engine_registered (R := ascii_runtime) unknown_alt_session
              unknown_alt_config Hreach) as (_ & _ & _ & Hret).
  destruct (Hret (lit "Nope") eq_refl)
    as (eng & tpl & Hcfg & _ & _ & _ & Hfirst & Hsession).
  destruct (Hfirst eq_refl) as [rest Hrest]. injection Hrest as <- _ _.
  split; [exact Hcfg|]. split; [now apply Hsession|].
  destruct (alt_engine_registered (R := ascii_runtime) unknown_alt_session
              percent_alt_config Hreach) as (_ & _ & Hraise & _).
  exact (proj2 (Hraise InterpolationSyntaxError eq_refl)).
Defined.
